(** * QualAI methodology synchronisation: a shallow embedding

    The development follows [src/rag/github-sync.ts] (class [GitHubSync]):
    the version comparator [compareVersions], the validator
    [validateMethodology], the per-file step [syncMethodologyFile] and the
    run [syncFromGitHub], together with the parts of the JavaScript
    run-time they rely on (numbers, [Number], [String.prototype.split],
    truthiness, property access on parsed JSON) and of Node's [fs] and
    [path] (what [existsSync], [mkdirSync], [readFileSync] and
    [writeFileSync] do at [config.localDir] and below it). *)

From Stdlib Require Import ZArith QArith String Ascii List Bool Lia.
From stdpp Require Import gmap strings.
Import ListNotations.

#[local] Set Warnings "-register-all".

Local Open Scope string_scope.
Local Open Scope Z_scope.

(** ** JavaScript numbers *)

Module JSNumber.

(** A JavaScript number is an IEEE-754 binary64 value.  Finite values are
    kept as the rational they denote; the two zeros are not told apart
    (the code only compares numbers and tests them for truthiness, and
    [-0] and [+0] behave alike under both). *)
Inductive jsnum : Type :=
  | NaN
  | NegInf
  | Fin (q : Q)
  | PosInf.

(** [a < b] of JavaScript on numbers: false as soon as one side is NaN. *)
Definition num_lt (a b : jsnum) : bool :=
  match a, b with
  | NaN, _ | _, NaN => false
  | NegInf, NegInf => false
  | NegInf, _ => true
  | _, NegInf => false
  | PosInf, _ => false
  | Fin _, PosInf => true
  | Fin x, Fin y => match (x ?= y)%Q with Lt => true | _ => false end
  end.

(** [a > b] is [b < a]. *)
Definition num_gt (a b : jsnum) : bool := num_lt b a.

Definition is_NaN (a : jsnum) : bool :=
  match a with NaN => true | _ => false end.

(** ToBoolean on a number: [0] and [NaN] are falsy. *)
Definition num_truthy (a : jsnum) : bool :=
  match a with
  | NaN => false
  | Fin q => negb (Qeq_bool q 0)
  | _ => true
  end.

Definition num_neg (a : jsnum) : jsnum :=
  match a with
  | NaN => NaN
  | NegInf => PosInf
  | PosInf => NegInf
  | Fin q => Fin (- q)
  end.

(** [q * 2^d <= p], for either sign of [d]. *)
Definition scaled_le (q d p : Z) : bool :=
  if 0 <=? d then q * 2 ^ d <=? p else q <=? p * 2 ^ (- d).

(** [floor (log2 (p / q))] for positive [p] and [q]. *)
Definition binade (p q : Z) : Z :=
  let d := Z.log2 p - Z.log2 q in
  if scaled_le q d p then d else d - 1.

(** The rational [m * 2^k], in lowest terms. *)
Definition dyadic (m k : Z) : Q :=
  if 0 <=? k then inject_Z (m * 2 ^ k)
  else Qred (Qmake m (Z.to_pos (2 ^ (- k)))).

(** Rounding of the positive rational [p / q] to binary64, to nearest with
    ties to even: 53 significant bits, least exponent [-1074], overflow to
    infinity from [2^1024] on. *)
Definition round_pos (p q : Z) : jsnum :=
  let e := binade p q in
  let k := Z.max (e - 52) (-1074) in
  let num := if 0 <=? k then p else p * 2 ^ (- k) in
  let den := if 0 <=? k then q * 2 ^ k else q in
  let m := num / den in
  let r := num mod den in
  let m' := if (den <? 2 * r) || ((2 * r =? den) && Z.odd m) then m + 1 else m in
  if (0 <=? k) && (2 ^ 1024 <=? m' * 2 ^ k) then PosInf else Fin (dyadic m' k).

(** The number denoted by a nonnegative integer. *)
Definition round_int (n : Z) : jsnum :=
  if n <=? 0 then Fin 0 else round_pos n 1.

(** The number denoted by [m * 10^e], [0 <= m], correctly rounded (the
    standard lets an engine replace the digits after the twentieth
    significant one by zeros before rounding; V8 rounds the exact
    value). *)
Definition round_dec (m e : Z) : jsnum :=
  if m <=? 0 then Fin 0
  else if 0 <=? e then round_pos (m * 10 ^ e) 1
  else round_pos m (10 ^ (- e)).

End JSNumber.
Export JSNumber.

(** ** JavaScript strings

    Strings are sequences of 8-bit code units; the code under study only
    inspects ASCII digits, dots, and the suffix [.json]. *)

Module JSString.

Definition code (c : ascii) : Z := Z.of_N (N_of_ascii c).

Definition is_digit (c : ascii) : bool := (48 <=? code c) && (code c <=? 57).

Definition digit_value (c : ascii) : option Z :=
  if is_digit c then Some (code c - 48) else None.

Definition hex_value (c : ascii) : option Z :=
  let n := code c in
  if (48 <=? n) && (n <=? 57) then Some (n - 48)
  else if (65 <=? n) && (n <=? 70) then Some (n - 55)
  else if (97 <=? n) && (n <=? 102) then Some (n - 87)
  else None.

Definition oct_value (c : ascii) : option Z :=
  let n := code c in
  if (48 <=? n) && (n <=? 55) then Some (n - 48) else None.

Definition bin_value (c : ascii) : option Z :=
  let n := code c in
  if (48 <=? n) && (n <=? 49) then Some (n - 48) else None.

(** WhiteSpace and LineTerminator code units below 256: TAB, LF, VT, FF,
    CR, SP, NBSP. *)
Definition is_space (c : ascii) : bool :=
  let n := code c in
  ((9 <=? n) && (n <=? 13)) || (n =? 32) || (n =? 160).

Fixpoint ltrim (l : list ascii) : list ascii :=
  match l with
  | c :: l' => if is_space c then ltrim l' else l
  | [] => []
  end.

Definition trim (l : list ascii) : list ascii :=
  rev (ltrim (rev (ltrim l))).

(** The value of a digit sequence in base [base]; [None] when a character
    is not a digit of that base. *)
Fixpoint digits_from (base : Z) (val : ascii -> option Z) (acc : Z)
    (l : list ascii) : option Z :=
  match l with
  | [] => Some acc
  | c :: l' =>
      match val c with
      | Some d => digits_from base val (acc * base + d) l'
      | None => None
      end
  end.

Definition digits (base : Z) (val : ascii -> option Z) (l : list ascii)
    : option Z :=
  match l with
  | [] => None
  | _ => digits_from base val 0 l
  end.

(** Longest prefix of decimal digits, and the rest. *)
Fixpoint span_digits (l : list ascii) : list ascii * list ascii :=
  match l with
  | c :: l' =>
      if is_digit c then let (ds, r) := span_digits l' in (c :: ds, r)
      else ([], l)
  | [] => ([], [])
  end.

Definition strip_sign (l : list ascii) : bool * list ascii :=
  match l with
  | c :: l' =>
      if (c =? "+")%char then (false, l')
      else if (c =? "-")%char then (true, l')
      else (false, l)
  | [] => (false, l)
  end.

(** ExponentPart, which must reach the end of the literal. *)
Definition parse_exponent (l : list ascii) : option Z :=
  match l with
  | [] => Some 0
  | c :: l' =>
      if (c =? "e")%char || (c =? "E")%char then
        let (neg, ds) := strip_sign l' in
        match digits 10 digit_value ds with
        | Some e => Some (if neg then - e else e)
        | None => None
        end
      else None
  end.

(** StrUnsignedDecimalLiteral other than [Infinity]: the digits of the
    mantissa read as an integer, and the power of ten that scales it. *)
Definition parse_decimal (l : list ascii) : option (Z * Z) :=
  let (ip, r1) := span_digits l in
  let (fp, r2) :=
    match r1 with
    | c :: r => if (c =? ".")%char then span_digits r else ([], r1)
    | [] => ([], r1)
    end in
  match (ip ++ fp)%list with
  | [] => None
  | ds =>
      match digits 10 digit_value ds, parse_exponent r2 with
      | Some m, Some e => Some (m, e - Z.of_nat (List.length fp))
      | _, _ => None
      end
  end.

(** NonDecimalIntegerLiteral: [0x], [0o], [0b] forms (no sign allowed). *)
Definition parse_nondecimal (l : list ascii) : option Z :=
  match l with
  | z :: c :: ds =>
      if negb (z =? "0")%char then None
      else if (c =? "x")%char || (c =? "X")%char then digits 16 hex_value ds
      else if (c =? "o")%char || (c =? "O")%char then digits 8 oct_value ds
      else if (c =? "b")%char || (c =? "B")%char then digits 2 bin_value ds
      else None
  | _ => None
  end.

Definition Infinity_lit : list ascii := list_ascii_of_string "Infinity".

(** [Number(s)], the StringToNumber conversion. *)
Definition Number (s : string) : jsnum :=
  match trim (list_ascii_of_string s) with
  | [] => Fin 0
  | t =>
      match parse_nondecimal t with
      | Some n => round_int n
      | None =>
          let (neg, u) := strip_sign t in
          let v :=
            if bool_decide (u = Infinity_lit) then PosInf
            else match parse_decimal u with
                 | Some (m, e) => round_dec m e
                 | None => NaN
                 end in
          if neg then num_neg v else v
      end
  end.

(** [s.split('.')]: the pieces between the dots, always at least one. *)
Fixpoint split_dot_from (cur : list ascii) (l : list ascii) : list string :=
  match l with
  | [] => [string_of_list_ascii (rev cur)]
  | c :: l' =>
      if (c =? ".")%char
      then string_of_list_ascii (rev cur) :: split_dot_from [] l'
      else split_dot_from (c :: cur) l'
  end.

Definition split_dot (s : string) : list string :=
  split_dot_from [] (list_ascii_of_string s).

(** [s.endsWith(suffix)]. *)
Definition endsWith (s suffix : string) : bool :=
  let l := list_ascii_of_string s in
  let x := list_ascii_of_string suffix in
  bool_decide (skipn (List.length l - List.length x) l = x)
  && (List.length x <=? List.length l)%nat.

End JSString.
Export JSString.

(** ** Parsed JSON, exceptions *)

Module JSValue.

(** What [JSON.parse] returns.  An object is the list of its own
    properties, each name once. *)
Inductive json : Type :=
  | JNull
  | JBool (b : bool)
  | JNum (d : jsnum)
  | JStr (s : string)
  | JArr (elems : list json)
  | JObj (fields : list (string * json)).

(** A JavaScript value as the code sees it: [None] is [undefined]. *)
Abbreviation value := (option json).

Inductive exn : Type :=
  | Error (message : string)
  | TypeError (message : string)
  | SyntaxError (message : string)
  | RequestError (message : string).

(** [err instanceof Error ? err.message : String(err)]: every exception
    here is an [Error] object. *)
Definition message (e : exn) : string :=
  match e with
  | Error m | TypeError m | SyntaxError m | RequestError m => m
  end.

Inductive result (A : Type) : Type :=
  | Ok (a : A)
  | Throw (e : exn).
Arguments Ok {A} a.
Arguments Throw {A} e.

Definition rbind {A B} (r : result A) (k : A -> result B) : result B :=
  match r with
  | Ok a => k a
  | Throw e => Throw e
  end.

Fixpoint lookup_field (fields : list (string * json)) (k : string) : value :=
  match fields with
  | [] => None
  | (k', v) :: rest => if String.eqb k' k then Some v else lookup_field rest k
  end.

(** [v.k] and [v[k]] for the property names this code reads ([id], [name],
    [version], [author], [category], [description], [stages], [guidance],
    [email]): none of them is defined on the prototypes of strings,
    numbers, booleans or arrays, so only objects can answer; reading a
    property of [null] or [undefined] throws. *)
Definition get (v : value) (k : string) : result value :=
  match v with
  | None =>
      Throw (TypeError ("Cannot read properties of undefined (reading '" ++ k ++ "')"))
  | Some JNull =>
      Throw (TypeError ("Cannot read properties of null (reading '" ++ k ++ "')"))
  | Some (JObj fields) => Ok (lookup_field fields k)
  | Some _ => Ok None
  end.

(** ToBoolean. *)
Definition truthy (v : value) : bool :=
  match v with
  | None | Some JNull => false
  | Some (JBool b) => b
  | Some (JNum d) => num_truthy d
  | Some (JStr s) => negb (String.eqb s "")
  | Some (JArr _) | Some (JObj _) => true
  end.

End JSValue.
Export JSValue.

Declare Scope js_scope.
Delimit Scope js_scope with js.
Notation "x <- e ;; k" := (rbind e (fun x => k))
  (at level 100, e at next level, right associativity) : js_scope.
Notation "e ;; k" := (rbind e (fun _ => k))
  (at level 100, right associativity) : js_scope.

(** ** The validator and the version comparator *)

Module Validator.

Local Open Scope js_scope.

Definition required : list string :=
  ["id"; "name"; "version"; "author"; "category"; "description"; "stages"].

(** [for (const field of required) if (!methodology[field]) throw ...] *)
Fixpoint check_required (methodology : json) (fields : list string)
    : result unit :=
  match fields with
  | [] => Ok tt
  | field :: rest =>
      x <- get (Some methodology) field ;;
      if negb (truthy x)
      then Throw (Error ("Missing required field: " ++ field))
      else check_required methodology rest
  end.

(** [!stage.name || !stage.description || !stage.guidance], left to
    right with short circuit. *)
Definition stage_incomplete (stage : json) : result bool :=
  n <- get (Some stage) "name" ;;
  if negb (truthy n) then Ok true else
  d <- get (Some stage) "description" ;;
  if negb (truthy d) then Ok true else
  g <- get (Some stage) "guidance" ;;
  Ok (negb (truthy g)).

Fixpoint check_stages (stages : list json) : result unit :=
  match stages with
  | [] => Ok tt
  | stage :: rest =>
      bad <- stage_incomplete stage ;;
      if bad
      then Throw (Error "Each stage must have name, description, and guidance")
      else check_stages rest
  end.

(** Digits, then the rest; [None] when there is no digit. *)
Definition digits1 (l : list ascii) : option (list ascii) :=
  match span_digits l with
  | ([], _) => None
  | (_, r) => Some r
  end.

Definition expect_dot (l : list ascii) : option (list ascii) :=
  match l with
  | c :: r => if (c =? ".")%char then Some r else None
  | [] => None
  end.

(** The regular expression [^[0-9]+[.][0-9]+[.][0-9]+$] on a string (the
    source writes the digit class as backslash-d, which in JavaScript is
    the ten ASCII digits, and [$] without the [m] flag is the end of
    input). *)
Definition versionPattern (s : string) : bool :=
  match digits1 (list_ascii_of_string s) with
  | Some r1 =>
      match expect_dot r1 with
      | Some r2 =>
          match digits1 r2 with
          | Some r3 =>
              match expect_dot r3 with
              | Some r4 =>
                  match digits1 r4 with
                  | Some [] => true
                  | _ => false
                  end
              | None => false
              end
          | None => false
          end
      | None => false
      end
  | None => false
  end.

(** [versionPattern.test(v)] on an arbitrary value: [test] first converts
    its argument with ToString.

    ToString throws on an object that has an own property [toString]
    (parsed from JSON it is not callable, and [Object.prototype.valueOf]
    returns the object itself), and on an array one of whose elements it
    throws on. *)
Fixpoint toString_throws (v : json) : bool :=
  match v with
  | JObj fields =>
      match lookup_field fields "toString" with
      | Some _ => true
      | None => false
      end
  | JArr elems => existsb toString_throws elems
  | _ => false
  end.

(** Otherwise a string is itself; an array prints as its elements joined
    by commas ([null] elements as the empty string), so a one-element
    array prints as its element; numbers print with at most one dot,
    [true], [false], [null], [undefined] and objects print as words,
    longer arrays contain a comma, and none of those match. *)
Fixpoint versionPattern_test_json (v : json) : bool :=
  match v with
  | JStr s => versionPattern s
  | JArr elems =>
      match elems with
      | [x] => versionPattern_test_json x
      | _ => false
      end
  | _ => false
  end.

Definition versionPattern_test (v : value) : result bool :=
  match v with
  | Some j =>
      if toString_throws j
      then Throw (TypeError "Cannot convert object to primitive value")
      else Ok (versionPattern_test_json j)
  | None => Ok false
  end.

Definition validateMethodology (methodology : json) : result unit :=
  check_required methodology required ;;
  stages <- get (Some methodology) "stages" ;;
  match stages with
  | Some (JArr (stage :: rest)) =>
      check_stages (stage :: rest) ;;
      author <- get (Some methodology) "author" ;;
      an <- get author "name" ;;
      bad_author <-
        (if negb (truthy an) then Ok true
         else ae <- get author "email" ;; Ok (negb (truthy ae))) ;;
      if bad_author : bool then Throw (Error "Author must have name and email") else
      version <- get (Some methodology) "version" ;;
      matches <- versionPattern_test version ;;
      if negb matches
      then Throw (Error "Version must follow semver format (e.g., 1.0.0)")
      else Ok tt
  | _ => Throw (Error "Methodology must have at least one stage")
  end.

(** [parts[i]] of an array of numbers, read by a relational operator:
    past the end it is [undefined], which converts to NaN. *)
Definition part (parts : list jsnum) (i : nat) : jsnum := nth i parts NaN.

(** [for (let i = idx; i < idx + n; i++) ...; return 0] *)
Fixpoint compare_from (parts1 parts2 : list jsnum) (i n : nat) : Z :=
  match n with
  | O => 0
  | S n' =>
      if num_gt (part parts1 i) (part parts2 i) then 1
      else if num_lt (part parts1 i) (part parts2 i) then -1
      else compare_from parts1 parts2 (S i) n'
  end.

Definition compareVersions (v1 v2 : string) : Z :=
  let parts1 := map Number (split_dot v1) in
  let parts2 := map Number (split_dot v2) in
  compare_from parts1 parts2 0 3.

(** [v.split('.')] at run time, where the declared type [string] is not
    checked: only a string has a [split] method. *)
Definition call_split (name : string) (v : value) : result (list string) :=
  match v with
  | Some (JStr s) => Ok (split_dot s)
  | None =>
      Throw (TypeError "Cannot read properties of undefined (reading 'split')")
  | Some JNull =>
      Throw (TypeError "Cannot read properties of null (reading 'split')")
  | Some _ => Throw (TypeError (name ++ ".split is not a function"))
  end.

(** The call [this.compareVersions(a, b)] on run-time values. *)
Definition call_compareVersions (v1 v2 : value) : result Z :=
  parts1 <- call_split "v1" v1 ;;
  parts2 <- call_split "v2" v2 ;;
  Ok (compare_from (map Number parts1) (map Number parts2) 0 3).

End Validator.
Export Validator.

(** ** The comparator and the validator as the specification words them

    "Comparing the three numeric components left to right (major, minor,
    patch), each compared as integers, first difference decides." *)

Module Spec.

(** A component read as an integer. *)
Definition component (p : string) : option Z :=
  digits 10 digit_value (list_ascii_of_string p).

Definition components (v : string) : option (Z * Z * Z) :=
  match map component (split_dot v) with
  | [Some major; Some minor; Some patch] => Some (major, minor, patch)
  | _ => None
  end.

Definition compare_int (a b : Z) : Z :=
  if b <? a then 1 else if a <? b then -1 else 0.

Definition compare3 (x y : Z * Z * Z) : Z :=
  let '(a1, a2, a3) := x in
  let '(b1, b2, b3) := y in
  if negb (a1 =? b1) then compare_int a1 b1
  else if negb (a2 =? b2) then compare_int a2 b2
  else compare_int a3 b3.

(** The validator as the specification words it: five rules, in order;
    the verdict names the first that fails. *)
Inductive rule : Type :=
  | MandatoryField (name : string)
  | StagesNonempty
  | StageComplete
  | AuthorContact
  | VersionFormat.

(** A field of a record; only a record has fields. *)
Definition field (m : json) (k : string) : value :=
  match m with
  | JObj fields => lookup_field fields k
  | _ => None
  end.

(** Present and non-empty. *)
Definition present (m : json) (k : string) : bool := truthy (field m k).

Definition stage_complete (stage : json) : bool :=
  present stage "name" && present stage "description"
  && present stage "guidance".

Definition author_ok (m : json) : bool :=
  match field m "author" with
  | Some a => present a "name" && present a "email"
  | None => false
  end.

Definition version_ok (m : json) : bool :=
  match field m "version" with
  | Some (JStr v) => versionPattern v
  | _ => false
  end.

Definition first_failing_rule (m : json) : option rule :=
  match find (fun f => negb (present m f)) required with
  | Some f => Some (MandatoryField f)
  | None =>
      match field m "stages" with
      | Some (JArr (stage :: rest)) =>
          if negb (forallb stage_complete (stage :: rest)) then Some StageComplete
          else if negb (author_ok m) then Some AuthorContact
          else if negb (version_ok m) then Some VersionFormat
          else None
      | _ => Some StagesNonempty
      end
  end.

(** The error that names a rule. *)
Definition rule_error (r : rule) : exn :=
  match r with
  | MandatoryField f => Error ("Missing required field: " ++ f)
  | StagesNonempty => Error "Methodology must have at least one stage"
  | StageComplete => Error "Each stage must have name, description, and guidance"
  | AuthorContact => Error "Author must have name and email"
  | VersionFormat => Error "Version must follow semver format (e.g., 1.0.0)"
  end.

Definition verdict (m : json) : result unit :=
  match first_failing_rule m with
  | Some r => Throw (rule_error r)
  | None => Ok tt
  end.

Definition stages_of (m : json) : list json :=
  match field m "stages" with
  | Some (JArr stages) => stages
  | _ => []
  end.

(** The version, when there is one, is neither an array nor an object. *)
Definition plain_version (m : json) : Prop :=
  match field m "version" with
  | Some (JArr _) | Some (JObj _) => False
  | _ => True
  end.

(** Every component is below [2^53]. *)
Definition small (x : Z * Z * Z) : Prop :=
  let '(a1, a2, a3) := x in a1 < 2 ^ 53 /\ a2 < 2 ^ 53 /\ a3 < 2 ^ 53.

End Spec.

(** ** The sync engine *)


(** ** The sync engine *)

Module Sync.

(** A text, as read from disk or decoded from a fetched file, is known by
    what [JSON.parse] makes of it: a value, or a [SyntaxError]. *)
Inductive text : Type :=
  | Json (j : json)
  | Malformed (why : string).

Definition JSON_parse (t : text) : result json :=
  match t with
  | Json j => Ok j
  | Malformed why => Throw (SyntaxError why)
  end.

Definition finite (d : jsnum) : bool :=
  match d with Fin _ => true | _ => false end.

(** [JSON.parse(JSON.stringify(j))]: a number that is not finite is
    printed as [null]; everything else comes back as it was. *)
Fixpoint reparse (j : json) : json :=
  match j with
  | JNum d => if finite d then JNum d else JNull
  | JArr elems => JArr (map reparse elems)
  | JObj fields => JObj (map (fun kv => (fst kv, reparse (snd kv))) fields)
  | _ => j
  end.

(** [JSON.stringify(j, null, 2)], as a text. *)
Definition JSON_stringify (j : json) : text := Json (reparse j).

(** One entry of a directory listing of the remote repository. *)
Record entry : Type := mkEntry {
  e_type : string;
  e_name : string;
  e_path : string
}.

(** What [octokit.repos.getContent] answers for a path: an error (not
    found, bad credentials, rate limit, ...), the listing of a directory
    (an array), a file with its decoded content, or another object
    (symlink, submodule) without usable content. *)
Inductive response : Type :=
  | RErr (message : string)
  | RDir (entries : list entry)
  | RFile (content : text)
  | ROther.

Abbreviation remote := (string -> response).

Fixpoint last_segment (cur l : list ascii) : list ascii :=
  match l with
  | [] => rev cur
  | c :: l' =>
      if (c =? "/")%char then last_segment [] l' else last_segment (c :: cur) l'
  end.

Fixpoint drop_slashes (l : list ascii) : list ascii :=
  match l with
  | c :: l' => if (c =? "/")%char then drop_slashes l' else l
  | [] => []
  end.

(** [path.basename(p)] (POSIX): trailing slashes are ignored. *)
Definition basename (p : string) : string :=
  string_of_list_ascii
    (last_segment [] (rev (drop_slashes (rev (list_ascii_of_string p))))).

(** What a path of the local file system leads to: a file, known by its
    text, or a directory. *)
Inductive node : Type :=
  | File (content : text)
  | Directory.

(** What there is at [config.localDir].  Either nothing: [mkdir] is then
    what [fs.mkdirSync(config.localDir, { recursive: true })] does there,
    [None] when it creates the directory, [Some message] when it throws
    an error with that message (no permission, a file in the way, a
    read-only disk).  Or a directory, with what it holds, by name.  (A
    path that leads to something else than a directory is left out.) *)
Inductive local_dir : Type :=
  | Missing (mkdir : option string)
  | Folder (entries : gmap string node).

Definition contents (l : local_dir) : gmap string node :=
  match l with
  | Folder entries => entries
  | Missing _ => ∅
  end.

Definition is_folder (l : local_dir) : bool :=
  match l with
  | Folder _ => true
  | Missing _ => false
  end.

(** The base names that [path.join(config.localDir, name)] does not take
    into the directory: the empty name and ["."] give the directory
    itself, [".."] the directory above it. *)
Definition outside (name : string) : bool :=
  String.eqb name "" || String.eqb name "." || String.eqb name "..".

(** What [path.join(config.localDir, name)] leads to, for a base name
    (it has no slash): a directory for the three names above, an entry of
    the directory, or nothing.  Nothing is found where [config.localDir]
    is missing; the loop below does not run there, the step before it has
    created the directory or thrown. *)
Definition stat (l : local_dir) (name : string) : option node :=
  match l with
  | Missing _ => None
  | Folder entries => if outside name then Some Directory else entries !! name
  end.

(** The state a run works on.  [disk] is what there is at
    [config.localDir]; [fetched] is the trace of paths asked of the
    remote, oldest first; [lastSync] is the field of the engine; [added],
    [updated] and [errors] are the arrays the run allocates and passes
    around by reference. *)
Record state : Type := mkState {
  disk : local_dir;
  fetched : list string;
  lastSync : option Z;
  added : list value;
  updated : list value;
  errors : list string
}.

(** The local directory, by file name. *)
Definition dir (s : state) : gmap string node := contents (disk s).

Definition M (A : Type) : Type := state -> result A * state.

Definition ret {A} (a : A) : M A := fun s => (Ok a, s).
Definition throw {A} (e : exn) : M A := fun s => (Throw e, s).
Definition lift {A} (r : result A) : M A := fun s => (r, s).

Definition bind {A B} (m : M A) (k : A -> M B) : M B :=
  fun s =>
    match m s with
    | (Ok a, s') => k a s'
    | (Throw e, s') => (Throw e, s')
    end.

(** [try { body } catch (err) { handler }] *)
Definition try_catch {A} (body : M A) (handler : exn -> M A) : M A :=
  fun s =>
    match body s with
    | (Ok a, s') => (Ok a, s')
    | (Throw e, s') => handler e s'
    end.

Declare Scope sync_scope.
Delimit Scope sync_scope with sync.
Notation "x <- e ;; k" := (bind e (fun x => k))
  (at level 100, e at next level, right associativity) : sync_scope.
Notation "e ;; k" := (bind e (fun _ => k))
  (at level 100, right associativity) : sync_scope.
Local Open Scope sync_scope.

Definition set_disk (l : local_dir) (s : state) : state :=
  mkState l (fetched s) (lastSync s) (added s) (updated s) (errors s).

(** [fs.existsSync(this.config.localDir)] *)
Definition existsSync_localDir : M bool :=
  fun s => (Ok (is_folder (disk s)), s).

(** [fs.mkdirSync(this.config.localDir, { recursive: true })]; with
    [recursive] a directory that is there already is no error. *)
Definition mkdirSync_localDir : M unit :=
  fun s =>
    match disk s with
    | Missing None => (Ok tt, set_disk (Folder ∅) s)
    | Missing (Some msg) => (Throw (Error msg), s)
    | Folder _ => (Ok tt, s)
    end.

(** [fs.existsSync(localPath)], for [localPath] the join of
    [config.localDir] and a base name: a directory exists as a file does. *)
Definition existsSync (name : string) : M bool :=
  fun s => (Ok (bool_decide (is_Some (stat (disk s) name))), s).

(** [fs.readFileSync(localPath, 'utf-8')]: reading a directory throws.
    (Where nothing is found Node's message goes on with the path; the
    code reads only what [existsSync] has found.) *)
Definition readFileSync (name : string) : M text :=
  fun s =>
    match stat (disk s) name with
    | Some (File t) => (Ok t, s)
    | Some Directory =>
        (Throw (Error "EISDIR: illegal operation on a directory, read"), s)
    | None => (Throw (Error "ENOENT: no such file or directory, open"), s)
    end.

(** [fs.writeFileSync(localPath, text, 'utf-8')] creates the file or
    replaces its content.  It throws where the path is a directory and
    where there is no directory to write in (Node's message goes on with
    the path); the disk does not fail otherwise in this model: it is not
    full and it can be written. *)
Definition writeFileSync (name : string) (t : text) : M unit :=
  fun s =>
    match disk s with
    | Missing _ => (Throw (Error "ENOENT: no such file or directory, open"), s)
    | Folder entries =>
        match stat (disk s) name with
        | Some Directory =>
            (Throw (Error "EISDIR: illegal operation on a directory, open"), s)
        | _ => (Ok tt, set_disk (Folder (<[name := File t]> entries)) s)
        end
    end.

Definition push_added (id : value) : M unit :=
  fun s =>
    (Ok tt, mkState (disk s) (fetched s) (lastSync s)
                    (added s ++ [id]) (updated s) (errors s)).

Definition push_updated (id : value) : M unit :=
  fun s =>
    (Ok tt, mkState (disk s) (fetched s) (lastSync s)
                    (added s) (updated s ++ [id]) (errors s)).

Definition push_error (e : string) : M unit :=
  fun s =>
    (Ok tt, mkState (disk s) (fetched s) (lastSync s)
                    (added s) (updated s) (errors s ++ [e])).

Definition set_lastSync (now : Z) : M unit :=
  fun s =>
    (Ok tt, mkState (disk s) (fetched s) (Some now)
                    (added s) (updated s) (errors s)).

(** The outcome a run resolves with. *)
Record outcome : Type := mkOutcome {
  o_added : list value;
  o_updated : list value;
  o_errors : list string
}.

Definition get_outcome : M outcome :=
  fun s => (Ok (mkOutcome (added s) (updated s) (errors s)), s).

(** "Ensure local directory exists":
    [if (!fs.existsSync(localDir)) fs.mkdirSync(localDir, {recursive: true})] *)
Definition ensure_localDir : M unit :=
  here <- existsSync_localDir ;;
  if here : bool then ret tt else mkdirSync_localDir.

Section Run.

(** The remote repository [config.repo] behind the client. *)
Variable octokit : remote.

(** [await this.octokit.repos.getContent({owner, repo, path})] *)
Definition getContent (path : string) : M response :=
  fun s =>
    let s' := mkState (disk s) (fetched s ++ [path]) (lastSync s)
                      (added s) (updated s) (errors s) in
    match octokit path with
    | RErr m => (Throw (RequestError m), s')
    | r => (Ok r, s')
    end.

(** The version check of an update: [true] when the candidate is to be
    skipped. *)
Definition version_gate (methodology : json) (localPath : string) : M bool :=
  localContent <- readFileSync localPath ;;
  localMethodology <- lift (JSON_parse localContent) ;;
  v1 <- lift (get (Some methodology) "version") ;;
  v2 <- lift (get (Some localMethodology) "version") ;;
  c <- lift (call_compareVersions v1 v2) ;;
  ret (c <=? 0).

(** What [syncMethodologyFile] does once the remote has answered.
    [localPath] is given by the base name it is joined from. *)
Definition after_fetch (filePath : string) (fileData : response) : M unit :=
  match fileData with
  | RFile content =>
      methodology <-
        lift (match JSON_parse content with
              | Ok m => Ok m
              | Throw _ => Throw (Error "Invalid JSON format")
              end) ;;
      lift (validateMethodology methodology) ;;
      let localPath := basename filePath in
      isUpdate <- existsSync localPath ;;
      skip <- (if isUpdate : bool then version_gate methodology localPath
               else ret false) ;;
      if skip : bool then ret tt else
      writeFileSync localPath (JSON_stringify methodology) ;;
      id <- lift (get (Some methodology) "id") ;;
      if isUpdate then push_updated id else push_added id
  | _ => ret tt
  end.

Definition syncMethodologyFile (filePath : string) : M unit :=
  fileData <- getContent filePath ;;
  after_fetch filePath fileData.

(** The body of the loop over the listing. *)
Definition syncEntry (file : entry) : M unit :=
  if String.eqb (e_type file) "file" && endsWith (e_name file) ".json" then
    try_catch
      (syncMethodologyFile (e_path file))
      (fun err => push_error (e_name file ++ ": " ++ message err))
  else ret tt.

Fixpoint syncEntries (contents : list entry) : M unit :=
  match contents with
  | [] => ret tt
  | file :: rest => syncEntry file ;; syncEntries rest
  end.

(** What follows the listing request inside the outer [try]. *)
Definition after_listing (now : Z) (contents : response) : M outcome :=
  match contents with
  | RDir files =>
      ensure_localDir ;;
      syncEntries files ;;
      set_lastSync now ;;
      get_outcome
  | _ => throw (Error "Methodologies directory not found or not a directory")
  end.

Definition rethrow {A} (err : exn) : M A :=
  throw (Error ("Failed to sync from GitHub: " ++ message err)).

(** The method body, on the arrays it has just allocated. *)
Definition syncFromGitHub_body (now : Z) : M outcome :=
  try_catch
    (contents <- getContent "methodologies" ;; after_listing now contents)
    rethrow.

(** The engine's own state between runs. *)
Record world : Type := mkWorld {
  w_disk : local_dir;
  w_fetched : list string;
  w_lastSync : option Z
}.

(** The local directory, by file name. *)
Definition w_dir (w : world) : gmap string node := contents (w_disk w).

(** The world once a path has been asked of the remote. *)
Definition request (path : string) (w : world) : world :=
  mkWorld (w_disk w) (w_fetched w ++ [path]) (w_lastSync w).

Definition enter (w : world) (a u : list value) (e : list string) : state :=
  mkState (w_disk w) (w_fetched w) (w_lastSync w) a u e.

Definition leave (s : state) : world :=
  mkWorld (disk s) (fetched s) (lastSync s).

(** [syncFromGitHub()], run from start to end with nothing in between:
    the promise's result (an outcome, or the rejection) and the world it
    leaves. *)
Definition syncFromGitHub (now : Z) (w : world) : result outcome * world :=
  let (r, s) := syncFromGitHub_body now (enter w [] [] []) in
  (r, leave s).

End Run.

End Sync.
Export Sync.

(** ** The per-file step, slot by slot

    [syncMethodologyFile] looks at one answer of the remote and at one
    slot of the local directory, the one named by the base name of the
    path.  What it does is restated here as a function of those two, to
    reason about whole runs; [syncMethodologyFile_perform] below shows that
    this is the same code. *)

Module Slot.

Local Open Scope js_scope.

Inductive action : Type :=
  | Skip
  | Fail (e : exn)
  | Write (methodology : json) (isUpdate : bool).

(** The version check against the text found in the slot. *)
Definition gate (methodology : json) (localContent : text) : result bool :=
  localMethodology <- JSON_parse localContent ;;
  v1 <- get (Some methodology) "version" ;;
  v2 <- get (Some localMethodology) "version" ;;
  c <- call_compareVersions v1 v2 ;;
  Ok (c <=? 0).

Definition decide (fileData : response) (slot : option node) : action :=
  match fileData with
  | RErr m => Fail (RequestError m)
  | RFile content =>
      match JSON_parse content with
      | Throw _ => Fail (Error "Invalid JSON format")
      | Ok methodology =>
          match validateMethodology methodology with
          | Throw e => Fail e
          | Ok _ =>
              match slot with
              | None => Write methodology false
              | Some Directory =>
                  Fail (Error "EISDIR: illegal operation on a directory, read")
              | Some (File localContent) =>
                  match gate methodology localContent with
                  | Throw e => Fail e
                  | Ok true => Skip
                  | Ok false => Write methodology true
                  end
              end
          end
      end
  | _ => Skip
  end.

Definition perform (filePath : string) (a : action) (s : state)
    : result unit * state :=
  let requested := (fetched s ++ [filePath])%list in
  match a with
  | Skip =>
      (Ok tt, mkState (disk s) requested (lastSync s)
                      (added s) (updated s) (errors s))
  | Fail e =>
      (Throw e, mkState (disk s) requested (lastSync s)
                        (added s) (updated s) (errors s))
  | Write m isUpdate =>
      match disk s with
      | Missing _ =>
          (Throw (Error "ENOENT: no such file or directory, open"),
           mkState (disk s) requested (lastSync s)
                   (added s) (updated s) (errors s))
      | Folder entries =>
          let d := Folder (<[basename filePath := File (JSON_stringify m)]> entries) in
          let id := Spec.field m "id" in
          if isUpdate
          then (Ok tt, mkState d requested (lastSync s)
                               (added s) (updated s ++ [id]) (errors s))
          else (Ok tt, mkState d requested (lastSync s)
                               (added s ++ [id]) (updated s) (errors s))
      end
  end.

(** The filter of the loop. *)
Definition selected (file : entry) : bool :=
  String.eqb (e_type file) "file" && endsWith (e_name file) ".json".

(** The three ways a file fails before anything is compared or written:
    the fetch, the parse, the validation; with the message recorded. *)
Inductive file_failure (octokit : remote) (filePath : string) : string -> Prop :=
  | fetch_failure m :
      octokit filePath = RErr m -> file_failure octokit filePath m
  | parse_failure why :
      octokit filePath = RFile (Malformed why) ->
      file_failure octokit filePath "Invalid JSON format"
  | validation_failure methodology e :
      octokit filePath = RFile (Json methodology) ->
      validateMethodology methodology = Throw e ->
      file_failure octokit filePath (message e).

(** The state after a file has failed with the given message. *)
Definition failed (file : entry) (msg : string) (s : state) : state :=
  mkState (disk s) (fetched s ++ [e_path file]) (lastSync s)
          (added s) (updated s) (errors s ++ [e_name file ++ ": " ++ msg]).

Definition is_write (a : action) : bool :=
  match a with Write _ _ => true | _ => false end.

(** What the slot holds after the action. *)
Definition new_slot (a : action) (slot : option node) : option node :=
  match a with
  | Write m _ => Some (File (JSON_stringify m))
  | _ => slot
  end.

(** The slot of an entry: its file name in the local directory. *)
Definition key (file : entry) : string := basename (e_path file).

Definition no_slash (name : string) : bool :=
  forallb (fun c => negb (c =? "/")%char) (list_ascii_of_string name).

(** The listing of the directory [methodologies] as the remote gives it:
    every entry has a name, without a slash, its path is the name inside
    the directory, and no two entries have the same name. *)
Definition directory_listing (files : list entry) : Prop :=
  Forall (fun file =>
            e_name file <> "" /\ no_slash (e_name file) = true /\
            e_path file = "methodologies/" ++ e_name file) files /\
  List.NoDup (map e_name files).

(** The local directory after the step that ensures it: as it was when it
    was there, empty when it has been created. *)
Definition ensured (l : local_dir) : local_dir := Folder (contents l).

(** The local directory can be there for a run: it exists, or creating
    it does not fail. *)
Definition available (l : local_dir) : bool :=
  match l with
  | Missing (Some _) => false
  | _ => true
  end.

End Slot.
Export Slot.

(** ** The engine as a process: runs that interleave

    [syncFromGitHub] is an [async] method.  A call runs up to its first
    [await], the listing request, and the run is then in flight; it is
    resumed when what it awaits has settled: the answer to the listing,
    the answer to a file request inside [syncMethodologyFile], and the
    promise of [syncMethodologyFile] itself in the loop.  Between two
    [await]s the code of a run executes without interruption, and any
    other run, or a new call, may come in between two resumptions. *)

Module Engine.

(** A run in flight, by what it awaits: the listing; the file asked for
    by [syncMethodologyFile], with the entries still to come and the
    arrays of the run; the settled promise of [syncMethodologyFile]. *)
Inductive run : Type :=
  | AwaitListing
  | AwaitFile (file : entry) (rest : list entry)
              (a u : list value) (e : list string)
  | AwaitStep (r : result unit) (file : entry) (rest : list entry)
              (a u : list value) (e : list string).

(** [GitHubSyncConfig], after the defaults of the constructor. *)
Record config : Type := mkConfig {
  autoSync : bool;
  syncInterval : Z
}.

(** The engine: the world its runs share, whether the timer is armed,
    the runs in flight, and the results of the runs that have settled,
    oldest first. *)
Record engine : Type := mkEngine {
  shared : world;
  syncTimer : bool;
  runs : list run;
  settled : list (result outcome)
}.

(** A call of [syncFromGitHub()]: the arrays are allocated, the listing is
    asked for, and the run is in flight.  Nothing is tested before. *)
Definition trigger (e : engine) : engine :=
  mkEngine (request "methodologies" (shared e)) (syncTimer e)
           (runs e ++ [AwaitListing]) (settled e).

(** [forceSync()] awaits [this.syncFromGitHub()]. *)
Definition forceSync (e : engine) : engine := trigger e.

Definition startAutoSync (c : config) (e : engine) : engine :=
  let e' := trigger e in
  if 0 <? syncInterval c
  then mkEngine (shared e') true (runs e') (settled e')
  else e'.

Definition stopAutoSync (e : engine) : engine :=
  mkEngine (shared e) false (runs e) (settled e).

(** [new GitHubSync(config)], with what there is at [config.localDir]. *)
Definition construct (c : config) (l : local_dir) : engine :=
  let e := mkEngine (mkWorld l [] None) false [] [] in
  if autoSync c then startAutoSync c e else e.

Section Resume.

Variable octokit : remote.

(** The loop from a given entry on, up to the next [await] or to the end
    of the method: entries that are not selected are passed over; for the
    first selected one [syncMethodologyFile] is called and asks for the
    file; when no entry is left, [lastSync] is set and the run resolves. *)
Fixpoint advance (now : Z) (rest : list entry) (s : state)
    : (run + result outcome) * world :=
  match rest with
  | [] =>
      (inr (Ok (mkOutcome (added s) (updated s) (errors s))),
       mkWorld (disk s) (fetched s) (Some now))
  | file :: rest' =>
      if selected file
      then (inl (AwaitFile file rest' (added s) (updated s) (errors s)),
            request (e_path file) (leave s))
      else advance now rest' s
  end.

(** The rejection of the outer [catch]. *)
Definition rejected (msg : string) : result outcome :=
  Throw (Error ("Failed to sync from GitHub: " ++ msg)).

(** One resumption of a run: the run it becomes, or the result its
    promise settles with, and the world after it.  With the listing in
    hand the run sees to the local directory and enters the loop. *)
Definition resume_run (now : Z) (r : run) (w : world)
    : (run + result outcome) * world :=
  match r with
  | AwaitListing =>
      match octokit "methodologies" with
      | RErr m => (inr (rejected m), w)
      | RDir files =>
          match ensure_localDir (enter w [] [] []) with
          | (Ok _, s) => advance now files s
          | (Throw err, s) => (inr (rejected (message err)), leave s)
          end
      | _ =>
          (inr (rejected "Methodologies directory not found or not a directory"),
           w)
      end
  | AwaitFile file rest a u e =>
      let (r, s) :=
        match octokit (e_path file) with
        | RErr m => (Throw (RequestError m), enter w a u e)
        | fileData => after_fetch (e_path file) fileData (enter w a u e)
        end in
      (inl (AwaitStep r file rest (added s) (updated s) (errors s)), leave s)
  | AwaitStep r file rest a u e =>
      match r with
      | Ok _ => advance now rest (enter w a u e)
      | Throw err =>
          advance now rest
            (snd (push_error (e_name file ++ ": " ++ message err)
                    (enter w a u e)))
      end
  end.

(** The run at position [i] is resumed. *)
Definition resume (i : nat) (now : Z) (e : engine) : engine :=
  match runs e !! i with
  | Some r =>
      match resume_run now r (shared e) with
      | (inl r', w) => mkEngine w (syncTimer e) (<[i := r']> (runs e)) (settled e)
      | (inr out, w) =>
          mkEngine w (syncTimer e) (delete i (runs e)) (settled e ++ [out])
      end
  | None => e
  end.

(** What can happen to the engine: a manual trigger, a fire of the timer
    while it is armed, the resumption of a run in flight, the timer being
    stopped. *)
Inductive step : engine -> engine -> Prop :=
  | step_forceSync e : step e (forceSync e)
  | step_timer e : syncTimer e = true -> step e (trigger e)
  | step_resume e (i : nat) now :
      (i < List.length (runs e))%nat -> step e (resume i now e)
  | step_stop e : step e (stopAutoSync e).

(** A run resumed until it settles, with no other run in between. *)
Fixpoint drive (fuel : nat) (now : Z) (x : (run + result outcome) * world)
    : option (result outcome * world) :=
  match x with
  | (inr out, w) => Some (out, w)
  | (inl r, w) =>
      match fuel with
      | O => None
      | S fuel' => drive fuel' now (resume_run now r w)
      end
  end.

(** Resumptions in a given order: each number is the position, among
    the runs then in flight, of the run that is resumed. *)
Fixpoint resumes (now : Z) (order : list nat) (e : engine) : engine :=
  match order with
  | [] => e
  | i :: rest => resumes now rest (resume i now e)
  end.

(** A schedule: so many resumptions of runs in flight, each of any of
    them and at any time, with nothing else in between. *)
Inductive resumptions : nat -> engine -> engine -> Prop :=
  | resumptions_O e : resumptions 0 e e
  | resumptions_S n e (i : nat) now e' :
      (i < List.length (runs e))%nat ->
      resumptions n (resume i now e) e' ->
      resumptions (S n) e e'.

(** The entries the listing request is answered with. *)
Definition listing : list entry :=
  match octokit "methodologies" with
  | RDir files => files
  | _ => []
  end.

(** The resumptions a run in flight can still take, at most: one for the
    listing, two for each entry still to come. *)
Definition weight (r : run) : nat :=
  match r with
  | AwaitListing => S (2 * List.length listing)
  | AwaitFile _ rest _ _ _ => 2 + 2 * List.length rest
  | AwaitStep _ _ rest _ _ _ => 1 + 2 * List.length rest
  end.

(** The files a run in flight has still to ask the remote for. *)
Definition pending (r : run) : list string :=
  match r with
  | AwaitListing => map e_path (List.filter selected listing)
  | AwaitFile _ rest _ _ _ | AwaitStep _ _ rest _ _ _ =>
      map e_path (List.filter selected rest)
  end.

(** A measure summed over the runs in flight. *)
Definition total (f : run -> nat) (e : engine) : nat :=
  list_sum (map f (runs e)).

(** How often a path has been asked of the remote. *)
Definition requests (p : string) (w : world) : nat :=
  count_occ string_dec (w_fetched w) p.

End Resume.

End Engine.
Export Engine.

(** ** The object and its configuration *)

Module Instance.

(** An own property of the configuration object given to the
    constructor: absent, present with the value [undefined], or present
    with a value. *)
Inductive given (A : Type) : Type :=
  | Absent
  | Undefined
  | Given (a : A).
Arguments Absent {A}.
Arguments Undefined {A}.
Arguments Given {A} a.

(** The argument of the constructor, [GitHubSyncConfig]; [syncInterval]
    in whole minutes. *)
Record GitHubSyncConfig : Type := mkGitHubSyncConfig {
  repo : string;
  token : given string;
  localDir : string;
  autoSync_given : given bool;
  syncInterval_given : given Z
}.

(** [this.config]: a property that is [undefined] is [None]. *)
Record settings : Type := mkSettings {
  s_repo : string;
  s_autoSync : option bool;
  s_syncInterval : option Z
}.

(** A property after [{ p: config.p ?? d, ...config }]: the default is
    computed first, and the spread then copies every own property of
    [config] over it, also one whose value is [undefined]; the default
    stays only where the property is absent. *)
Definition defaulted {A} (d : A) (p : given A) : option A :=
  match p with
  | Absent => Some d
  | Undefined => None
  | Given a => Some a
  end.

Definition with_defaults (c : GitHubSyncConfig) : settings :=
  mkSettings (repo c)
             (defaulted true (autoSync_given c))
             (defaulted 60 (syncInterval_given c)).

(** What the tests [if (this.config.autoSync)] and
    [this.config.syncInterval && this.config.syncInterval > 0] see:
    [undefined] is falsy, as [false] and as a zero interval are. *)
Definition effective (s : settings) : config :=
  mkConfig (match s_autoSync s with Some b => b | None => false end)
           (match s_syncInterval s with Some minutes => minutes | None => 0 end).

Record GitHubSync : Type := mkGitHubSync {
  this_config : settings;
  this_engine : engine
}.

(** [new GitHubSync(config)], with what there is at [config.localDir]. *)
Definition new_GitHubSync (c : GitHubSyncConfig) (l : local_dir)
    : GitHubSync :=
  let s := with_defaults c in
  mkGitHubSync s (construct (effective s) l).

Record status : Type := mkStatus {
  status_lastSync : option Z;
  status_autoSyncEnabled : option bool;
  status_repo : string
}.

Definition getSyncStatus (g : GitHubSync) : status :=
  mkStatus (w_lastSync (shared (this_engine g)))
           (s_autoSync (this_config g))
           (s_repo (this_config g)).

End Instance.
Export Instance.

(** ** Sample data *)

Module Examples.

Definition stage1 : json :=
  JObj [("name", JStr "Open coding"); ("description", JStr "Line by line");
        ("guidance", JStr "Stay close to the data")].

(** A record with the given identifier, version and stages, complete in
    everything else. *)
Definition record (id version : string) (stages : json) : json :=
  JObj [("id", JStr id); ("name", JStr "Grounded Theory");
        ("version", JStr version);
        ("author", JObj [("name", JStr "K. Charmaz"); ("email", JStr "kc@example.org")]);
        ("category", JStr "theory-building");
        ("description", JStr "Constructivist grounded theory");
        ("stages", stages)].

Definition charmaz (version : string) : json :=
  record "gt-charmaz" version (JArr [stage1]).

(** A record whose only stage is [null]. *)
Definition null_stage : json := record "gt-charmaz" "1.0.0" (JArr [JNull]).

(** A record whose version is the array [["1.0.0"]]. *)
Definition array_version : json :=
  JObj [("id", JStr "gt-charmaz"); ("name", JStr "Grounded Theory");
        ("version", JArr [JStr "1.0.0"]);
        ("author", JObj [("name", JStr "K. Charmaz"); ("email", JStr "kc@example.org")]);
        ("category", JStr "theory-building");
        ("description", JStr "Constructivist grounded theory");
        ("stages", JArr [stage1])].

Definition broken : entry :=
  mkEntry "file" "broken.json" "methodologies/broken.json".

Definition drafts : entry := mkEntry "dir" "drafts" "methodologies/drafts".

Definition readme : entry :=
  mkEntry "file" "README.md" "methodologies/README.md".

Definition gt_charmaz : entry :=
  mkEntry "file" "gt-charmaz.json" "methodologies/gt-charmaz.json".

Definition files : list entry := [broken; drafts; readme; gt_charmaz].

(** A repository whose [methodologies] directory holds [files]:
    [gt-charmaz.json] at the given version, and [broken.json], which is
    not JSON. *)
Definition repo (version : string) : remote := fun p =>
  if String.eqb p "methodologies" then RDir files
  else if String.eqb p "methodologies/gt-charmaz.json"
       then RFile (Json (charmaz version))
  else if String.eqb p "methodologies/broken.json"
       then RFile (Malformed "Unexpected token < in JSON at position 0")
  else RErr "Not Found".

(** A repository that cannot be reached. *)
Definition unreachable : remote := fun _ => RErr "Bad credentials".

(** The local directory is there and empty. *)
Definition empty_world : world := mkWorld (Folder ∅) [] None.

(** A local directory that already holds the record, under another file
    name and at version 2.0.0. *)
Definition legacy_world : world :=
  mkWorld (Folder {[ "legacy.json" := File (Json (charmaz "2.0.0")) ]}) [] None.

(** A run about to enter its loop. *)
Definition fresh (w : world) : state := enter (request "methodologies" w) [] [] [].

(** A local directory that holds [gt-charmaz.json] at the given version. *)
Definition synced (version : string) : state :=
  mkState (Folder {[ "gt-charmaz.json" := File (Json (charmaz version)) ]})
          [] None [] [] [].

Definition idle : engine := construct (mkConfig false 60) (Folder ∅).

End Examples.

(** ** Notions used to state what runs do *)

Module Reports.

(** How many entries the three lists of a run hold together. *)
Definition reported (s : state) : nat :=
  (List.length (added s) + List.length (updated s) + List.length (errors s))%nat.

(** Where an id in [added] or [updated] comes from: a selected entry
    whose content is a valid record with that id, stored in the directory
    under the entry's file name. *)
Definition stored_as (octokit : remote) (d : gmap string node)
    (file : entry) (id : value) : Prop :=
  exists m,
    selected file = true /\
    octokit (e_path file) = RFile (Json m) /\
    validateMethodology m = Ok tt /\
    Spec.field m "id" = id /\
    d !! key file = Some (File (JSON_stringify m)).

(** The state in which a run enters its loop: the listing has been asked
    for, the local directory is there, the arrays are empty. *)
Definition in_loop (w : world) : state :=
  mkState (ensured (w_disk w)) (w_fetched w ++ ["methodologies"])%list
          (w_lastSync w) [] [] [].

(** An entry the loop passes over. *)
Definition unselected (f : entry) : Prop := selected f = false.

(** A settled run that resolved, with an outcome. *)
Definition resolved (r : result outcome) : Prop := exists out, r = Ok out.

End Reports.
Export Reports.

Module Interleaving.

Section Interleaving.

Variable octokit : remote.

(** The listing of the remote, and the world when the first run starts. *)
Variable files : list entry.
Variable w0 : world.

(** The directory one run alone leaves. *)
Definition target : gmap string node :=
  dir (snd (syncEntries octokit files (in_loop w0))).

(** The files of these entries are, in directory [d], what one run alone
    leaves. *)
Definition processed (d : gmap string node) (l : list entry) : Prop :=
  forall g, In g l -> selected g = true -> d !! key g = target !! key g.

(** A run in flight is somewhere in the listing, and the files of the
    entries it has been through are in their final state.  A run that
    has entered the loop has found the local directory, or created it. *)
Definition run_ok (w : world) (r : run) : Prop :=
  match r with
  | AwaitListing => True
  | AwaitFile f rest _ _ _ =>
      is_folder (w_disk w) = true /\ selected f = true /\
      exists done, files = (done ++ f :: rest)%list /\ processed (w_dir w) done
  | AwaitStep _ f rest _ _ _ =>
      is_folder (w_disk w) = true /\ selected f = true /\
      exists done, files = (done ++ f :: rest)%list /\
                   processed (w_dir w) (done ++ [f])
  end.

(** What holds of the engine at every moment, from a state [e0] with no
    run in flight on, when the local directory is there or can be
    created: every file is as it was at the start or as one run alone
    leaves it; the runs in flight are as above; and once a run has
    settled the directory is the one a single run leaves. *)
Definition interleaving_inv (e0 e : engine) : Prop :=
  let d := w_dir (shared e) in
  available (w_disk (shared e)) = true /\
  (forall k, d !! k = w_dir w0 !! k \/ d !! k = target !! k) /\
  Forall (run_ok (shared e)) (runs e) /\
  ((List.length (settled e0) < List.length (settled e))%nat -> d = target).

End Interleaving.

End Interleaving.
Export Interleaving.

(** ** More sample data *)

Module Samples.

(** A record with [author] a string, as the interface [Methodology]
    declares it. *)
Definition typed_record : json :=
  JObj [("id", JStr "gt-charmaz"); ("name", JStr "Grounded Theory");
        ("version", JStr "1.0.0"); ("author", JStr "K. Charmaz");
        ("category", JStr "theory-building");
        ("description", JStr "Constructivist grounded theory");
        ("stages", JArr [Examples.stage1])].

(** A local directory whose [gt-charmaz.json] does not parse, next to a
    file the remote does not list. *)
Definition damaged_world : world :=
  mkWorld (Folder {[ "gt-charmaz.json" := File (Malformed "Unexpected end of JSON input");
                     "notes.json" := File (Json (Examples.charmaz "0.1.0")) ]})
          [] None.

(** A local directory in which [gt-charmaz.json] is a sub-directory. *)
Definition obstructed : state :=
  mkState (Folder {[ "gt-charmaz.json" := Directory ]}) [] None [] [] [].

(** No local directory yet, where it can be created; and where it
    cannot. *)
Definition no_directory : world := mkWorld (Missing None) [] None.

Definition read_only : world :=
  mkWorld (Missing (Some "EACCES: permission denied, mkdir './methodologies'"))
          [] None.

(** A configuration that sets nothing but the repository and the
    directory, and one that sets [syncInterval] to [undefined]. *)
Definition bare_config : GitHubSyncConfig :=
  mkGitHubSyncConfig "qualai-community/methodologies" Absent "./methodologies"
                     Absent Absent.

Definition undefined_interval : GitHubSyncConfig :=
  mkGitHubSyncConfig "qualai-community/methodologies" Absent "./methodologies"
                     (Given true) Undefined.

End Samples.

(** * Facts *)

(** * Facts *)

(** ** Numbers *)

Lemma num_lt_Fin x y : num_lt (Fin x) (Fin y) = true <-> (x < y)%Q.
Proof.
  simpl. rewrite Qlt_alt. destruct (x ?= y)%Q; split; congruence.
Qed.

Lemma num_lt_Fin_false x y : num_lt (Fin x) (Fin y) = false <-> (y <= x)%Q.
Proof.
  rewrite <- not_true_iff_false, num_lt_Fin. split.
  - apply Qnot_lt_le.
  - apply Qle_not_lt.
Qed.

Lemma num_lt_NaN_l a : num_lt NaN a = false.
Proof. reflexivity. Qed.

Lemma num_lt_NaN_r a : num_lt a NaN = false.
Proof. destruct a; reflexivity. Qed.

Lemma num_lt_irrefl a : num_lt a a = false.
Proof.
  destruct a; try reflexivity. apply num_lt_Fin_false, Qle_refl.
Qed.

Lemma num_lt_asym a b : num_lt a b = true -> num_lt b a = false.
Proof.
  destruct a, b; try (simpl; congruence).
  rewrite num_lt_Fin, num_lt_Fin_false. apply Qlt_le_weak.
Qed.

Lemma num_lt_trans a b c :
  num_lt a b = true -> num_lt b c = true -> num_lt a c = true.
Proof.
  destruct a, b, c; try (simpl; congruence).
  rewrite !num_lt_Fin. apply Qlt_trans.
Qed.

(** On numbers other than NaN, "neither less nor greater" behaves as an
    equivalence that [<] respects. *)
Lemma num_lt_le_trans a b c :
  is_NaN c = false ->
  num_lt a b = true -> num_lt c b = false -> num_lt a c = true.
Proof.
  destruct a, b, c; try (simpl; congruence).
  rewrite !num_lt_Fin, num_lt_Fin_false. intros _. apply Qlt_le_trans.
Qed.

Lemma num_le_lt_trans a b c :
  is_NaN a = false ->
  num_lt b a = false -> num_lt b c = true -> num_lt a c = true.
Proof.
  destruct a, b, c; try (simpl; congruence).
  rewrite !num_lt_Fin, num_lt_Fin_false. intros _. apply Qle_lt_trans.
Qed.

Lemma num_le_trans a b c :
  is_NaN a = false -> is_NaN b = false -> is_NaN c = false ->
  num_lt b a = false -> num_lt c b = false -> num_lt c a = false.
Proof.
  destruct a, b, c; try (simpl; congruence).
  rewrite !num_lt_Fin_false. intros _ _ _ H1 H2. eapply Qle_trans; eauto.
Qed.

Lemma round_pos_not_NaN p q : is_NaN (round_pos p q) = false.
Proof. unfold round_pos. now destruct (_ && _). Qed.

Lemma round_int_not_NaN n : is_NaN (round_int n) = false.
Proof.
  unfold round_int. destruct (n <=? 0); [reflexivity | apply round_pos_not_NaN].
Qed.

Lemma Qred_inject_Z n : Qred (inject_Z n) = inject_Z n.
Proof.
  unfold Qred, inject_Z.
  generalize (Z.ggcd_gcd n 1) (Z.ggcd_correct_divisors n 1).
  destruct (Z.ggcd n 1) as [g [aa bb]]. simpl.
  rewrite Z.gcd_1_r. intros -> [Ha Hb].
  assert (Haa : aa = n) by lia. assert (Hbb : bb = 1) by lia.
  rewrite Haa, Hbb. reflexivity.
Qed.

Lemma dyadic_exact n j :
  0 <= j -> dyadic (n * 2 ^ j) (- j) = inject_Z n.
Proof.
  intros Hj. unfold dyadic.
  destruct (Z.leb_spec 0 (- j)) as [H|H].
  - assert (j = 0) by lia. subst j. simpl. now rewrite !Z.mul_1_r.
  - rewrite Z.opp_involutive.
    assert (Hp : 0 < 2 ^ j) by (apply Z.pow_pos_nonneg; lia).
    rewrite <- (Qred_inject_Z n).
    apply Qred_complete. unfold Qeq, inject_Z. simpl.
    rewrite Z2Pos.id by lia. lia.
Qed.

(** Below [2^53] an integer is a JavaScript number as it stands. *)
Lemma round_int_exact n : 0 <= n < 2 ^ 53 -> round_int n = Fin (inject_Z n).
Proof.
  intros [H0 Hn]. unfold round_int.
  destruct (Z.leb_spec n 0) as [Hz|Hpos].
  { assert (n = 0) by lia. now subst n. }
  assert (Hl : 0 <= Z.log2 n < 53).
  { split; [apply Z.log2_nonneg | now apply Z.log2_lt_pow2]. }
  destruct (Z.log2_spec n Hpos) as [Hlo _].
  unfold round_pos, binade, scaled_le.
  change (Z.log2 1) with 0. rewrite Z.sub_0_r.
  replace (0 <=? Z.log2 n) with true by (symmetry; apply Z.leb_le; lia).
  replace (1 * 2 ^ Z.log2 n <=? n) with true by (symmetry; apply Z.leb_le; lia).
  rewrite Z.max_l by lia.
  set (j := 52 - Z.log2 n).
  replace (Z.log2 n - 52) with (- j) by (unfold j; lia).
  assert (Hj : 0 <= j) by (unfold j; lia).
  destruct (Z.leb_spec 0 (- j)) as [Hk|Hk].
  - assert (j = 0) by lia.
    replace (- j) with 0 by lia. simpl (2 ^ 0). rewrite !Z.mul_1_r.
    rewrite Z.div_1_r, Z.mod_1_r. simpl (2 * 0).
    change (1 <? 0) with false. change (0 =? 1) with false. simpl orb.
    cbv iota.
    assert (Hbig : n < 2 ^ 1024).
    { eapply Z.lt_trans; [exact Hn|]. apply Z.pow_lt_mono_r; lia. }
    replace (2 ^ 1024 <=? n) with false by (symmetry; apply Z.leb_gt; exact Hbig).
    simpl andb. cbv iota. unfold dyadic. simpl.
    now rewrite Z.mul_1_r.
  - rewrite Z.opp_involutive.
    rewrite Z.div_1_r, Z.mod_1_r. simpl (2 * 0).
    change (1 <? 0) with false. change (0 =? 1) with false. simpl orb.
    cbv iota. simpl andb. cbv iota.
    now rewrite dyadic_exact.
Qed.

Lemma num_lt_inject a b :
  num_lt (Fin (inject_Z a)) (Fin (inject_Z b)) = (a <? b).
Proof.
  destruct (Z.ltb_spec a b) as [H|H].
  - apply num_lt_Fin. now rewrite <- Zlt_Qlt.
  - apply num_lt_Fin_false. now rewrite <- Zle_Qle.
Qed.

(** ** Strings *)

Lemma digit_class c :
  is_digit c = true ->
  is_space c = false /\ (c =? ".")%char = false /\
  (c =? "+")%char = false /\ (c =? "-")%char = false /\
  (c =? "x")%char = false /\ (c =? "X")%char = false /\
  (c =? "o")%char = false /\ (c =? "O")%char = false /\
  (c =? "b")%char = false /\ (c =? "B")%char = false /\
  (c =? "I")%char = false /\
  exists d, digit_value c = Some d /\ 0 <= d <= 9.
Proof.
  destruct c as [[] [] [] [] [] [] [] []]; intros H; try discriminate H;
    repeat (split; [reflexivity|]); eexists; (split; [reflexivity|]);
    vm_compute; split; discriminate.
Qed.

Lemma span_digits_eq l ds r :
  span_digits l = (ds, r) -> l = (ds ++ r)%list /\ forallb is_digit ds = true.
Proof.
  revert ds r. induction l as [|c l IH]; simpl; intros ds r H.
  - now inversion H.
  - destruct (is_digit c) eqn:Hc.
    + destruct (span_digits l) as [ds' r'] eqn:Hs. inversion H; subst.
      destruct (IH _ _ eq_refl) as [-> Hall]. simpl. now rewrite Hc, Hall.
    + now inversion H.
Qed.

Lemma span_digits_all ds :
  forallb is_digit ds = true -> span_digits ds = (ds, []).
Proof.
  induction ds as [|c ds IH]; simpl; [reflexivity|].
  rewrite andb_true_iff. intros [-> H]. now rewrite IH.
Qed.

Lemma digits_from_digits ds acc :
  forallb is_digit ds = true -> 0 <= acc ->
  exists v, digits_from 10 digit_value acc ds = Some v /\ 0 <= v.
Proof.
  revert acc. induction ds as [|c ds IH]; simpl; intros acc Hall Hacc.
  - eauto.
  - apply andb_true_iff in Hall as [Hc Hall].
    destruct (digit_class c Hc) as (_ & _ & _ & _ & _ & _ & _ & _ & _ & _ & _ & d & -> & Hd).
    apply IH; [assumption | lia].
Qed.

Lemma digits_digits ds :
  ds <> [] -> forallb is_digit ds = true ->
  exists v, digits 10 digit_value ds = Some v /\ 0 <= v.
Proof.
  intros Hne Hall. destruct ds as [|c ds]; [congruence|].
  unfold digits. apply digits_from_digits; [assumption | lia].
Qed.

Lemma ltrim_digit c l : is_digit c = true -> ltrim (c :: l) = c :: l.
Proof.
  intros Hc. simpl. now destruct (digit_class c Hc) as (-> & _).
Qed.

Lemma forallb_last_digit ds :
  ds <> [] -> forallb is_digit ds = true ->
  exists c l, rev ds = c :: l /\ is_digit c = true.
Proof.
  intros Hne Hall. destruct (rev ds) as [|c l] eqn:Hr.
  - apply (f_equal (@rev ascii)) in Hr. rewrite rev_involutive in Hr.
    now subst ds.
  - exists c, l. split; [reflexivity|].
    rewrite forallb_forall in Hall. apply Hall, in_rev.
    rewrite Hr. now left.
Qed.

Lemma trim_digits ds :
  forallb is_digit ds = true -> trim ds = ds.
Proof.
  intros Hall. destruct ds as [|c ds]; [reflexivity|].
  unfold trim. pose proof Hall as Hall'. simpl in Hall'.
  apply andb_true_iff in Hall' as [Hc _].
  rewrite (ltrim_digit c ds Hc).
  destruct (forallb_last_digit (c :: ds)) as (c' & l' & Hr & Hc');
    [discriminate | assumption |].
  rewrite Hr, (ltrim_digit c' l' Hc'), <- Hr. apply rev_involutive.
Qed.

(** [Number] on a string of decimal digits: its value, rounded. *)
Lemma Number_digits ds :
  ds <> [] -> forallb is_digit ds = true ->
  exists v, Spec.component (string_of_list_ascii ds) = Some v /\ 0 <= v /\
            Number (string_of_list_ascii ds) = round_int v.
Proof.
  intros Hne Hall.
  destruct (digits_digits ds Hne Hall) as (v & Hv & Hv0).
  exists v. unfold Spec.component, Number.
  rewrite list_ascii_of_string_of_list_ascii, (trim_digits ds Hall).
  repeat split; try assumption.
  destruct ds as [|c ds]; [congruence|].
  pose proof Hall as Hall'. simpl in Hall'.
  apply andb_true_iff in Hall' as [Hc Hds].
  destruct (digit_class c Hc)
    as (_ & _ & Hplus & Hminus & _ & _ & _ & _ & _ & _ & HI & _).
  assert (Hnd : parse_nondecimal (c :: ds) = None).
  { unfold parse_nondecimal. destruct ds as [|c2 ds2]; [reflexivity|].
    simpl in Hds. apply andb_true_iff in Hds as [Hc2 _].
    destruct (digit_class c2 Hc2)
      as (_ & _ & _ & _ & -> & -> & -> & -> & -> & -> & _).
    now destruct (negb _). }
  rewrite Hnd. unfold strip_sign. rewrite Hplus, Hminus.
  rewrite bool_decide_eq_false_2.
  2:{ intros Heq. unfold Infinity_lit in Heq. simpl in Heq.
      inversion Heq; subst. discriminate HI. }
  unfold parse_decimal. rewrite (span_digits_all _ Hall).
  rewrite app_nil_r. rewrite Hv. simpl parse_exponent. cbv iota beta.
  simpl List.length. unfold round_dec, round_int.
  change (0 - Z.of_nat 0) with 0. change (0 <=? 0) with true.
  change (10 ^ 0) with 1. now rewrite Z.mul_1_r.
Qed.

Lemma split_dot_from_digits ds cur rest :
  forallb is_digit ds = true ->
  split_dot_from cur (ds ++ rest)%list = split_dot_from (rev ds ++ cur)%list rest.
Proof.
  revert cur. induction ds as [|c ds IH]; simpl; intros cur Hall.
  - reflexivity.
  - apply andb_true_iff in Hall as [Hc Hall].
    destruct (digit_class c Hc) as (_ & -> & _).
    rewrite IH by assumption. now rewrite <- app_assoc.
Qed.

Lemma split_dot_three d1 d2 d3 :
  forallb is_digit d1 = true -> forallb is_digit d2 = true ->
  forallb is_digit d3 = true ->
  split_dot (string_of_list_ascii (d1 ++ "."%char :: d2 ++ "."%char :: d3)%list)
  = [string_of_list_ascii d1; string_of_list_ascii d2; string_of_list_ascii d3].
Proof.
  intros H1 H2 H3. unfold split_dot.
  rewrite list_ascii_of_string_of_list_ascii.
  rewrite split_dot_from_digits by assumption. simpl.
  rewrite split_dot_from_digits by assumption. simpl.
  rewrite <- (app_nil_r d3), split_dot_from_digits by assumption. simpl.
  now rewrite !app_nil_r, !rev_involutive.
Qed.

(** The shape of a string the version pattern accepts. *)
Lemma versionPattern_inv s :
  versionPattern s = true ->
  exists d1 d2 d3,
    d1 <> [] /\ d2 <> [] /\ d3 <> [] /\
    forallb is_digit d1 = true /\ forallb is_digit d2 = true /\
    forallb is_digit d3 = true /\
    s = string_of_list_ascii (d1 ++ "."%char :: d2 ++ "."%char :: d3)%list.
Proof.
  unfold versionPattern, digits1, expect_dot. intros H.
  destruct (span_digits (list_ascii_of_string s)) as [d1 r1] eqn:E1.
  destruct d1 as [|c1 d1]; [discriminate|].
  destruct r1 as [|x1 r2]; [discriminate|].
  destruct (Ascii.eqb_spec x1 "."); [subst x1 | discriminate].
  destruct (span_digits r2) as [d2 r3] eqn:E2.
  destruct d2 as [|c2 d2]; [discriminate|].
  destruct r3 as [|x2 r4]; [discriminate|].
  destruct (Ascii.eqb_spec x2 "."); [subst x2 | discriminate].
  destruct (span_digits r4) as [d3 r5] eqn:E3.
  destruct d3 as [|c3 d3]; [discriminate|].
  destruct r5; [|discriminate].
  apply span_digits_eq in E1 as [E1 A1].
  apply span_digits_eq in E2 as [E2 A2].
  apply span_digits_eq in E3 as [E3 A3].
  exists (c1 :: d1), (c2 :: d2), (c3 :: d3).
  repeat split; try discriminate; try assumption.
  rewrite <- (string_of_list_ascii_of_string s), E1, E2, E3.
  now rewrite app_nil_r.
Qed.

(** A valid version string has exactly three parts, each a number that
    is the rounding of the integer it spells. *)
Lemma valid_parts s :
  versionPattern s = true ->
  exists a b c,
    0 <= a /\ 0 <= b /\ 0 <= c /\
    Spec.components s = Some (a, b, c) /\
    map Number (split_dot s) = [round_int a; round_int b; round_int c].
Proof.
  intros H.
  destruct (versionPattern_inv s H)
    as (d1 & d2 & d3 & N1 & N2 & N3 & A1 & A2 & A3 & ->).
  destruct (Number_digits d1 N1 A1) as (a & Ca & Ha & Na).
  destruct (Number_digits d2 N2 A2) as (b & Cb & Hb & Nb).
  destruct (Number_digits d3 N3 A3) as (c & Cc & Hc & Nc).
  exists a, b, c. unfold Spec.components.
  rewrite split_dot_three by assumption. simpl.
  now rewrite Ca, Cb, Cc, Na, Nb, Nc.
Qed.

(** ** The version comparator *)

Lemma compare_from_range p1 p2 i n :
  compare_from p1 p2 i n = -1 \/ compare_from p1 p2 i n = 0 \/
  compare_from p1 p2 i n = 1.
Proof.
  revert i. induction n as [|n IH]; simpl; intros i; [auto|].
  destruct (num_gt _ _); [auto|]. destruct (num_lt _ _); auto.
Qed.

Lemma compare_from_antisym p1 p2 i n :
  compare_from p1 p2 i n = - compare_from p2 p1 i n.
Proof.
  revert i. induction n as [|n IH]; simpl; intros i; [reflexivity|].
  unfold num_gt.
  destruct (num_lt (part p2 i) (part p1 i)) eqn:H21.
  - now rewrite (num_lt_asym _ _ H21).
  - destruct (num_lt (part p1 i) (part p2 i)); [reflexivity | apply IH].
Qed.

Lemma compare_from_zero p1 p2 i n :
  compare_from p1 p2 i n = 0 <->
  forall j, (i <= j < i + n)%nat ->
    num_gt (part p1 j) (part p2 j) = false /\
    num_lt (part p1 j) (part p2 j) = false.
Proof.
  revert i. induction n as [|n IH]; simpl; intros i.
  - split; [intros _ j Hj; lia | reflexivity].
  - destruct (num_gt (part p1 i) (part p2 i)) eqn:Hgt.
    { split; [discriminate|]. intros H.
      destruct (H i) as [H1 _]; [lia | congruence]. }
    destruct (num_lt (part p1 i) (part p2 i)) eqn:Hlt.
    { split; [discriminate|]. intros H.
      destruct (H i) as [_ H2]; [lia | congruence]. }
    rewrite IH. split; intros H j Hj.
    + destruct (Nat.eq_dec j i) as [->|Hne]; [auto | apply H; lia].
    + apply H; lia.
Qed.

Lemma compare_from_trans p1 p2 p3 i n :
  (forall j, (j < i + n)%nat -> is_NaN (part p1 j) = false) ->
  (forall j, (j < i + n)%nat -> is_NaN (part p2 j) = false) ->
  (forall j, (j < i + n)%nat -> is_NaN (part p3 j) = false) ->
  compare_from p1 p2 i n = 1 -> compare_from p2 p3 i n = 1 ->
  compare_from p1 p3 i n = 1.
Proof.
  revert i. induction n as [|n IH]; simpl; intros i N1 N2 N3; [discriminate|].
  assert (Hx : is_NaN (part p1 i) = false) by (apply N1; lia).
  assert (Hy : is_NaN (part p2 i) = false) by (apply N2; lia).
  assert (Hz : is_NaN (part p3 i) = false) by (apply N3; lia).
  assert (IH' := IH (S i)).
  unfold num_gt.
  destruct (num_lt (part p2 i) (part p1 i)) eqn:Hyx;
    destruct (num_lt (part p3 i) (part p2 i)) eqn:Hzy.
  - intros _ _. now rewrite (num_lt_trans _ _ _ Hzy Hyx).
  - intros _. destruct (num_lt (part p2 i) (part p3 i)) eqn:Hyz; [discriminate|].
    intros _. now rewrite (num_le_lt_trans _ _ _ Hz Hyz Hyx).
  - destruct (num_lt (part p1 i) (part p2 i)) eqn:Hxy; [discriminate|].
    intros _ _. now rewrite (num_lt_le_trans _ _ _ Hx Hzy Hxy).
  - destruct (num_lt (part p1 i) (part p2 i)) eqn:Hxy; [discriminate|].
    destruct (num_lt (part p2 i) (part p3 i)) eqn:Hyz; [discriminate|].
    rewrite (num_le_trans _ _ _ Hx Hy Hz Hyx Hzy).
    rewrite (num_le_trans _ _ _ Hz Hy Hx Hyz Hxy).
    apply IH'; intros j Hj; [apply N1 | apply N2 | apply N3]; lia.
Qed.

Lemma part_three_not_NaN a b c j :
  (j < 0 + 3)%nat -> is_NaN (part [round_int a; round_int b; round_int c] j) = false.
Proof.
  intros Hj. destruct j as [|[|[|j]]]; try lia; apply round_int_not_NaN.
Qed.

Lemma part_missing (p : list jsnum) i : (List.length p <= i)%nat -> part p i = NaN.
Proof. intros H. unfold part. now apply nth_overflow. Qed.

Lemma compare_int_cases a b :
  num_gt (Fin (inject_Z a)) (Fin (inject_Z b)) = (b <? a) /\
  num_lt (Fin (inject_Z a)) (Fin (inject_Z b)) = (a <? b).
Proof. unfold num_gt. now rewrite !num_lt_inject. Qed.

(** Below [2^53] the comparator is the integer comparison of the
    specification. *)
Lemma compareVersions_small a b :
  versionPattern a = true -> versionPattern b = true ->
  exists x y,
    Spec.components a = Some x /\ Spec.components b = Some y /\
    (Spec.small x -> Spec.small y ->
     compareVersions a b = Spec.compare3 x y /\
     (compareVersions a b = 0 <-> x = y)).
Proof.
  intros Ha Hb.
  destruct (valid_parts a Ha) as (a1 & a2 & a3 & A1 & A2 & A3 & Ca & Pa).
  destruct (valid_parts b Hb) as (b1 & b2 & b3 & B1 & B2 & B3 & Cb & Pb).
  exists (a1, a2, a3), (b1, b2, b3).
  split; [assumption | split; [assumption|]].
  intros (Sa1 & Sa2 & Sa3) (Sb1 & Sb2 & Sb3).
  unfold compareVersions. rewrite Pa, Pb.
  rewrite !round_int_exact by lia.
  cbv [compare_from part nth].
  destruct (compare_int_cases a1 b1) as [-> ->].
  destruct (compare_int_cases a2 b2) as [-> ->].
  destruct (compare_int_cases a3 b3) as [-> ->].
  unfold Spec.compare3, Spec.compare_int.
  destruct (Z.eqb_spec a1 b1), (Z.eqb_spec a2 b2);
    destruct (Z.ltb_spec b1 a1), (Z.ltb_spec a1 b1),
             (Z.ltb_spec b2 a2), (Z.ltb_spec a2 b2),
             (Z.ltb_spec b3 a3), (Z.ltb_spec a3 b3);
    simpl; try lia;
    (split; [reflexivity|]);
    (split; [try discriminate; intros _; f_equal; try f_equal; lia
            | try (intros [= ? ? ?]; lia); reflexivity]).
Qed.

(** C7. The comparator turns each component into a JavaScript number
    before comparing: two valid version strings whose first components,
    [2^53 + 1] and [2^53], differ as integers compare as equal, where the
    integer comparison of the specification answers "greater". *)
Theorem compareVersions_rounds_components :
  let a := "9007199254740993.0.0" in
  let b := "9007199254740992.0.0" in
  versionPattern a = true /\ versionPattern b = true /\
  Spec.components a = Some (2 ^ 53 + 1, 0, 0) /\
  Spec.components b = Some (2 ^ 53, 0, 0) /\
  Spec.compare3 (2 ^ 53 + 1, 0, 0) (2 ^ 53, 0, 0) = 1 /\
  compareVersions a b = 0.
Proof. vm_compute. repeat split; reflexivity. Qed.

(** C8. The order is not total: the same two valid versions, whose
    first components [2^53 + 1] and [2^53] differ, compare as equal in
    both directions, so neither is greater than the other. *)
Theorem compareVersions_not_total :
  let a := "9007199254740993.0.0" in
  let b := "9007199254740992.0.0" in
  versionPattern a = true /\ versionPattern b = true /\
  Spec.components a = Some (2 ^ 53 + 1, 0, 0) /\
  Spec.components b = Some (2 ^ 53, 0, 0) /\
  (2 ^ 53 + 1, 0, 0) <> (2 ^ 53, 0, 0) /\
  compareVersions a b = 0 /\ compareVersions b a = 0.
Proof. vm_compute. repeat split; try reflexivity. discriminate. Qed.

(** What does hold of the order, on all valid version strings:
    exchanging the arguments negates the result, a version compares equal
    to itself, and "greater" is transitive.  (Below [2^53] two versions
    compare as equal only when their components are equal,
    [compareVersions_small].) *)
Theorem compareVersions_strict_order a b c :
  versionPattern a = true -> versionPattern b = true ->
  versionPattern c = true ->
  compareVersions a b = - compareVersions b a /\
  compareVersions a a = 0 /\
  (compareVersions a b > 0 -> compareVersions b c > 0 ->
   compareVersions a c > 0).
Proof.
  intros Ha Hb Hc.
  destruct (valid_parts a Ha) as (a1 & a2 & a3 & _ & _ & _ & _ & Pa).
  destruct (valid_parts b Hb) as (b1 & b2 & b3 & _ & _ & _ & _ & Pb).
  destruct (valid_parts c Hc) as (c1 & c2 & c3 & _ & _ & _ & _ & Pc).
  unfold compareVersions. rewrite Pa, Pb, Pc. split; [|split].
  - apply compare_from_antisym.
  - apply compare_from_zero. intros j _. unfold num_gt.
    now rewrite num_lt_irrefl.
  - intros Hab Hbc.
    assert (Hab1 : compare_from [round_int a1; round_int a2; round_int a3]
                     [round_int b1; round_int b2; round_int b3] 0 3 = 1).
    { match goal with |- _ => idtac end.
      destruct (compare_from_range [round_int a1; round_int a2; round_int a3]
                  [round_int b1; round_int b2; round_int b3] 0 3)
        as [E|[E|E]]; rewrite E in Hab; try assumption; lia. }
    assert (Hbc1 : compare_from [round_int b1; round_int b2; round_int b3]
                     [round_int c1; round_int c2; round_int c3] 0 3 = 1).
    { destruct (compare_from_range [round_int b1; round_int b2; round_int b3]
                  [round_int c1; round_int c2; round_int c3] 0 3)
        as [E|[E|E]]; rewrite E in Hbc; try assumption; lia. }
    rewrite (compare_from_trans _ _ _ 0 3 (part_three_not_NaN a1 a2 a3)
               (part_three_not_NaN b1 b2 b3) (part_three_not_NaN c1 c2 c3)
               Hab1 Hbc1).
    lia.
Qed.

Lemma compareVersions_strict_order_witness :
  compareVersions "2.0.0" "1.5.0" = - compareVersions "1.5.0" "2.0.0" /\
  compareVersions "2.0.0" "2.0.0" = 0 /\
  compareVersions "2.0.0" "1.0.0" > 0.
Proof.
  destruct (compareVersions_strict_order "2.0.0" "1.5.0" "1.0.0"
              eq_refl eq_refl eq_refl) as (H1 & H2 & H3).
  split; [exact H1 | split; [exact H2 |]].
  apply H3; vm_compute; reflexivity.
Defined.

(** C9. The comparator is total on strings: it never throws and answers
    -1, 0 or 1.  A component that is missing or not a number is neither
    greater nor less than the one it faces, so its position decides
    nothing and the other positions decide; the answer is 0 exactly when
    no position decides. *)
Theorem compareVersions_total_lenient v1 v2 :
  let p1 := map Number (split_dot v1) in
  let p2 := map Number (split_dot v2) in
  call_compareVersions (Some (JStr v1)) (Some (JStr v2))
    = Ok (compareVersions v1 v2) /\
  (compareVersions v1 v2 = -1 \/ compareVersions v1 v2 = 0 \/
   compareVersions v1 v2 = 1) /\
  (forall i, (List.length p1 <= i)%nat -> part p1 i = NaN) /\
  (forall i, (List.length p2 <= i)%nat -> part p2 i = NaN) /\
  (forall i, part p1 i = NaN \/ part p2 i = NaN ->
     num_gt (part p1 i) (part p2 i) = false /\
     num_lt (part p1 i) (part p2 i) = false) /\
  (compareVersions v1 v2 = 0 <->
   forall i, (i < 3)%nat ->
     num_gt (part p1 i) (part p2 i) = false /\
     num_lt (part p1 i) (part p2 i) = false).
Proof.
  intros p1 p2.
  split; [reflexivity|]. split; [apply compare_from_range|].
  split; [apply part_missing|]. split; [apply part_missing|]. split.
  - intros i [E | E]; rewrite E; unfold num_gt; split;
      first [apply num_lt_NaN_r | apply num_lt_NaN_l].
  - unfold compareVersions. fold p1 p2. rewrite compare_from_zero.
    split; intros H i Hi; apply H; lia.
Qed.

(** A pair with a missing component and a non-numeric component that
    compares equal, as the claim says ... *)
Example compareVersions_lenient_equal :
  compareVersions "1.0" "1.0.0" = 0 /\ Number "x" = NaN /\
  compareVersions "1.x.0" "1.7.0" = 0.
Proof. vm_compute. repeat split; reflexivity. Qed.

(** ... and one that does not: ["2.0"] has two parts only, and is
    greater than ["1.0.0"]. *)
Lemma compareVersions_lenient_not_equal :
  (List.length (split_dot "2.0") < 3)%nat /\
  compareVersions "2.0" "1.0.0" <> 0.
Proof. split; [vm_compute; lia | vm_compute; discriminate]. Qed.

(** ** The validator *)

Lemma get_field m k : m <> JNull -> get (Some m) k = Ok (Spec.field m k).
Proof. destruct m; simpl; congruence. Qed.

Lemma check_required_find m fields :
  m <> JNull ->
  check_required m fields =
  match find (fun f => negb (Spec.present m f)) fields with
  | Some f => Throw (Error ("Missing required field: " ++ f))
  | None => Ok tt
  end.
Proof.
  intros Hm. induction fields as [|f fields IH]; [reflexivity|].
  cbn [check_required find]. rewrite (get_field m f Hm). cbn [rbind].
  unfold Spec.present.
  destruct (negb (truthy (Spec.field m f))); [reflexivity | apply IH].
Qed.

Lemma stage_incomplete_complete stage :
  stage <> JNull ->
  stage_incomplete stage = Ok (negb (Spec.stage_complete stage)).
Proof.
  intros Hs. unfold stage_incomplete, Spec.stage_complete, Spec.present.
  rewrite !(get_field stage) by assumption. cbn [rbind].
  destruct (truthy (Spec.field stage "name")); [|reflexivity].
  destruct (truthy (Spec.field stage "description")); reflexivity.
Qed.

Lemma check_stages_forallb stages :
  Forall (fun st => st <> JNull) stages ->
  check_stages stages =
  if forallb Spec.stage_complete stages then Ok tt
  else Throw (Error "Each stage must have name, description, and guidance").
Proof.
  induction 1 as [|st stages Hst _ IH]; [reflexivity|].
  cbn [check_stages forallb].
  rewrite (stage_incomplete_complete st Hst). cbn [rbind].
  destruct (Spec.stage_complete st); [apply IH | reflexivity].
Qed.

Lemma truthy_get a k : truthy (Some a) = true -> get (Some a) k = Ok (Spec.field a k).
Proof. intros H. apply get_field. intros ->. discriminate H. Qed.

(** On a candidate that is not [null], has no [null] stage, and whose
    version is not an array or an object, the validator is the verdict of
    the specification: it passes when the five rules hold and otherwise
    throws the error of the first rule that fails. *)
Lemma validateMethodology_verdict m :
  m <> JNull ->
  Forall (fun st => st <> JNull) (Spec.stages_of m) ->
  Spec.plain_version m ->
  validateMethodology m = Spec.verdict m.
Proof.
  intros Hm Hst Hv. unfold Spec.plain_version in Hv.
  unfold validateMethodology, Spec.verdict, Spec.first_failing_rule.
  rewrite (check_required_find m required Hm).
  destruct (find (fun f => negb (Spec.present m f)) required) as [f|] eqn:Hfind;
    [reflexivity|].
  assert (Hp : forall f, In f required -> Spec.present m f = true).
  { intros f Hf. apply (find_none _ _ Hfind) in Hf.
    now apply negb_false_iff in Hf. }
  cbn [rbind]. rewrite (get_field m "stages" Hm). cbn [rbind].
  unfold Spec.stages_of in Hst.
  destruct (Spec.field m "stages") as [[| | | |[|stage rest]|]|]; try reflexivity.
  rewrite (check_stages_forallb _ Hst).
  destruct (forallb Spec.stage_complete (stage :: rest)); [|reflexivity].
  cbn [rbind negb]. rewrite (get_field m "author" Hm). cbn [rbind].
  assert (Ha : Spec.present m "author" = true) by (apply Hp; simpl; tauto).
  unfold Spec.author_ok, Spec.version_ok, Spec.present in *.
  destruct (Spec.field m "author") as [a|]; [|discriminate Ha].
  rewrite (truthy_get a "name" Ha). cbn [rbind].
  destruct (truthy (Spec.field a "name")); cbn [negb andb rbind]; [|reflexivity].
  rewrite (truthy_get a "email" Ha). cbn [rbind].
  destruct (truthy (Spec.field a "email")); cbn [negb andb rbind]; [|reflexivity].
  rewrite (get_field m "version" Hm). cbn [rbind].
  destruct (Spec.field m "version") as [[| | |v|elems|fs]|];
    try reflexivity; try contradiction.
  cbn [versionPattern_test toString_throws versionPattern_test_json rbind].
  now destruct (versionPattern v).
Qed.

(** The four rejections the specification lists. *)
Example validateMethodology_rejections :
  validateMethodology
    (JObj [("id", JStr "m"); ("name", JStr "n"); ("version", JStr "1.0.0");
           ("author", JObj [("name", JStr "a"); ("email", JStr "e")]);
           ("category", JStr "custom"); ("description", JStr "d")])
    = Throw (Error "Missing required field: stages") /\
  validateMethodology
    (Examples.record "m" "1.0.0"
       (JArr [JObj [("name", JStr "s"); ("guidance", JStr "g")]]))
    = Throw (Error "Each stage must have name, description, and guidance") /\
  validateMethodology
    (JObj [("id", JStr "m"); ("name", JStr "n"); ("version", JStr "1.0.0");
           ("author", JObj [("name", JStr "a")]);
           ("category", JStr "custom"); ("description", JStr "d");
           ("stages", JArr [Examples.stage1])])
    = Throw (Error "Author must have name and email") /\
  validateMethodology (Examples.charmaz "1.0")
    = Throw (Error "Version must follow semver format (e.g., 1.0.0)") /\
  validateMethodology (Examples.charmaz "1.0.0") = Ok tt.
Proof. vm_compute. repeat split; reflexivity. Qed.

(** C4. A record whose stage is [null] breaks the third rule (the stage
    has no name), and the specification's verdict names that rule; the
    validator instead fails with the run-time's [TypeError] while reading
    [stage.name], an error that names no rule. *)
Theorem validateMethodology_null_stage :
  Spec.first_failing_rule Examples.null_stage = Some Spec.StageComplete /\
  Spec.verdict Examples.null_stage
    = Throw (Error "Each stage must have name, description, and guidance") /\
  validateMethodology Examples.null_stage
    = Throw (TypeError "Cannot read properties of null (reading 'name')").
Proof. vm_compute. repeat split; reflexivity. Qed.

(** The same slip at the first rule, on the candidate [null]; and the
    coercion of the pattern test, which lets a version that is not a
    string through. *)
Example validateMethodology_other_holes :
  Spec.verdict JNull = Throw (Error "Missing required field: id") /\
  validateMethodology JNull
    = Throw (TypeError "Cannot read properties of null (reading 'id')") /\
  Spec.first_failing_rule Examples.array_version = Some Spec.VersionFormat /\
  validateMethodology Examples.array_version = Ok tt.
Proof. vm_compute. repeat split; reflexivity. Qed.

(** ** The per-file step *)

Lemma validate_Ok_not_null m u : validateMethodology m = Ok u -> m <> JNull.
Proof. intros H ->. discriminate H. Qed.

Lemma stat_inside d k : outside k = false -> stat (Folder d) k = d !! k.
Proof. intros H. cbn [stat]. now rewrite H. Qed.

Lemma stat_outside d k : outside k = true -> stat (Folder d) k = Some Directory.
Proof. intros H. cbn [stat]. now rewrite H. Qed.

(** A file is found under a name that leads into the directory only. *)
Lemma stat_File l k t :
  stat l k = Some (File t) ->
  exists d, l = Folder d /\ outside k = false /\ d !! k = Some (File t).
Proof.
  destruct l as [mk|d]; cbn [stat]; [discriminate|].
  destruct (outside k); [discriminate|]. eauto.
Qed.

Lemma stat_None_Folder d k :
  stat (Folder d) k = None -> outside k = false /\ d !! k = None.
Proof. cbn [stat]. destruct (outside k); [discriminate | auto]. Qed.

Lemma syncMethodologyFile_perform octokit p s :
  syncMethodologyFile octokit p s
  = perform p (decide (octokit p) (stat (disk s) (basename p))) s.
Proof.
  unfold syncMethodologyFile, after_fetch, Sync.bind, getContent.
  destruct (octokit p) as [msg|entries|content|]; try reflexivity.
  destruct content as [m|why]; [|reflexivity].
  cbn [JSON_parse lift decide].
  destruct (validateMethodology m) as [[]|e] eqn:Hval; [|reflexivity].
  assert (Hm := validate_Ok_not_null m _ Hval).
  unfold existsSync. cbn [disk].
  destruct (stat (disk s) (basename p)) as [[t|]|] eqn:Hslot.
  - rewrite bool_decide_eq_true_2 by eauto.
    unfold version_gate, Sync.bind, readFileSync. cbn [disk]. rewrite Hslot.
    unfold gate, lift, rbind.
    destruct (JSON_parse t) as [lm|e]; [|reflexivity].
    destruct (get (Some m) "version") as [v1|e]; [|reflexivity].
    destruct (get (Some lm) "version") as [v2|e]; [|reflexivity].
    destruct (call_compareVersions v1 v2) as [c|e]; [|reflexivity].
    unfold ret. destruct (c <=? 0); [reflexivity|].
    destruct (stat_File _ _ _ Hslot) as (d & Hd & _ & _).
    unfold writeFileSync, push_updated, set_disk.
    cbn [perform disk fetched lastSync added updated errors].
    rewrite Hslot, Hd.
    cbn [disk fetched lastSync added updated errors].
    rewrite (get_field m "id" Hm). reflexivity.
  - rewrite bool_decide_eq_true_2 by eauto.
    unfold version_gate, Sync.bind, readFileSync. cbn [disk]. now rewrite Hslot.
  - rewrite bool_decide_eq_false_2 by (intros [? ?]; discriminate).
    unfold ret, writeFileSync, push_added, set_disk.
    cbn [perform disk fetched lastSync added updated errors].
    rewrite Hslot. destruct (disk s) as [mk|d]; [reflexivity|].
    cbn [disk fetched lastSync added updated errors].
    rewrite (get_field m "id" Hm). reflexivity.
Qed.

Lemma syncEntry_perform octokit file s :
  syncEntry octokit file s =
  if selected file then
    match perform (e_path file)
            (decide (octokit (e_path file)) (stat (disk s) (basename (e_path file)))) s with
    | (Ok u, s') => (Ok u, s')
    | (Throw e, s') => push_error (e_name file ++ ": " ++ message e) s'
    end
  else (Ok tt, s).
Proof.
  unfold syncEntry, selected.
  destruct (_ && _); [|reflexivity].
  unfold try_catch. now rewrite syncMethodologyFile_perform.
Qed.

(** The loop body never throws. *)
Lemma syncEntry_Ok octokit file s : fst (syncEntry octokit file s) = Ok tt.
Proof.
  rewrite syncEntry_perform. destruct (selected file); [|reflexivity].
  destruct (decide _ _) as [|e|m []]; cbn [perform];
    try destruct (disk s); reflexivity.
Qed.

Lemma syncEntries_cons octokit file rest s :
  syncEntries octokit (file :: rest) s
  = syncEntries octokit rest (snd (syncEntry octokit file s)).
Proof.
  cbn [syncEntries]. unfold Sync.bind.
  pose proof (syncEntry_Ok octokit file s) as H.
  destruct (syncEntry octokit file s) as [r s1]. simpl in H. now subst r.
Qed.

Lemma syncEntries_Ok octokit files s : fst (syncEntries octokit files s) = Ok tt.
Proof.
  revert s. induction files as [|file files IH]; intros s; [reflexivity|].
  rewrite syncEntries_cons. apply IH.
Qed.

Lemma syncEntries_app octokit l1 l2 s :
  syncEntries octokit (l1 ++ l2) s
  = syncEntries octokit l2 (snd (syncEntries octokit l1 s)).
Proof.
  revert s. induction l1 as [|file l1 IH]; intros s; [reflexivity|].
  cbn [app]. rewrite !syncEntries_cons. apply IH.
Qed.

Lemma file_failure_decide octokit p msg slot :
  file_failure octokit p msg ->
  exists e, decide (octokit p) slot = Fail e /\ message e = msg.
Proof.
  intros [m H | why H | m e H Hv]; rewrite H; simpl.
  - eauto.
  - eauto.
  - rewrite Hv. eauto.
Qed.

Lemma syncEntry_failed octokit file msg s :
  selected file = true -> file_failure octokit (e_path file) msg ->
  syncEntry octokit file s = (Ok tt, failed file msg s).
Proof.
  intros Hsel Hfail. rewrite syncEntry_perform, Hsel.
  destruct (file_failure_decide _ _ _ (stat (disk s) (basename (e_path file))) Hfail)
    as (e & -> & <-).
  reflexivity.
Qed.

Lemma endsWith_suffix s suffix :
  endsWith s suffix = true <->
  exists prefix, list_ascii_of_string s
                 = (prefix ++ list_ascii_of_string suffix)%list.
Proof.
  unfold endsWith. rewrite andb_true_iff, bool_decide_eq_true, Nat.leb_le.
  set (l := list_ascii_of_string s). set (x := list_ascii_of_string suffix).
  split.
  - intros [H _]. exists (firstn (List.length l - List.length x) l).
    rewrite <- H at 2. symmetry. apply firstn_skipn.
  - intros [prefix ->]. rewrite length_app. split; [|lia].
    replace (List.length prefix + List.length x - List.length x)%nat
      with (List.length prefix) by lia.
    now rewrite skipn_app, skipn_all, Nat.sub_diag.
Qed.

(** Inside the loop the local directory is there: the step that ensures
    it leaves a directory or throws, and no step of the loop takes the
    directory away. *)
Lemma ensure_localDir_spec s :
  ensure_localDir s =
  match disk s with
  | Missing (Some msg) => (Throw (Error msg), s)
  | l => (Ok tt, set_disk (ensured l) s)
  end.
Proof.
  unfold ensure_localDir, Sync.bind, existsSync_localDir, mkdirSync_localDir, ret.
  destruct s as [[[msg|]|d] f l a u e]; reflexivity.
Qed.

Lemma ensure_localDir_folder s u s' :
  ensure_localDir s = (Ok u, s') -> is_folder (disk s') = true.
Proof.
  rewrite ensure_localDir_spec. destruct (disk s) as [[msg|]|d];
    [discriminate | |]; intros [= _ <-]; reflexivity.
Qed.

Ltac entry_cases file :=
  rewrite syncEntry_perform;
  destruct (selected file) eqn:?;
  [ destruct (decide _ _) as [|?e|?m []] eqn:?; cbn [perform];
    [ | | destruct (disk _) as [?mk|?d] eqn:?
          | destruct (disk _) as [?mk|?d] eqn:? ] | ];
  cbn [push_error fst snd disk fetched lastSync added updated errors].

Lemma syncEntry_folder octokit file s :
  is_folder (disk (snd (syncEntry octokit file s))) = is_folder (disk s).
Proof. entry_cases file; try reflexivity; now rewrite ?Heql. Qed.

Lemma syncEntries_folder octokit files s :
  is_folder (disk (snd (syncEntries octokit files s))) = is_folder (disk s).
Proof.
  revert s. induction files as [|file files IH]; intros s; [reflexivity|].
  now rewrite syncEntries_cons, IH, syncEntry_folder.
Qed.

(** ** Claims about one file of a run *)

(** C1. The update is gated by the version, per local file: for a
    selected file whose content is a valid record, inside the loop of a
    run (the local directory is there), with [k] the base name of its
    path.  If [k] leads into the directory and there is nothing of that
    name, the record is written there and its id goes to [added].  If
    there is a file, with a record whose version and the candidate's are
    strings: when the candidate's version is not greater, nothing changes
    but the trace of requests (directory, [added], [updated] and [errors]
    are as before); when it is greater, the file becomes the candidate
    alone, whatever the old record was, and the id goes to [updated].  If
    there is a directory of that name, or [k] is empty, ["."] or [".."]
    and so leads to a directory, nothing is written and the failure of
    the read is recorded in [errors]. *)
Theorem version_gated_update octokit file m s d :
  selected file = true ->
  octokit (e_path file) = RFile (Json m) ->
  validateMethodology m = Ok tt ->
  disk s = Folder d ->
  let k := basename (e_path file) in
  let asked := (fetched s ++ [e_path file])%list in
  let written := Folder (<[k := File (JSON_stringify m)]> d) in
  (outside k = false -> d !! k = None ->
   syncEntry octokit file s =
   (Ok tt, mkState written asked (lastSync s)
                   (added s ++ [Spec.field m "id"]) (updated s) (errors s)))
  /\
  (forall lm v1 v2,
     outside k = false -> d !! k = Some (File (Json lm)) ->
     Spec.field m "version" = Some (JStr v1) ->
     Spec.field lm "version" = Some (JStr v2) ->
     (compareVersions v1 v2 <= 0 ->
      syncEntry octokit file s =
      (Ok tt, mkState (Folder d) asked (lastSync s)
                      (added s) (updated s) (errors s)))
     /\
     (compareVersions v1 v2 > 0 ->
      syncEntry octokit file s =
      (Ok tt, mkState written asked (lastSync s)
                      (added s) (updated s ++ [Spec.field m "id"]) (errors s))))
  /\
  (outside k = true \/ d !! k = Some Directory ->
   syncEntry octokit file s =
   (Ok tt, mkState (Folder d) asked (lastSync s) (added s) (updated s)
                   (errors s ++ [e_name file ++
                      ": EISDIR: illegal operation on a directory, read"]))).
Proof.
  intros Hsel Hfile Hval Hdisk k asked written.
  assert (Hm := validate_Ok_not_null m _ Hval).
  split; [|split].
  - intros Hin Hslot. rewrite syncEntry_perform, Hsel, Hfile, Hdisk. fold k.
    rewrite (stat_inside d k Hin), Hslot. cbn [decide JSON_parse].
    rewrite Hval. cbn [perform]. now rewrite Hdisk.
  - intros lm v1 v2 Hin Hslot Hv1 Hv2.
    assert (Hlm : lm <> JNull) by (intros ->; discriminate Hv2).
    assert (Hgate : gate m (Json lm) = Ok (compareVersions v1 v2 <=? 0)).
    { unfold gate. cbn [JSON_parse rbind].
      rewrite (get_field m "version" Hm), (get_field lm "version" Hlm).
      cbn [rbind]. now rewrite Hv1, Hv2. }
    split; intros Hcmp; rewrite syncEntry_perform, Hsel, Hfile, Hdisk; fold k;
      rewrite (stat_inside d k Hin), Hslot; cbn [decide JSON_parse];
      rewrite Hval, Hgate.
    + replace (compareVersions v1 v2 <=? 0) with true
        by (symmetry; apply Z.leb_le; lia).
      cbn [perform]. now rewrite Hdisk.
    + replace (compareVersions v1 v2 <=? 0) with false
        by (symmetry; apply Z.leb_gt; lia).
      cbn [perform]. now rewrite Hdisk.
  - intros Hdir.
    assert (Hslot : stat (Folder d) k = Some Directory).
    { destruct (outside k) eqn:Hout.
      - now apply stat_outside.
      - rewrite (stat_inside d k Hout). now destruct Hdir. }
    rewrite syncEntry_perform, Hsel, Hfile, Hdisk. fold k. rewrite Hslot.
    cbn [decide JSON_parse]. rewrite Hval.
    cbn [perform push_error message disk fetched lastSync added updated errors].
    now rewrite Hdisk.
Qed.

Lemma version_gated_update_witness :
  syncEntry (Examples.repo "1.1.0") Examples.gt_charmaz (Examples.synced "1.0.0")
  = (Ok tt,
     mkState (Folder (<["gt-charmaz.json" := File (Json (Examples.charmaz "1.1.0"))]>
                        (dir (Examples.synced "1.0.0"))))
             ["methodologies/gt-charmaz.json"] None
             [] [Some (JStr "gt-charmaz")] []) /\
  syncEntry (Examples.repo "1.1.0") Examples.gt_charmaz Samples.obstructed
  = (Ok tt,
     mkState (disk Samples.obstructed)
             ["methodologies/gt-charmaz.json"] None [] []
             ["gt-charmaz.json: EISDIR: illegal operation on a directory, read"]).
Proof.
  split.
  - refine (proj2 (proj1 (proj2 (version_gated_update (Examples.repo "1.1.0")
              Examples.gt_charmaz (Examples.charmaz "1.1.0")
              (Examples.synced "1.0.0") _ eq_refl eq_refl eq_refl eq_refl))
              (Examples.charmaz "1.0.0") "1.1.0" "1.0.0" eq_refl _ eq_refl eq_refl) _).
    + reflexivity.
    + vm_compute. reflexivity.
  - refine (proj2 (proj2 (version_gated_update (Examples.repo "1.1.0")
              Examples.gt_charmaz (Examples.charmaz "1.1.0")
              Samples.obstructed _ eq_refl eq_refl eq_refl eq_refl)) _).
    right. reflexivity.
Defined.

(** The claim as first stated, keyed by id, fails: the directory holds the
    record with the same id at version 2.0.0 under another file name; the
    candidate at version 1.0.0, which is not greater, is written and
    reported as added. *)
Lemma sync_is_keyed_by_file_name :
  Spec.field (Examples.charmaz "2.0.0") "id"
    = Spec.field (Examples.charmaz "1.0.0") "id" /\
  w_dir Examples.legacy_world !! "legacy.json"
    = Some (File (Json (Examples.charmaz "2.0.0"))) /\
  compareVersions "1.0.0" "2.0.0" = -1 /\
  fst (syncFromGitHub (Examples.repo "1.0.0") 0 Examples.legacy_world)
    = Ok (mkOutcome [Some (JStr "gt-charmaz")] []
                    ["broken.json: Invalid JSON format"]) /\
  w_dir (snd (syncFromGitHub (Examples.repo "1.0.0") 0 Examples.legacy_world))
    !! "gt-charmaz.json" = Some (File (Json (Examples.charmaz "1.0.0"))).
Proof. repeat split; vm_compute; reflexivity. Qed.

(** A base name that leads out of the directory: an entry whose path ends
    in [..] is taken for an update of the directory above, and fails. *)
Example base_name_outside :
  let up := mkEntry "file" "up.json" "methodologies/.." in
  let octokit : remote := fun _ => RFile (Json (Examples.charmaz "1.0.0")) in
  key up = ".." /\ outside (key up) = true /\
  syncEntry octokit up (Examples.fresh Examples.empty_world)
  = (Ok tt,
     mkState (Folder ∅) ["methodologies"; "methodologies/.."] None [] []
             ["up.json: EISDIR: illegal operation on a directory, read"]).
Proof. repeat split; vm_compute; reflexivity. Qed.

(** C6. A file that fails (at the fetch, at the parse, or at the
    validation) leaves one entry in [errors] and nothing else but the
    request in the trace; the loop goes on with the files after it, from
    that state, and never throws. *)
Theorem per_file_failure_does_not_abort octokit pre file post msg s :
  selected file = true ->
  file_failure octokit (e_path file) msg ->
  syncEntries octokit (pre ++ file :: post) s
  = syncEntries octokit post
      (failed file msg (snd (syncEntries octokit pre s)))
  /\ fst (syncEntries octokit (pre ++ file :: post) s) = Ok tt
  /\ (forall files s0, fst (syncEntries octokit files s0) = Ok tt).
Proof.
  intros Hsel Hfail.
  split; [|split; [apply syncEntries_Ok | intros; apply syncEntries_Ok]].
  rewrite syncEntries_app, syncEntries_cons.
  now rewrite (syncEntry_failed octokit file msg _ Hsel Hfail).
Qed.

Lemma per_file_failure_does_not_abort_witness :
  syncEntries (Examples.repo "1.0.0") Examples.files
    (Examples.fresh Examples.empty_world)
  = syncEntries (Examples.repo "1.0.0")
      [Examples.drafts; Examples.readme; Examples.gt_charmaz]
      (failed Examples.broken "Invalid JSON format"
         (Examples.fresh Examples.empty_world))
  /\ fst (syncEntries (Examples.repo "1.0.0") Examples.files
            (Examples.fresh Examples.empty_world)) = Ok tt
  /\ (forall files s0, fst (syncEntries (Examples.repo "1.0.0") files s0) = Ok tt).
Proof.
  apply (per_file_failure_does_not_abort (Examples.repo "1.0.0") []
           Examples.broken
           [Examples.drafts; Examples.readme; Examples.gt_charmaz]
           "Invalid JSON format" (Examples.fresh Examples.empty_world)).
  - reflexivity.
  - apply (parse_failure _ _ "Unexpected token < in JSON at position 0").
    reflexivity.
Defined.

(** The same for any exception of the per-file step, whatever its
    cause (also a local file that does not parse, a directory in the
    place of the file, or a version that is not a string). *)
Lemma any_throw_is_recorded octokit file e s s' :
  selected file = true ->
  syncMethodologyFile octokit (e_path file) s = (Throw e, s') ->
  syncEntry octokit file s = (Ok tt, failed file (message e) s).
Proof.
  intros Hsel. rewrite syncEntry_perform, Hsel, syncMethodologyFile_perform.
  destruct (decide _ _) as [|e0|m []]; cbn [perform];
    try destruct (disk s) eqn:Hd; intros [= -> <-];
    unfold failed; rewrite ?Hd; reflexivity.
Qed.

(** The file after the failing one is persisted by the same run. *)
Example failure_then_success :
  let s := snd (syncEntries (Examples.repo "1.0.0") Examples.files
                  (Examples.fresh Examples.empty_world)) in
  errors s = ["broken.json: Invalid JSON format"] /\
  added s = [Some (JStr "gt-charmaz")] /\
  dir s !! "gt-charmaz.json" = Some (File (Json (Examples.charmaz "1.0.0"))).
Proof. repeat split; vm_compute; reflexivity. Qed.

(** ** Claims about the loop and the run *)

Lemma syncEntry_fetched octokit file s :
  fetched (snd (syncEntry octokit file s))
  = (fetched s ++ (if selected file then [e_path file] else []))%list.
Proof. entry_cases file; try reflexivity. now rewrite app_nil_r. Qed.

Lemma syncEntries_fetched octokit files s :
  fetched (snd (syncEntries octokit files s))
  = (fetched s ++ map e_path (List.filter selected files))%list.
Proof.
  revert s. induction files as [|file files IH]; intros s.
  - simpl. now rewrite app_nil_r.
  - rewrite syncEntries_cons, IH, syncEntry_fetched. cbn [List.filter].
    destruct (selected file); cbn [map]; symmetry;
      [apply (app_assoc (fetched s) [e_path file]) | apply (app_assoc (fetched s) [])].
Qed.

Lemma syncEntry_lastSync octokit file s :
  lastSync (snd (syncEntry octokit file s)) = lastSync s.
Proof. entry_cases file; reflexivity. Qed.

Lemma syncEntries_lastSync octokit files s :
  lastSync (snd (syncEntries octokit files s)) = lastSync s.
Proof.
  revert s. induction files as [|file files IH]; intros s; [reflexivity|].
  now rewrite syncEntries_cons, IH, syncEntry_lastSync.
Qed.

Lemma syncEntry_errors_kept octokit file s x :
  In x (errors s) -> In x (errors (snd (syncEntry octokit file s))).
Proof.
  intros H. entry_cases file; try assumption; apply in_or_app; now left.
Qed.

Lemma syncEntries_errors_kept octokit files s x :
  In x (errors s) -> In x (errors (snd (syncEntries octokit files s))).
Proof.
  revert s. induction files as [|file files IH]; intros s H; [assumption|].
  rewrite syncEntries_cons. now apply IH, syncEntry_errors_kept.
Qed.

Lemma syncEntries_failure_reported octokit files file msg s :
  In file files -> selected file = true ->
  file_failure octokit (e_path file) msg ->
  In (e_name file ++ ": " ++ msg) (errors (snd (syncEntries octokit files s))).
Proof.
  revert s. induction files as [|f files IH]; intros s Hin Hsel Hfail;
    [destruct Hin|].
  rewrite syncEntries_cons. destruct Hin as [-> | Hin].
  - rewrite (syncEntry_failed octokit file msg s Hsel Hfail).
    apply syncEntries_errors_kept. cbn [snd failed errors].
    apply in_or_app. right. now left.
  - now apply IH.
Qed.

(** The run, once the listing is known to be a directory: it is rejected
    when the local directory can not be created, and goes through the
    loop otherwise. *)
Lemma syncFromGitHub_directory octokit now w files :
  octokit "methodologies" = RDir files ->
  syncFromGitHub octokit now w =
  match w_disk w with
  | Missing (Some msg) =>
      (Throw (Error ("Failed to sync from GitHub: " ++ msg)),
       request "methodologies" w)
  | _ =>
      let s := snd (syncEntries octokit files (in_loop w)) in
      (Ok (mkOutcome (added s) (updated s) (errors s)),
       mkWorld (disk s) (fetched s) (Some now))
  end.
Proof.
  intros Hdir.
  unfold syncFromGitHub, syncFromGitHub_body, try_catch, getContent.
  unfold Sync.bind at 1. rewrite Hdir.
  cbn [after_listing enter disk fetched lastSync added updated errors].
  unfold Sync.bind at 1. rewrite ensure_localDir_spec.
  cbn [disk]. unfold in_loop.
  assert (Hloop : forall s0,
            (let (r, s) :=
               match (syncEntries octokit files ;; set_lastSync now ;; get_outcome)%sync s0 with
               | (Ok a, s') => (Ok a, s')
               | (Throw e, s') => rethrow e s'
               end in (r, leave s))
            = (let s := snd (syncEntries octokit files s0) in
               (Ok (mkOutcome (added s) (updated s) (errors s)),
                mkWorld (disk s) (fetched s) (Some now)))).
  { intros s0. unfold Sync.bind.
    pose proof (syncEntries_Ok octokit files s0) as Hok.
    destruct (syncEntries octokit files s0) as [r s]. simpl in Hok. subst r.
    reflexivity. }
  destruct w as [[[msg|]|d] f ls]; [reflexivity | apply Hloop | apply Hloop].
Qed.

(** C10. An entry that is not a file named [*.json] is passed over: the
    state, trace of requests included, is untouched.  Over a whole
    listing, the requests made are exactly the paths of the selected
    entries, in order. *)
Theorem only_json_files_are_fetched octokit files file s :
  selected file = (String.eqb (e_type file) "file"
                   && endsWith (e_name file) ".json") /\
  (selected file = false -> syncEntry octokit file s = (Ok tt, s)) /\
  fetched (snd (syncEntries octokit files s))
  = (fetched s ++ map e_path (List.filter selected files))%list.
Proof.
  split; [reflexivity|]. split; [|apply syncEntries_fetched].
  intros Hsel. now rewrite syncEntry_perform, Hsel.
Qed.

Lemma only_json_files_are_fetched_witness :
  syncEntry (Examples.repo "1.0.0") Examples.drafts
    (Examples.fresh Examples.empty_world)
  = (Ok tt, Examples.fresh Examples.empty_world) /\
  syncEntry (Examples.repo "1.0.0") Examples.readme
    (Examples.fresh Examples.empty_world)
  = (Ok tt, Examples.fresh Examples.empty_world).
Proof.
  split.
  - apply (only_json_files_are_fetched (Examples.repo "1.0.0") []
             Examples.drafts (Examples.fresh Examples.empty_world)).
    reflexivity.
  - apply (only_json_files_are_fetched (Examples.repo "1.0.0") []
             Examples.readme (Examples.fresh Examples.empty_world)).
    reflexivity.
Defined.

(** C2. When the listing request answers with a directory and the local
    directory is there or can be created, the run resolves with its three
    lists and sets [lastSync], and every selected file that failed has
    its entry in [errors].  The run is rejected, the error being thrown
    again to the caller, when the listing request itself fails, when it
    answers with something that is not a directory, and when the local
    directory is missing and creating it fails; then nothing changes but
    the trace of requests: neither the local directory nor [lastSync]. *)
Theorem syncFromGitHub_outcome octokit now w :
  match octokit "methodologies" with
  | RDir files =>
      match w_disk w with
      | Missing (Some msg) =>
          syncFromGitHub octokit now w =
          (Throw (Error ("Failed to sync from GitHub: " ++ msg)),
           request "methodologies" w)
      | _ =>
          exists out w',
            syncFromGitHub octokit now w = (Ok out, w') /\
            w_lastSync w' = Some now /\
            forall file msg,
              In file files -> selected file = true ->
              file_failure octokit (e_path file) msg ->
              In (e_name file ++ ": " ++ msg) (o_errors out)
      end
  | RErr m =>
      syncFromGitHub octokit now w =
      (Throw (Error ("Failed to sync from GitHub: " ++ m)),
       request "methodologies" w)
  | _ =>
      syncFromGitHub octokit now w =
      (Throw (Error "Failed to sync from GitHub: Methodologies directory not found or not a directory"),
       request "methodologies" w)
  end.
Proof.
  destruct (octokit "methodologies") as [m|files|content|] eqn:Hdir.
  - unfold syncFromGitHub, syncFromGitHub_body, try_catch, Sync.bind, getContent.
    now rewrite Hdir.
  - rewrite (syncFromGitHub_directory octokit now w files Hdir).
    assert (Hloop :
      exists out w',
        (let s := snd (syncEntries octokit files (in_loop w)) in
         (Ok (mkOutcome (added s) (updated s) (errors s)),
          mkWorld (disk s) (fetched s) (Some now))) = (Ok out, w') /\
        w_lastSync w' = Some now /\
        forall file msg,
          In file files -> selected file = true ->
          file_failure octokit (e_path file) msg ->
          In (e_name file ++ ": " ++ msg) (o_errors out)).
    { eexists _, _. split; [reflexivity|]. split; [reflexivity|].
      intros file msg Hin Hsel Hfail. cbn [o_errors].
      now apply syncEntries_failure_reported. }
    destruct (w_disk w) as [[msg|]|d]; [reflexivity | exact Hloop | exact Hloop].
  - unfold syncFromGitHub, syncFromGitHub_body, try_catch, Sync.bind, getContent.
    now rewrite Hdir.
  - unfold syncFromGitHub, syncFromGitHub_body, try_catch, Sync.bind, getContent.
    now rewrite Hdir.
Qed.

Lemma syncFromGitHub_outcome_witness :
  exists out w',
    syncFromGitHub (Examples.repo "1.0.0") 7 Examples.empty_world = (Ok out, w') /\
    w_lastSync w' = Some 7 /\
    In "broken.json: Invalid JSON format" (o_errors out).
Proof.
  destruct (syncFromGitHub_outcome (Examples.repo "1.0.0") 7 Examples.empty_world)
    as (out & w' & Hrun & Hlast & Herr).
  exists out, w'. split; [exact Hrun|]. split; [exact Hlast|].
  apply (Herr Examples.broken "Invalid JSON format").
  - simpl. tauto.
  - reflexivity.
  - apply (parse_failure _ _ "Unexpected token < in JSON at position 0").
    reflexivity.
Defined.

(** The claim as first stated fails: with a remote that answers the
    listing request with an authentication error, the run does not
    resolve with an outcome; it is rejected. *)
Lemma syncFromGitHub_rejects :
  syncFromGitHub Examples.unreachable 7 Examples.empty_world
  = (Throw (Error "Failed to sync from GitHub: Bad credentials"),
     mkWorld (Folder ∅) ["methodologies"] None).
Proof. reflexivity. Qed.

(** A local directory that is missing: the run creates it where it can,
    and is rejected where it can not, although the listing was given. *)
Example syncFromGitHub_creates_the_directory :
  fst (syncFromGitHub (Examples.repo "1.0.0") 7 Samples.no_directory)
  = Ok (mkOutcome [Some (JStr "gt-charmaz")] []
                  ["broken.json: Invalid JSON format"]) /\
  w_dir (snd (syncFromGitHub (Examples.repo "1.0.0") 7 Samples.no_directory))
    !! "gt-charmaz.json" = Some (File (Json (Examples.charmaz "1.0.0"))) /\
  syncFromGitHub (Examples.repo "1.0.0") 7 Samples.read_only
  = (Throw (Error "Failed to sync from GitHub: EACCES: permission denied, mkdir './methodologies'"),
     request "methodologies" Samples.read_only).
Proof. repeat split; vm_compute; reflexivity. Qed.

(** The scenario of the specification: the directory is empty and the
    remote has [gt-charmaz] at 1.0.0, the first run adds it; the remote
    moves to 1.1.0, the next run updates it; a third run does nothing. *)
Example first_added_then_updated :
  let run1 := syncFromGitHub (Examples.repo "1.0.0") 1 Examples.empty_world in
  let run2 := syncFromGitHub (Examples.repo "1.1.0") 2 (snd run1) in
  let run3 := syncFromGitHub (Examples.repo "1.1.0") 3 (snd run2) in
  fst run1 = Ok (mkOutcome [Some (JStr "gt-charmaz")] []
                           ["broken.json: Invalid JSON format"]) /\
  fst run2 = Ok (mkOutcome [] [Some (JStr "gt-charmaz")]
                           ["broken.json: Invalid JSON format"]) /\
  fst run3 = Ok (mkOutcome [] [] ["broken.json: Invalid JSON format"]) /\
  w_dir (snd run3) !! "gt-charmaz.json"
    = Some (File (Json (Examples.charmaz "1.1.0"))) /\
  w_lastSync (snd run3) = Some 3.
Proof. repeat split; vm_compute; reflexivity. Qed.

(** ** Idempotence of the run *)

Lemma validate_Ok_object m u :
  validateMethodology m = Ok u -> exists fields, m = JObj fields.
Proof.
  destruct m; try discriminate; eauto.
Qed.

Lemma lookup_field_reparse fields k :
  lookup_field (map (fun kv => (fst kv, reparse (snd kv))) fields) k
  = option_map reparse (lookup_field fields k).
Proof.
  induction fields as [|[k' v] fields IH]; [reflexivity|].
  cbn [map lookup_field fst snd]. now destruct (String.eqb k' k).
Qed.

Lemma compare_from_refl p i n : compare_from p p i n = 0.
Proof.
  apply compare_from_zero. intros j _. unfold num_gt.
  now rewrite num_lt_irrefl.
Qed.

(** Against its own stored copy a valid record is never written again. *)
Lemma gate_own_copy m :
  validateMethodology m = Ok tt ->
  gate m (JSON_stringify m) = Ok true \/ exists e, gate m (JSON_stringify m) = Throw e.
Proof.
  intros Hval. destruct (validate_Ok_object m _ Hval) as [fields ->].
  unfold gate, JSON_stringify. cbn [JSON_parse rbind reparse get].
  rewrite lookup_field_reparse.
  destruct (lookup_field fields "version") as [[|b|d|v|elems|fs]|];
    cbn [option_map reparse];
    unfold call_compareVersions; cbn [call_split rbind]; eauto.
  left. now rewrite compare_from_refl.
Qed.

Lemma decide_stable r slot :
  is_write (decide r (new_slot (decide r slot) slot)) = false.
Proof.
  destruct r as [msg|entries|content|]; try reflexivity.
  destruct content as [m|why]; [|reflexivity].
  cbn [decide JSON_parse].
  destruct (validateMethodology m) as [[]|e] eqn:Hval; [|reflexivity].
  assert (Hown : is_write
            match gate m (JSON_stringify m) with
            | Ok true => Skip
            | Ok false => Write m true
            | Throw e => Fail e
            end = false).
  { destruct (gate_own_copy m Hval) as [-> | [e ->]]; reflexivity. }
  destruct slot as [[t|]|]; [| reflexivity | exact Hown].
  destruct (gate m t) as [[]|e] eqn:Hgate; cbn [new_slot]; try exact Hown.
  - now rewrite Hgate.
  - now rewrite Hgate.
Qed.

(** A write is called for only where there is no directory in the way. *)
Lemma decide_Write_slot r slot m b :
  decide r slot = Write m b -> slot <> Some Directory.
Proof.
  intros H ->. destruct r as [msg|entries|[m0|why]|]; try discriminate H.
  cbn [decide JSON_parse] in H.
  destruct (validateMethodology m0) as [[]|e]; discriminate H.
Qed.

Lemma decide_Write_inside r d k m b :
  decide r (stat (Folder d) k) = Write m b -> outside k = false.
Proof.
  intros H. destruct (outside k) eqn:Hout; [|reflexivity].
  apply decide_Write_slot in H. now rewrite (stat_outside d k Hout) in H.
Qed.

Lemma syncEntry_slot octokit file s :
  is_folder (disk s) = true -> selected file = true ->
  stat (disk (snd (syncEntry octokit file s))) (key file)
  = new_slot (decide (octokit (e_path file)) (stat (disk s) (key file)))
             (stat (disk s) (key file)).
Proof.
  intros Hf Hsel. rewrite syncEntry_perform, Hsel. unfold key.
  destruct (decide _ _) as [|e|m b] eqn:Hd; cbn [perform].
  - reflexivity.
  - reflexivity.
  - destruct (disk s) as [mk|d]; [discriminate Hf|].
    assert (Hin := decide_Write_inside _ _ _ _ _ Hd).
    destruct b; cbn [snd disk new_slot]; rewrite (stat_inside _ _ Hin);
      apply lookup_insert_eq.
Qed.

Lemma syncEntry_other octokit file s k :
  k <> key file ->
  dir (snd (syncEntry octokit file s)) !! k = dir s !! k.
Proof.
  intros Hk. unfold dir. entry_cases file; try reflexivity;
    try (now rewrite ?Heql);
    cbn [contents]; apply lookup_insert_ne; unfold key in Hk; congruence.
Qed.

Lemma syncEntry_stat_other octokit file s k :
  k <> key file ->
  stat (disk (snd (syncEntry octokit file s))) k = stat (disk s) k.
Proof.
  intros Hk. entry_cases file; try reflexivity;
    cbn [stat]; (destruct (outside k); [reflexivity|]);
    apply lookup_insert_ne; unfold key in Hk; congruence.
Qed.

Lemma syncEntries_other octokit files s k :
  ~ In k (map key files) ->
  dir (snd (syncEntries octokit files s)) !! k = dir s !! k.
Proof.
  revert s. induction files as [|file files IH]; intros s Hk; [reflexivity|].
  rewrite syncEntries_cons, IH, syncEntry_other; [reflexivity | |];
    intros H; apply Hk; simpl; auto.
Qed.

Lemma syncEntries_stat_other octokit files s k :
  ~ In k (map key files) ->
  stat (disk (snd (syncEntries octokit files s))) k = stat (disk s) k.
Proof.
  revert s. induction files as [|file files IH]; intros s Hk; [reflexivity|].
  rewrite syncEntries_cons, IH, syncEntry_stat_other; [reflexivity | |];
    intros H; apply Hk; simpl; auto.
Qed.

(** An entry whose slot calls for no write leaves the local directory,
    [added] and [updated] as they are. *)
Lemma syncEntry_quiet octokit file s :
  (selected file = true ->
   is_write (decide (octokit (e_path file)) (stat (disk s) (key file))) = false) ->
  let s' := snd (syncEntry octokit file s) in
  disk s' = disk s /\ added s' = added s /\ updated s' = updated s.
Proof.
  intros Hq. unfold key in Hq. rewrite syncEntry_perform.
  destruct (selected file); [|auto]. specialize (Hq eq_refl).
  destruct (decide _ _) as [|e|m []];
    cbn [perform push_error snd disk added updated]; auto; discriminate Hq.
Qed.

Lemma syncEntries_quiet octokit files s :
  (forall file, In file files -> selected file = true ->
     is_write (decide (octokit (e_path file)) (stat (disk s) (key file))) = false) ->
  let s' := snd (syncEntries octokit files s) in
  disk s' = disk s /\ added s' = added s /\ updated s' = updated s.
Proof.
  revert s. induction files as [|file files IH]; intros s Hq; [auto|].
  cbv zeta. rewrite syncEntries_cons.
  destruct (syncEntry_quiet octokit file s) as (Hd & Ha & Hu).
  { apply Hq. now left. }
  destruct (IH (snd (syncEntry octokit file s))) as (Hd' & Ha' & Hu').
  { intros f Hf Hsel. rewrite Hd. apply Hq; [now right | assumption]. }
  cbv zeta in Hd', Ha', Hu'. rewrite Hd', Ha', Hu'. auto.
Qed.

(** After a pass over a listing with distinct file names, no entry of the
    listing calls for a write any more. *)
Lemma syncEntries_settles octokit files s :
  is_folder (disk s) = true ->
  List.NoDup (map key files) ->
  forall file, In file files -> selected file = true ->
    is_write (decide (octokit (e_path file))
                (stat (disk (snd (syncEntries octokit files s))) (key file))) = false.
Proof.
  revert s. induction files as [|f files IH]; intros s Hf Hnd file Hin Hsel;
    [destruct Hin|].
  inversion Hnd as [|? ? Hnotin Hnd']; subst.
  rewrite syncEntries_cons. destruct Hin as [-> | Hin].
  - rewrite syncEntries_stat_other by assumption.
    rewrite syncEntry_slot by assumption. apply decide_stable.
  - apply IH; try assumption. now rewrite syncEntry_folder.
Qed.

Lemma last_segment_no_slash cur n :
  forallb (fun c => negb (c =? "/")%char) n = true ->
  last_segment cur n = (rev cur ++ n)%list.
Proof.
  revert cur. induction n as [|c n IH]; intros cur H; simpl.
  - now rewrite app_nil_r.
  - simpl in H. apply andb_true_iff in H as [Hc Hn].
    apply negb_true_iff in Hc. rewrite Hc, IH by assumption.
    simpl. now rewrite <- app_assoc.
Qed.

Lemma last_segment_after_slash cur xs n :
  last_segment cur (xs ++ "/"%char :: n) = last_segment [] n.
Proof.
  revert cur. induction xs as [|x xs IH]; intros cur; simpl.
  - reflexivity.
  - destruct (x =? "/")%char; apply IH.
Qed.

Lemma list_ascii_of_string_app s1 s2 :
  list_ascii_of_string (s1 ++ s2)
  = (list_ascii_of_string s1 ++ list_ascii_of_string s2)%list.
Proof. induction s1 as [|c s1 IH]; simpl; [reflexivity | now rewrite IH]. Qed.

(** Inside a directory the base name of a path is the name. *)
Lemma basename_in_directory d name :
  name <> "" -> no_slash name = true ->
  basename (d ++ "/" ++ name) = name.
Proof.
  intros Hne Hns. unfold basename, no_slash in *.
  rewrite !list_ascii_of_string_app. cbn [list_ascii_of_string].
  set (n := list_ascii_of_string name) in *.
  set (pre := list_ascii_of_string d).
  assert (Hn : n <> []).
  { intros Hn. apply Hne. rewrite <- (string_of_list_ascii_of_string name).
    fold n. now rewrite Hn. }
  assert (Hdrop : drop_slashes (rev (pre ++ "/"%char :: n))
                  = rev (pre ++ "/"%char :: n)).
  { rewrite rev_app_distr. cbn [rev]. rewrite <- !app_assoc.
    destruct (rev n) as [|c l] eqn:Hr.
    - apply (f_equal (@rev ascii)) in Hr. rewrite rev_involutive in Hr.
      now destruct Hn.
    - cbn [app drop_slashes].
      assert (Hc : In c n) by (apply in_rev; rewrite Hr; now left).
      rewrite forallb_forall in Hns. apply Hns, negb_true_iff in Hc.
      now rewrite Hc. }
  cbn [app]. rewrite Hdrop, rev_involutive, last_segment_after_slash.
  rewrite last_segment_no_slash by assumption. cbn [rev app].
  apply string_of_list_ascii_of_string.
Qed.

(** In the listing of a directory the slot of an entry is its name, and
    no two entries share a slot. *)
Lemma directory_listing_key files file :
  directory_listing files -> In file files -> key file = e_name file.
Proof.
  intros [Hall _] Hin. rewrite List.Forall_forall in Hall.
  destruct (Hall file Hin) as (Hne & Hns & Hpath).
  unfold key. rewrite Hpath. now apply (basename_in_directory "methodologies").
Qed.

Lemma directory_listing_keys files :
  directory_listing files -> List.NoDup (map key files).
Proof.
  intros Hlist. pose proof Hlist as [_ Hnd].
  replace (map key files) with (map e_name files); [assumption|].
  apply map_ext_in. intros file Hin. symmetry.
  now apply (directory_listing_key files).
Qed.

(** A name that ends in [.json] leads into the directory. *)
Lemma json_name_inside name : endsWith name ".json" = true -> outside name = false.
Proof.
  intros H. apply endsWith_suffix in H as [prefix H].
  assert (Hlen : (5 <= List.length (list_ascii_of_string name))%nat).
  { rewrite H, length_app. simpl. lia. }
  unfold outside.
  destruct (String.eqb_spec name "") as [-> |_]; [simpl in Hlen; lia|].
  destruct (String.eqb_spec name ".") as [-> |_]; [simpl in Hlen; lia|].
  destruct (String.eqb_spec name "..") as [-> |_]; [simpl in Hlen; lia|].
  reflexivity.
Qed.

(** So does the slot of every selected entry of a directory listing. *)
Lemma directory_listing_inside files file :
  directory_listing files -> In file files -> selected file = true ->
  outside (key file) = false.
Proof.
  intros Hlist Hin Hsel. rewrite (directory_listing_key files file Hlist Hin).
  apply json_name_inside. unfold selected in Hsel.
  now apply andb_true_iff in Hsel as [_ Hsel].
Qed.

(** C5. With a remote that does not change, whose listing is that of a
    directory, a run that resolves is followed by a run that resolves with
    [added] and [updated] empty and leaves the directory as the first run
    left it. *)
Theorem sync_idempotent octokit files now1 now2 w out1 w1 :
  octokit "methodologies" = RDir files ->
  directory_listing files ->
  syncFromGitHub octokit now1 w = (Ok out1, w1) ->
  exists out2 w2,
    syncFromGitHub octokit now2 w1 = (Ok out2, w2) /\
    o_added out2 = [] /\ o_updated out2 = [] /\
    w_dir w2 = w_dir w1.
Proof.
  intros Hdir Hnd Hrun1. apply directory_listing_keys in Hnd.
  rewrite (syncFromGitHub_directory octokit now1 w files Hdir) in Hrun1.
  assert (Hw1 : mkWorld (disk (snd (syncEntries octokit files (in_loop w))))
                        (fetched (snd (syncEntries octokit files (in_loop w))))
                        (Some now1) = w1).
  { destruct (w_disk w) as [[msg|]|d]; [discriminate Hrun1 | |];
      cbv zeta in Hrun1; now injection Hrun1. }
  clear Hrun1.
  assert (Hf1 : is_folder (w_disk w1) = true).
  { rewrite <- Hw1. cbn [w_disk]. now rewrite syncEntries_folder. }
  rewrite (syncFromGitHub_directory octokit now2 w1 files Hdir).
  destruct (w_disk w1) as [mk|d1] eqn:Hd1; [discriminate Hf1|]. cbv zeta.
  eexists _, _. split; [reflexivity|]. cbn [o_added o_updated].
  destruct (syncEntries_quiet octokit files (in_loop w1)) as (Hd & Ha & Hu).
  { intros file Hin Hsel. unfold in_loop. cbn [disk]. rewrite Hd1.
    unfold ensured. cbn [contents]. rewrite <- Hd1, <- Hw1. cbn [w_disk].
    now apply syncEntries_settles. }
  cbv zeta in Hd, Ha, Hu. unfold w_dir. cbn [w_disk].
  rewrite Hd, Ha, Hu, Hd1. unfold in_loop. cbn [disk added updated].
  now rewrite Hd1.
Qed.

Lemma sync_idempotent_witness :
  exists out2 w2,
    syncFromGitHub (Examples.repo "1.0.0") 8
      (snd (syncFromGitHub (Examples.repo "1.0.0") 7 Examples.empty_world))
    = (Ok out2, w2) /\
    o_added out2 = [] /\ o_updated out2 = [] /\
    w_dir w2
    = w_dir (snd (syncFromGitHub (Examples.repo "1.0.0") 7 Examples.empty_world)).
Proof.
  apply (sync_idempotent (Examples.repo "1.0.0") Examples.files 7 8
           Examples.empty_world
           (mkOutcome [Some (JStr "gt-charmaz")] []
                      ["broken.json: Invalid JSON format"])).
  - reflexivity.
  - split.
    + repeat constructor; discriminate.
    + repeat constructor; simpl; intuition discriminate.
  - vm_compute. reflexivity.
Defined.

(** ** The engine as a process *)

Lemma enter_leave s : enter (leave s) (added s) (updated s) (errors s) = s.
Proof. now destruct s. Qed.

Lemma resume_file octokit now file rest s :
  resume_run octokit now
    (AwaitFile file rest (added s) (updated s) (errors s))
    (request (e_path file) (leave s))
  = let (r, s') := syncMethodologyFile octokit (e_path file) s in
    (inl (AwaitStep r file rest (added s') (updated s') (errors s')), leave s').
Proof.
  unfold resume_run, syncMethodologyFile, Sync.bind, getContent.
  cbn [enter request leave w_disk w_fetched w_lastSync].
  now destruct (octokit (e_path file)).
Qed.

Lemma drive_advance octokit now files s fuel :
  (2 * List.length files <= fuel)%nat ->
  drive octokit fuel now (advance now files s) =
  Some (let s' := snd (syncEntries octokit files s) in
        (Ok (mkOutcome (added s') (updated s') (errors s')),
         mkWorld (disk s') (fetched s') (Some now))).
Proof.
  revert s fuel. induction files as [|file files IH]; intros s fuel Hfuel.
  - now destruct fuel.
  - rewrite syncEntries_cons. cbn [advance]. unfold syncEntry.
    fold (selected file). destruct (selected file).
    + destruct fuel as [|[|fuel]]; try (simpl in Hfuel; lia).
      cbn [drive]. rewrite resume_file. unfold try_catch.
      destruct (syncMethodologyFile octokit (e_path file) s) as [[u|err] s1];
        cbn [drive resume_run snd]; rewrite enter_leave;
        apply IH; simpl in Hfuel; lia.
    + apply IH. simpl in Hfuel. lia.
Qed.

(** The resumption of a run that awaits the listing, when the listing is
    a directory: the run is rejected where the local directory can not be
    created, and enters the loop otherwise. *)
Lemma resume_AwaitListing octokit now w files :
  octokit "methodologies" = RDir files ->
  resume_run octokit now AwaitListing w =
  match w_disk w with
  | Missing (Some msg) => (inr (rejected msg), w)
  | l => advance now files (set_disk (ensured l) (enter w [] [] []))
  end.
Proof.
  intros Hdir. cbn [resume_run]. rewrite Hdir, ensure_localDir_spec.
  destruct w as [[[msg|]|d] f ls]; reflexivity.
Qed.

(** A run that is resumed until it settles, with no other run in
    between, is [syncFromGitHub]. *)
Lemma drive_is_syncFromGitHub octokit now w :
  exists fuel,
    drive octokit fuel now (inl AwaitListing, request "methodologies" w)
    = Some (syncFromGitHub octokit now w).
Proof.
  destruct (octokit "methodologies") as [m|files|content|] eqn:Hdir.
  - exists 1%nat. cbn [drive resume_run]. rewrite Hdir.
    unfold syncFromGitHub, syncFromGitHub_body, try_catch, Sync.bind, getContent.
    now rewrite Hdir.
  - exists (S (2 * List.length files)).
    cbn [drive]. rewrite (resume_AwaitListing octokit now _ files Hdir).
    rewrite (syncFromGitHub_directory octokit now w files Hdir).
    cbn [request w_disk].
    destruct (w_disk w) as [[msg|]|d] eqn:Hd.
    + destruct files; reflexivity.
    + rewrite drive_advance by lia. unfold in_loop. now rewrite Hd.
    + rewrite drive_advance by lia. unfold in_loop. now rewrite Hd.
  - exists 1%nat. cbn [drive resume_run]. rewrite Hdir.
    unfold syncFromGitHub, syncFromGitHub_body, try_catch, Sync.bind, getContent.
    now rewrite Hdir.
  - exists 1%nat. cbn [drive resume_run]. rewrite Hdir.
    unfold syncFromGitHub, syncFromGitHub_body, try_catch, Sync.bind, getContent.
    now rewrite Hdir.
Qed.

Lemma after_fetch_perform p fd s :
  (forall m, fd <> RErr m) ->
  after_fetch p fd s =
  let (r, s1) := perform p (decide fd (stat (disk s) (basename p))) s in
  (r, mkState (disk s1) (fetched s) (lastSync s1)
              (added s1) (updated s1) (errors s1)).
Proof.
  intros Hfd. destruct s as [l f ls a u e].
  unfold after_fetch, Sync.bind.
  destruct fd as [msg|entries|content|]; try reflexivity.
  { now destruct (Hfd msg). }
  destruct content as [m|why]; [|reflexivity].
  cbn [JSON_parse lift decide disk].
  destruct (validateMethodology m) as [[]|err] eqn:Hval; [|reflexivity].
  assert (Hm := validate_Ok_not_null m _ Hval).
  unfold existsSync. cbn [disk].
  destruct (stat l (basename p)) as [[t|]|] eqn:Hslot.
  - rewrite bool_decide_eq_true_2 by eauto.
    unfold version_gate, Sync.bind, readFileSync. cbn [disk]. rewrite Hslot.
    unfold gate, lift, rbind.
    destruct (JSON_parse t) as [lm|err]; [|reflexivity].
    destruct (get (Some m) "version") as [v1|err]; [|reflexivity].
    destruct (get (Some lm) "version") as [v2|err]; [|reflexivity].
    destruct (call_compareVersions v1 v2) as [c|err]; [|reflexivity].
    unfold ret. destruct (c <=? 0); [reflexivity|].
    destruct (stat_File _ _ _ Hslot) as (d & -> & _ & _).
    unfold writeFileSync, push_updated, set_disk.
    cbn [perform disk fetched lastSync added updated errors].
    rewrite Hslot.
    cbn [disk fetched lastSync added updated errors].
    rewrite (get_field m "id" Hm). reflexivity.
  - rewrite bool_decide_eq_true_2 by eauto.
    unfold version_gate, Sync.bind, readFileSync. cbn [disk]. now rewrite Hslot.
  - rewrite bool_decide_eq_false_2 by (intros [? ?]; discriminate).
    unfold ret, writeFileSync, push_added, set_disk.
    cbn [perform disk fetched lastSync added updated errors].
    rewrite Hslot. destruct l as [mk|d]; [reflexivity|].
    cbn [disk fetched lastSync added updated errors].
    rewrite (get_field m "id" Hm). reflexivity.
Qed.

(** The resumption of a run that awaits a file, by what the slot of the
    file calls for. *)
Lemma resume_AwaitFile octokit now file rest a u e w :
  resume_run octokit now (AwaitFile file rest a u e) w =
  let (r, s1) := perform (e_path file)
                   (decide (octokit (e_path file)) (stat (w_disk w) (key file)))
                   (enter w a u e) in
  (inl (AwaitStep r file rest (added s1) (updated s1) (errors s1)),
   mkWorld (disk s1) (w_fetched w) (lastSync s1)).
Proof.
  unfold resume_run, key.
  destruct (octokit (e_path file)) as [msg|entries|content|] eqn:Hfd.
  - destruct w; reflexivity.
  - rewrite after_fetch_perform by discriminate. cbn [enter disk].
    destruct (perform _ _ _) as [r s1]. reflexivity.
  - rewrite after_fetch_perform by discriminate. cbn [enter disk].
    destruct (perform _ _ _) as [r s1]. reflexivity.
  - rewrite after_fetch_perform by discriminate. cbn [enter disk].
    destruct (perform _ _ _) as [r s1]. reflexivity.
Qed.

Lemma advance_spec now rest s :
  match advance now rest s with
  | (inl r, w') =>
      exists skipped g rest',
        rest = (skipped ++ g :: rest')%list /\
        Forall unselected skipped /\ selected g = true /\
        r = AwaitFile g rest' (added s) (updated s) (errors s) /\
        w' = request (e_path g) (leave s)
  | (inr out, w') =>
      Forall unselected rest /\
      out = Ok (mkOutcome (added s) (updated s) (errors s)) /\
      w' = mkWorld (disk s) (fetched s) (Some now)
  end.
Proof.
  induction rest as [|f rest IH]; cbn [advance].
  - repeat split. constructor.
  - destruct (selected f) eqn:Hsel.
    + exists [], f, rest. repeat split; [constructor | assumption].
    + destruct (advance now rest s) as [[r|out] w'].
      * destruct IH as (skipped & g & rest' & -> & Hsk & Hg & -> & ->).
        exists (f :: skipped), g, rest'. repeat split; try assumption.
        now constructor.
      * destruct IH as (Hsk & -> & ->). repeat split. now constructor.
Qed.

Lemma resumes_reachable octokit now order e :
  rtc (step octokit) e (resumes octokit now order e).
Proof.
  revert e. induction order as [|i order IH]; intros e; [apply rtc_refl|].
  cbn [resumes]. eapply rtc_trans; [|apply IH].
  destruct (Nat.lt_ge_cases i (List.length (runs e))) as [Hlt | Hge].
  - apply rtc_once. now apply step_resume.
  - unfold resume. rewrite lookup_ge_None_2 by exact Hge. apply rtc_refl.
Qed.

Lemma perform_folder p a s :
  is_folder (disk s) = true -> is_folder (disk (snd (perform p a s))) = true.
Proof.
  destruct s as [[mk|d] f ls a0 u e]; [discriminate|]. intros _.
  destruct a as [|err|m []]; reflexivity.
Qed.

(** A run that has entered its loop has the local directory: it is there
    from the resumption with the listing on, whatever the other runs do. *)
Lemma advance_disk now rest s :
  w_disk (snd (advance now rest s)) = disk s.
Proof.
  pose proof (advance_spec now rest s) as H.
  destruct (advance now rest s) as [[r|out] w'].
  - now destruct H as (_ & g & _ & _ & _ & _ & _ & ->).
  - now destruct H as (_ & _ & ->).
Qed.

Lemma resume_run_folder octokit now r w :
  r = AwaitListing \/ is_folder (w_disk w) = true ->
  (is_folder (w_disk w) = true ->
   is_folder (w_disk (snd (resume_run octokit now r w))) = true) /\
  match fst (resume_run octokit now r w) with
  | inl _ => is_folder (w_disk (snd (resume_run octokit now r w))) = true
  | inr _ => True
  end.
Proof.
  intros Hr. destruct r as [|file rest a u e|res file rest a u e].
  - destruct (octokit "methodologies") as [m|files|content|] eqn:Hdir;
      try (cbn [resume_run]; rewrite Hdir; split; [auto | exact I]).
    rewrite (resume_AwaitListing octokit now w files Hdir).
    destruct (w_disk w) as [[msg|]|d];
      [split; [intros Hf; discriminate Hf | exact I] | |];
      match goal with
      | |- context [advance now files ?s] =>
          pose proof (advance_disk now files s) as H;
          destruct (advance now files s) as [[r'|out] w']; cbn [fst snd] in *;
          rewrite H; split; try (intros _); first [reflexivity | exact I]
      end.
  - destruct Hr as [Hr | Hf]; [discriminate Hr|].
    rewrite resume_AwaitFile.
    pose proof (perform_folder (e_path file)
                  (decide (octokit (e_path file)) (stat (w_disk w) (key file)))
                  (enter w a u e) Hf) as H.
    destruct (perform _ _ _) as [r s1]. cbn [fst snd w_disk] in *. auto.
  - destruct Hr as [Hr | Hf]; [discriminate Hr|]. cbn [resume_run].
    destruct res as [[]|err];
      match goal with
      | |- context [advance now rest ?s] =>
          pose proof (advance_disk now rest s) as H;
          destruct (advance now rest s) as [[r'|out] w']; cbn [fst snd] in *;
          rewrite H; split; try (intros _); first [exact Hf | exact I]
      end.
Qed.

Lemma runs_in_the_loop_have_the_directory octokit c l e :
  rtc (step octokit) (construct c l) e ->
  Forall (fun r => r = AwaitListing \/ is_folder (w_disk (shared e)) = true)
         (runs e).
Proof.
  intros Hreach. revert e Hreach.
  apply (rtc_ind_r
           (fun e => Forall (fun r => r = AwaitListing \/
                                      is_folder (w_disk (shared e)) = true)
                            (runs e))).
  - unfold construct, startAutoSync. destruct (autoSync c); [|constructor].
    destruct (0 <? syncInterval c); cbn [trigger runs app];
      (constructor; [now left | constructor]).
  - intros e1 e2 _ Hstep IH.
    assert (Htrig : Forall (fun r => r = AwaitListing \/
                              is_folder (w_disk (shared (trigger e1))) = true)
                      (runs (trigger e1))).
    { cbn [trigger runs shared request w_disk]. apply Forall_app.
      split; [exact IH | constructor; [now left | constructor]]. }
    destruct Hstep as [e1 | e1 _ | e1 i now _ | e1]; try exact Htrig;
      [|exact IH].
    unfold resume. destruct (runs e1 !! i) as [r|] eqn:Hr; [|exact IH].
    assert (Hrok : r = AwaitListing \/ is_folder (w_disk (shared e1)) = true).
    { rewrite List.Forall_forall in IH. apply IH.
      apply list_elem_of_In. eapply list_elem_of_lookup_2. exact Hr. }
    destruct (resume_run_folder octokit now r (shared e1) Hrok) as [Hkeep Hnew].
    assert (Hothers : Forall (fun r0 => r0 = AwaitListing \/
                        is_folder (w_disk (snd (resume_run octokit now r (shared e1))))
                        = true) (runs e1)).
    { eapply List.Forall_impl; [|exact IH]. intros r0 [H | H]; auto. }
    destruct (resume_run octokit now r (shared e1)) as [[r'|out] w'];
      cbn [fst snd runs shared] in *.
    + apply Forall_insert; [exact Hothers | now right].
    + now apply Forall_delete.
Qed.

(** ** Schedules of resumptions *)

Lemma total_insert (f : run -> nat) (l : list run) i r r' :
  l !! i = Some r ->
  (list_sum (map f (<[i := r']> l)) + f r = list_sum (map f l) + f r')%nat.
Proof.
  revert i. induction l as [|x l IH]; intros [|i] H; try discriminate H;
    simpl in *.
  - injection H as ->. lia.
  - specialize (IH i H). lia.
Qed.

Lemma total_delete (f : run -> nat) (l : list run) i r :
  l !! i = Some r ->
  (list_sum (map f (delete i l)) + f r = list_sum (map f l))%nat.
Proof.
  revert i. induction l as [|x l IH]; intros [|i] H; try discriminate H;
    simpl in *.
  - injection H as ->. lia.
  - specialize (IH i H). lia.
Qed.

Lemma filter_unselected l : Forall unselected l -> List.filter selected l = [].
Proof.
  induction 1 as [|f l Hf _ IH]; [reflexivity|].
  cbn [List.filter]. unfold unselected in Hf. now rewrite Hf.
Qed.

Lemma filter_skipped skipped g rest :
  Forall unselected skipped -> selected g = true ->
  List.filter selected (skipped ++ g :: rest) = g :: List.filter selected rest.
Proof.
  intros Hsk Hg. rewrite List.filter_app, (filter_unselected skipped Hsk).
  cbn [app List.filter]. now rewrite Hg.
Qed.

Lemma advance_weight octokit now rest s :
  match advance now rest s with
  | (inl r, _) => (weight octokit r <= 2 * List.length rest)%nat
  | (inr _, _) => True
  end.
Proof.
  pose proof (advance_spec now rest s) as H.
  destruct (advance now rest s) as [[r|out] w']; [|exact I].
  destruct H as (skipped & g & rest' & -> & _ & _ & -> & _).
  cbn [weight]. rewrite length_app. simpl. lia.
Qed.

(** Every resumption brings a run nearer to its end. *)
Lemma resume_run_weight octokit now r w :
  match resume_run octokit now r w with
  | (inl r', _) => (S (weight octokit r') <= weight octokit r)%nat
  | (inr _, _) => True
  end.
Proof.
  destruct r as [|file rest a u e|res file rest a u e].
  - destruct (octokit "methodologies") as [m|files|content|] eqn:Hdir;
      try (cbn [resume_run]; rewrite Hdir; exact I).
    rewrite (resume_AwaitListing octokit now w files Hdir).
    cbn [weight]. unfold listing. rewrite Hdir.
    destruct (w_disk w) as [[msg|]|d]; [exact I | |];
      match goal with
      | |- context [advance now files ?s] =>
          pose proof (advance_weight octokit now files s) as H;
          destruct (advance now files s) as [[r'|out] w']; [lia | exact I]
      end.
  - rewrite resume_AwaitFile. destruct (perform _ _ _) as [r s1].
    cbn [weight]. lia.
  - cbn [resume_run weight].
    destruct res as [[]|err];
      match goal with
      | |- context [advance now rest ?s] =>
          pose proof (advance_weight octokit now rest s) as H;
          destruct (advance now rest s) as [[r'|out] w']; [lia | exact I]
      end.
Qed.

(** A resumption keeps every run, in flight or settled, and uses up
    some of what the runs in flight have left to do. *)
Lemma resume_measure octokit i now e :
  (i < List.length (runs e))%nat ->
  let e' := resume octokit i now e in
  (List.length (runs e') + List.length (settled e')
   = List.length (runs e) + List.length (settled e))%nat /\
  (S (total (weight octokit) e') <= total (weight octokit) e)%nat.
Proof.
  intros Hi. cbv zeta. unfold resume, total.
  destruct (lookup_lt_is_Some_2 (runs e) i Hi) as [r Hr]. rewrite Hr.
  pose proof (resume_run_weight octokit now r (shared e)) as Hw.
  destruct (resume_run octokit now r (shared e)) as [[r'|out] w'];
    cbn [runs settled].
  - rewrite length_insert. split; [reflexivity|].
    pose proof (total_insert (weight octokit) (runs e) i r r' Hr). lia.
  - rewrite length_delete by eauto. rewrite length_app. simpl.
    split; [lia|].
    pose proof (total_delete (weight octokit) (runs e) i r Hr).
    destruct r; cbn [weight] in *; lia.
Qed.

Lemma resumptions_measure octokit n e e' :
  resumptions octokit n e e' ->
  (List.length (runs e') + List.length (settled e')
   = List.length (runs e) + List.length (settled e))%nat /\
  (n + total (weight octokit) e' <= total (weight octokit) e)%nat.
Proof.
  induction 1 as [e|n e i now e' Hi _ [IH1 IH2]]; [split; lia|].
  destruct (resume_measure octokit i now e Hi) as [H1 H2]. cbv zeta in H1, H2.
  split; lia.
Qed.

Lemma resumptions_reachable octokit n e e' :
  resumptions octokit n e e' -> rtc (step octokit) e e'.
Proof.
  induction 1 as [e|n e i now e' Hi _ IH]; [apply rtc_refl|].
  eapply rtc_l; [exact (step_resume octokit e i now Hi) | exact IH].
Qed.

(** The paths a run asks of the remote: those it has asked and those it
    has still to ask add up to the same, at every resumption. *)
Lemma advance_requests octokit now rest s p :
  match advance now rest s with
  | (x, w') =>
      w_disk w' = disk s /\
      (requests p w'
       + match x with
         | inl r' => count_occ string_dec (pending octokit r') p
         | inr _ => 0
         end
       = count_occ string_dec (fetched s) p
         + count_occ string_dec (map e_path (List.filter selected rest)) p)%nat
  end.
Proof.
  pose proof (advance_spec now rest s) as H.
  destruct (advance now rest s) as [[r|out] w'].
  - destruct H as (skipped & g & rest' & -> & Hsk & Hg & -> & ->).
    split; [reflexivity|]. rewrite (filter_skipped skipped g rest' Hsk Hg).
    unfold requests. cbn [request leave w_fetched pending map].
    rewrite count_occ_app. cbn [count_occ].
    destruct (string_dec (e_path g) p); lia.
  - destruct H as (Hsk & _ & ->). split; [reflexivity|].
    rewrite (filter_unselected rest Hsk). unfold requests.
    cbn [w_fetched map count_occ]. lia.
Qed.

Lemma resume_run_requests octokit now r w p :
  available (w_disk w) = true ->
  match resume_run octokit now r w with
  | (x, w') =>
      available (w_disk w') = true /\
      (requests p w'
       + match x with
         | inl r' => count_occ string_dec (pending octokit r') p
         | inr _ => 0
         end
       = requests p w + count_occ string_dec (pending octokit r) p)%nat
  end.
Proof.
  intros Hav. destruct r as [|file rest a u e|res file rest a u e].
  - destruct (octokit "methodologies") as [m|files|content|] eqn:Hdir;
      try (cbn [resume_run pending]; unfold listing; rewrite Hdir;
           split; [exact Hav | simpl; lia]).
    rewrite (resume_AwaitListing octokit now w files Hdir).
    cbn [pending]. unfold listing. rewrite Hdir.
    destruct (w_disk w) as [[msg|]|d] eqn:Hd; [discriminate Hav | |];
      match goal with
      | |- context [advance now files ?s] =>
          pose proof (advance_requests octokit now files s p) as H;
          destruct (advance now files s) as [x w']; destruct H as [-> H];
          split; [reflexivity | exact H]
      end.
  - rewrite resume_AwaitFile.
    destruct (decide _ _) as [|err|m []]; cbn [perform enter disk];
      try (destruct (w_disk w) as [mk|d] eqn:Hd);
      cbn [pending w_disk requests w_fetched]; unfold requests;
      rewrite ?Hd; split; (exact Hav || reflexivity || idtac).
    all: try lia. all: try reflexivity. all: try (now rewrite <- Hd).
  - cbn [resume_run pending].
    destruct res as [[]|err];
      match goal with
      | |- context [advance now rest ?s] =>
          pose proof (advance_requests octokit now rest s p) as H;
          destruct (advance now rest s) as [x w']; destruct H as [-> H];
          split; [exact Hav | exact H]
      end.
Qed.

Lemma resume_requests octokit i now e p :
  available (w_disk (shared e)) = true ->
  let due := fun r => count_occ string_dec (pending octokit r) p in
  let e' := resume octokit i now e in
  available (w_disk (shared e')) = true /\
  (requests p (shared e') + total due e' = requests p (shared e) + total due e)%nat.
Proof.
  intros Hav. cbv zeta. unfold resume, total.
  destruct (runs e !! i) as [r|] eqn:Hr; [|auto].
  pose proof (resume_run_requests octokit now r (shared e) p Hav) as H.
  destruct (resume_run octokit now r (shared e)) as [[r'|out] w'];
    destruct H as [Hav' H]; cbn [runs shared]; (split; [exact Hav'|]).
  - pose proof (total_insert
                  (fun r => count_occ string_dec (pending octokit r) p)
                  (runs e) i r r' Hr). lia.
  - pose proof (total_delete
                  (fun r => count_occ string_dec (pending octokit r) p)
                  (runs e) i r Hr). lia.
Qed.

Lemma resumptions_requests octokit n e e' p :
  resumptions octokit n e e' ->
  available (w_disk (shared e)) = true ->
  let due := fun r => count_occ string_dec (pending octokit r) p in
  (requests p (shared e') + total due e' = requests p (shared e) + total due e)%nat.
Proof.
  induction 1 as [e|n e i now e' Hi _ IH]; intros Hav; [reflexivity|].
  destruct (resume_requests octokit i now e p Hav) as [Hav' H].
  cbv zeta in *. rewrite (IH Hav'). exact H.
Qed.

Lemma resumptions_settled octokit n e e' :
  resumptions octokit n e e' -> exists l, settled e' = (settled e ++ l)%list.
Proof.
  induction 1 as [e|n e i now e' Hi _ [l IH]].
  - exists []. now rewrite app_nil_r.
  - rewrite IH. unfold resume. destruct (runs e !! i) as [r|]; [|eauto].
    destruct (resume_run octokit now r (shared e)) as [[r'|out] w'];
      cbn [settled]; [eauto|].
    exists (out :: l). now rewrite <- app_assoc.
Qed.

(** C3. The engine keeps no record of a run being in flight and tests
    nothing before it starts one: a call of [syncFromGitHub], from
    [forceSync] at any time or from the timer while it is armed, always
    puts one more run in flight, next to those already there.  After two
    calls in a row, and whatever the order in which the runs in flight
    are then resumed: no run is dropped or merged into another, each is
    in flight or has settled with a result of its own; the resumptions
    the runs can take are bounded, and as long as a run is in flight it
    can be resumed, so every run comes to its end; and when the two calls
    found the engine idle and both runs have come to their end, with the
    local directory there or created, the engine has two more results and
    the remote has been asked twice for the listing and twice for every
    selected file of it: each run did its own work. *)
Theorem every_trigger_starts_a_run octokit e n e' :
  let e2 := trigger (trigger e) in
  resumptions octokit n e2 e' ->
  (forceSync e = trigger e /\
   step octokit e (forceSync e) /\
   (syncTimer e = true -> step octokit e (trigger e)) /\
   runs e2 = (runs e ++ [AwaitListing; AwaitListing])%list) /\
  (List.length (runs e') + List.length (settled e')
   = List.length (runs e) + 2 + List.length (settled e))%nat /\
  (n + total (weight octokit) e' <= total (weight octokit) e2)%nat /\
  (runs e' <> [] -> exists e'', resumptions octokit 1 e' e'') /\
  (runs e = [] -> runs e' = [] ->
   available (w_disk (shared e)) = true ->
   (exists r1 r2, settled e' = (settled e ++ [r1; r2])%list) /\
   forall p,
     requests p (shared e')
     = (requests p (shared e)
        + 2 * count_occ string_dec
                ("methodologies" :: pending octokit AwaitListing) p)%nat).
Proof.
  intros e2 Hres.
  destruct (resumptions_measure octokit n e2 e' Hres) as [Hkeep Hbound].
  split; [|split; [|split; [exact Hbound|split]]].
  - split; [reflexivity|]. split; [apply step_forceSync|].
    split; [apply step_timer|].
    subst e2. cbn [trigger runs]. now rewrite <- app_assoc.
  - rewrite Hkeep. subst e2. cbn [trigger runs settled].
    rewrite !length_app. simpl. lia.
  - intros Hruns. exists (resume octokit 0 0 e').
    apply (resumptions_S octokit 0 e' 0%nat 0); [|apply resumptions_O].
    destruct (runs e'); [now destruct Hruns | simpl; lia].
  - intros Hidle Hdone Hav. split.
    + destruct (resumptions_settled octokit n e2 e' Hres) as [l Hl].
      subst e2. cbn [trigger runs settled] in Hkeep, Hl.
      rewrite Hdone, Hidle, Hl, length_app in Hkeep. simpl in Hkeep.
      destruct l as [|r1 [|r2 [|r3 l]]]; simpl in Hkeep; try lia.
      exists r1, r2. exact Hl.
    + intros p.
      pose proof (resumptions_requests octokit n e2 e' p Hres Hav) as H.
      cbv zeta in H. unfold total in H. subst e2.
      cbn [trigger runs shared] in H. rewrite Hdone, Hidle in H.
      unfold requests in *. cbn [request w_fetched] in H.
      rewrite !count_occ_app in H. cbn [app map count_occ] in *.
      unfold list_sum in H. cbn [fold_right] in H.
      destruct (string_dec "methodologies" p); lia.
Qed.

Lemma every_trigger_starts_a_run_witness :
  let e' := resumes (Examples.repo "1.0.0") 9
              [0; 1; 0; 1; 0; 1; 0; 1; 0; 0]%nat
              (trigger (trigger Examples.idle)) in
  (exists r1 r2, settled e' = [r1; r2]) /\
  requests "methodologies" (shared e') = 2%nat /\
  requests "methodologies/gt-charmaz.json" (shared e') = 2%nat.
Proof.
  cbv zeta.
  assert (Hres : resumptions (Examples.repo "1.0.0") 10
                   (trigger (trigger Examples.idle))
                   (resumes (Examples.repo "1.0.0") 9
                      [0; 1; 0; 1; 0; 1; 0; 1; 0; 0]%nat
                      (trigger (trigger Examples.idle)))).
  { cbn [resumes].
    do 4 (apply (resumptions_S _ _ _ 0%nat 9); [vm_compute; lia|];
          apply (resumptions_S _ _ _ 1%nat 9); [vm_compute; lia|]).
    do 2 (apply (resumptions_S _ _ _ 0%nat 9); [vm_compute; lia|]).
    apply resumptions_O. }
  destruct (every_trigger_starts_a_run (Examples.repo "1.0.0") Examples.idle
              10 _ Hres) as (_ & _ & _ & _ & H).
  destruct (H eq_refl eq_refl eq_refl) as [Hs Hr].
  split; [exact Hs|]. split; rewrite Hr; reflexivity.
Defined.

(** The claim as first stated fails: from the idle engine, two calls in a
    row lead to a state with two runs in flight; the second call is not
    ignored, and resumed in turn both runs execute and settle, each with
    its own outcome. *)
Lemma second_trigger_is_not_ignored :
  let e1 := forceSync Examples.idle in
  let e2 := forceSync e1 in
  rtc (step (Examples.repo "1.0.0")) Examples.idle e2 /\
  runs e1 = [AwaitListing] /\ runs e2 = [AwaitListing; AwaitListing] /\
  e2 <> e1 /\
  settled (resumes (Examples.repo "1.0.0") 9
             [0; 1; 0; 1; 0; 1; 0; 1; 0; 0]%nat e2)
  = [Ok (mkOutcome [Some (JStr "gt-charmaz")] []
                   ["broken.json: Invalid JSON format"]);
     Ok (mkOutcome [] [] ["broken.json: Invalid JSON format"])].
Proof.
  cbv zeta. split; [|split; [|split; [|split]]].
  - eapply rtc_l; [apply step_forceSync|].
    eapply rtc_l; [apply step_forceSync|]. apply rtc_refl.
  - reflexivity.
  - reflexivity.
  - intros H. apply (f_equal (fun e => List.length (runs e))) in H.
    discriminate H.
  - vm_compute. reflexivity.
Qed.
(** * Further properties of the code *)

(** ** The comparator on arbitrary strings *)

(** X1. Whatever the two strings, valid versions or not, exchanging the
    arguments negates the answer, and a string compares equal to
    itself. *)
Theorem compareVersions_exchange v1 v2 :
  compareVersions v1 v2 = - compareVersions v2 v1 /\
  compareVersions v1 v1 = 0.
Proof.
  split; [apply compare_from_antisym | apply compare_from_refl].
Qed.

Lemma split_dot_from_dot cur l1 l2 :
  split_dot_from cur (l1 ++ "."%char :: l2)
  = (split_dot_from cur l1 ++ split_dot_from [] l2)%list.
Proof.
  revert cur. induction l1 as [|c l1 IH]; intros cur; simpl.
  - reflexivity.
  - destruct (c =? ".")%char; rewrite IH; reflexivity.
Qed.

Lemma split_dot_dot a x :
  split_dot (a ++ "." ++ x) = (split_dot a ++ split_dot x)%list.
Proof.
  unfold split_dot. rewrite !list_ascii_of_string_app.
  cbn [list_ascii_of_string app]. apply split_dot_from_dot.
Qed.

Lemma compare_from_ext_l p1 p1' p2 i n :
  (forall j, (i <= j < i + n)%nat -> part p1 j = part p1' j) ->
  compare_from p1 p2 i n = compare_from p1' p2 i n.
Proof.
  revert i. induction n as [|n IH]; intros i H; [reflexivity|].
  cbn [compare_from]. rewrite (H i) by lia.
  rewrite (IH (S i)) by (intros j Hj; apply H; lia). reflexivity.
Qed.

Lemma part_app_l (p q : list jsnum) j :
  (j < List.length p)%nat -> part (p ++ q) j = part p j.
Proof. intros H. unfold part. now apply app_nth1. Qed.

(** X2. Only the first three parts are read: when a string has three
    parts or more, whatever is appended after a further dot changes no
    comparison, on either side. *)
Theorem compareVersions_ignores_fourth_part a x b :
  (3 <= List.length (split_dot a))%nat ->
  compareVersions (a ++ "." ++ x) b = compareVersions a b /\
  compareVersions b (a ++ "." ++ x) = compareVersions b a.
Proof.
  intros Hlen.
  assert (H : compareVersions (a ++ "." ++ x) b = compareVersions a b).
  { unfold compareVersions. rewrite split_dot_dot, map_app.
    apply compare_from_ext_l. intros j Hj. apply part_app_l.
    rewrite length_map. lia. }
  split; [exact H|].
  unfold compareVersions in *.
  rewrite (compare_from_antisym (map Number (split_dot b))), H.
  symmetry. apply compare_from_antisym.
Qed.

Lemma compareVersions_ignores_fourth_part_witness :
  compareVersions ("1.2.3" ++ "." ++ "9") "1.2.3" = compareVersions "1.2.3" "1.2.3" /\
  compareVersions "1.2.3" ("1.2.3" ++ "." ++ "9") = compareVersions "1.2.3" "1.2.3".
Proof.
  apply (compareVersions_ignores_fourth_part "1.2.3" "9" "1.2.3").
  vm_compute. lia.
Defined.

(** ** What the validator lets through *)

Lemma check_stages_Ok stages :
  check_stages stages = Ok tt ->
  Forall (fun st => st <> JNull /\ Spec.stage_complete st = true) stages.
Proof.
  induction stages as [|st stages IH]; intros H; [constructor|].
  cbn [check_stages] in H.
  assert (Hst : st <> JNull) by (intros ->; discriminate H).
  rewrite (stage_incomplete_complete st Hst) in H. cbn [rbind] in H.
  destruct (Spec.stage_complete st) eqn:Hc; [|discriminate H].
  constructor; [split; assumption | now apply IH].
Qed.

Lemma validateMethodology_Ok_inv m :
  validateMethodology m = Ok tt ->
  (exists fields, m = JObj fields) /\
  (forall f, In f required -> Spec.present m f = true) /\
  (exists stage rest,
      Spec.field m "stages" = Some (JArr (stage :: rest)) /\
      Forall (fun st => st <> JNull /\ Spec.stage_complete st = true)
             (stage :: rest)) /\
  Spec.author_ok m = true /\
  versionPattern_test (Spec.field m "version") = Ok true.
Proof.
  intros Hval. assert (Hm := validate_Ok_not_null m _ Hval).
  split; [exact (validate_Ok_object m _ Hval)|].
  unfold validateMethodology in Hval.
  rewrite (check_required_find m required Hm) in Hval.
  destruct (find (fun f => negb (Spec.present m f)) required) as [f|] eqn:Hfind;
    [discriminate Hval|].
  assert (Hp : forall f, In f required -> Spec.present m f = true).
  { intros f Hf. apply (find_none _ _ Hfind) in Hf.
    now apply negb_false_iff in Hf. }
  split; [exact Hp|].
  cbn [rbind] in Hval. rewrite (get_field m "stages" Hm) in Hval.
  cbn [rbind] in Hval.
  destruct (Spec.field m "stages") as [[| | | |[|stage rest]|]|];
    try discriminate Hval.
  destruct (check_stages (stage :: rest)) as [[]|e] eqn:Hstages;
    [|discriminate Hval].
  split; [exists stage, rest; split; [reflexivity | now apply check_stages_Ok]|].
  cbn [rbind] in Hval. rewrite (get_field m "author" Hm) in Hval.
  cbn [rbind] in Hval.
  assert (Ha : Spec.present m "author" = true) by (apply Hp; simpl; tauto).
  unfold Spec.author_ok, Spec.present in *.
  destruct (Spec.field m "author") as [a|]; [|discriminate Ha].
  rewrite (truthy_get a "name" Ha) in Hval. cbn [rbind] in Hval.
  destruct (truthy (Spec.field a "name")); cbn [negb andb rbind] in Hval |- *;
    [|discriminate Hval].
  rewrite (truthy_get a "email" Ha) in Hval. cbn [rbind] in Hval.
  destruct (truthy (Spec.field a "email")); cbn [negb andb rbind] in Hval |- *;
    [|discriminate Hval].
  split; [reflexivity|].
  rewrite (get_field m "version" Hm) in Hval. cbn [rbind] in Hval.
  destruct (versionPattern_test (Spec.field m "version")) as [[]|e];
    cbn [rbind negb] in Hval; try discriminate Hval. reflexivity.
Qed.

(** X3. A candidate the validator accepts is an object whose seven
    mandatory fields are truthy, whose [stages] is a nonempty array of
    values other than [null], each with truthy [name], [description] and
    [guidance], whose [author] has truthy [name] and [email], and whose
    version, converted to a string, matches the pattern. *)
Theorem validateMethodology_accepts_only m :
  validateMethodology m = Ok tt ->
  (exists fields, m = JObj fields) /\
  (forall f, In f required -> truthy (Spec.field m f) = true) /\
  (exists stage rest,
      Spec.field m "stages" = Some (JArr (stage :: rest)) /\
      Forall (fun st => st <> JNull /\
                        truthy (Spec.field st "name") = true /\
                        truthy (Spec.field st "description") = true /\
                        truthy (Spec.field st "guidance") = true)
             (stage :: rest)) /\
  (exists a, Spec.field m "author" = Some a /\
             truthy (Spec.field a "name") = true /\
             truthy (Spec.field a "email") = true) /\
  versionPattern_test (Spec.field m "version") = Ok true.
Proof.
  intros Hval.
  destruct (validateMethodology_Ok_inv m Hval)
    as (Hobj & Hreq & (stage & rest & Hst & Hall) & Hauthor & Hver).
  split; [exact Hobj|]. split; [exact Hreq|].
  split; [|split; [|exact Hver]].
  - exists stage, rest. split; [exact Hst|].
    eapply List.Forall_impl; [|exact Hall]. intros st [Hnn Hc].
    unfold Spec.stage_complete, Spec.present in Hc.
    apply andb_true_iff in Hc as [Hc Hg]. apply andb_true_iff in Hc as [Hn Hd].
    auto.
  - unfold Spec.author_ok, Spec.present in Hauthor.
    destruct (Spec.field m "author") as [a|]; [|discriminate Hauthor].
    apply andb_true_iff in Hauthor as [Hn He]. eauto.
Qed.

Lemma validateMethodology_accepts_only_witness :
  exists a, Spec.field (Examples.charmaz "1.0.0") "author" = Some a /\
            truthy (Spec.field a "name") = true /\
            truthy (Spec.field a "email") = true.
Proof.
  exact (proj1 (proj2 (proj2 (proj2
           (validateMethodology_accepts_only (Examples.charmaz "1.0.0") eq_refl))))).
Defined.

(** X4. A candidate whose [author] is not an object is never accepted; in
    particular none whose [author] is a string, as the interface
    [Methodology] declares it. *)
Theorem validateMethodology_rejects_plain_author m a :
  Spec.field m "author" = Some a ->
  (forall fields, a <> JObj fields) ->
  validateMethodology m <> Ok tt.
Proof.
  intros Ha Hplain Hval.
  destruct (validateMethodology_Ok_inv m Hval) as (_ & _ & _ & Hauthor & _).
  unfold Spec.author_ok, Spec.present in Hauthor. rewrite Ha in Hauthor.
  destruct a as [| | | | |fields]; try discriminate Hauthor.
  now destruct (Hplain fields).
Qed.

Lemma validateMethodology_rejects_plain_author_witness :
  validateMethodology Samples.typed_record <> Ok tt.
Proof.
  apply (validateMethodology_rejects_plain_author Samples.typed_record
           (JStr "K. Charmaz")).
  - reflexivity.
  - discriminate.
Defined.


(** ** What a run does to the local directory *)

Lemma syncFromGitHub_not_directory octokit now w :
  (forall files, octokit "methodologies" <> RDir files) ->
  exists e, syncFromGitHub octokit now w = (Throw e, request "methodologies" w).
Proof.
  intros Hnd.
  unfold syncFromGitHub, syncFromGitHub_body, try_catch, Sync.bind, getContent.
  destruct (octokit "methodologies") as [m|files|content|] eqn:Hdir;
    [| now destruct (Hnd files) | |]; eexists; reflexivity.
Qed.

Lemma in_loop_dir w : dir (in_loop w) = w_dir w.
Proof. reflexivity. Qed.

Lemma in_loop_disk w : is_folder (w_disk w) = true -> disk (in_loop w) = w_disk w.
Proof. unfold in_loop. cbn [disk]. now destruct (w_disk w). Qed.

Lemma stat_dir s k :
  is_folder (disk s) = true -> outside k = false -> stat (disk s) k = dir s !! k.
Proof.
  unfold dir. destruct (disk s) as [mk|d]; [discriminate|].
  intros _. apply stat_inside.
Qed.

(** Only a directory that is there holds anything. *)
Lemma w_dir_is_Some w k : is_Some (w_dir w !! k) -> is_folder (w_disk w) = true.
Proof.
  unfold w_dir. destruct (w_disk w) as [mk|d]; [|reflexivity].
  cbn [contents]. rewrite lookup_empty. intros [x Hx]. discriminate Hx.
Qed.

(** The entries a run works through: those of the listing, or none when
    the run is rejected before its loop. *)
Lemma syncFromGitHub_dir octokit now w :
  exists files,
    (octokit "methodologies" = RDir files \/ files = []) /\
    let s := snd (syncEntries octokit files (in_loop w)) in
    w_dir (snd (syncFromGitHub octokit now w)) = dir s /\
    (is_folder (w_disk w) = true ->
     w_disk (snd (syncFromGitHub octokit now w)) = disk s).
Proof.
  assert (Hnone : forall e,
            syncFromGitHub octokit now w = (Throw e, request "methodologies" w) ->
            exists files,
              (octokit "methodologies" = RDir files \/ files = []) /\
              let s := snd (syncEntries octokit files (in_loop w)) in
              w_dir (snd (syncFromGitHub octokit now w)) = dir s /\
              (is_folder (w_disk w) = true ->
               w_disk (snd (syncFromGitHub octokit now w)) = disk s)).
  { intros e ->. exists []. split; [now right|]. cbv zeta. cbn [syncEntries ret snd].
    split; [reflexivity|]. intros Hf. cbn [request w_disk].
    now rewrite in_loop_disk. }
  destruct (octokit "methodologies") as [m|files|content|] eqn:Hdir.
  2:{ pose proof (syncFromGitHub_directory octokit now w files Hdir) as Hrun.
      destruct (w_disk w) as [[msg|]|d] eqn:Hd.
      - now apply (Hnone _ Hrun).
      - exists files. split; [now left|]. rewrite Hrun. cbv zeta. auto.
      - exists files. split; [now left|]. rewrite Hrun. cbv zeta. auto. }
  all: destruct (syncFromGitHub_not_directory octokit now w) as [e He];
    [congruence | now apply (Hnone e)].
Qed.

Lemma syncEntry_keeps octokit file s k :
  is_Some (dir s !! k) -> is_Some (dir (snd (syncEntry octokit file s)) !! k).
Proof.
  unfold dir. intros H. entry_cases file; try assumption;
    try (now rewrite ?Heql in H);
    cbn [contents] in *; apply lookup_insert_is_Some;
    (destruct (String.eqb_spec (basename (e_path file)) k); [now left | now right]).
Qed.

Lemma syncEntries_keeps octokit files s k :
  is_Some (dir s !! k) -> is_Some (dir (snd (syncEntries octokit files s)) !! k).
Proof.
  revert s. induction files as [|file files IH]; intros s H; [assumption|].
  rewrite syncEntries_cons. now apply IH, syncEntry_keeps.
Qed.

(** X5. A run never removes a local file: whatever the remote answers,
    also when it no longer lists the file, every file name of the
    directory before the run is a file name of the directory after it. *)
Theorem sync_never_removes octokit now w k :
  is_Some (w_dir w !! k) ->
  is_Some (w_dir (snd (syncFromGitHub octokit now w)) !! k).
Proof.
  intros H. destruct (syncFromGitHub_dir octokit now w) as (files & _ & -> & _).
  now apply syncEntries_keeps.
Qed.

Lemma sync_never_removes_witness :
  is_Some (w_dir (snd (syncFromGitHub (Examples.repo "1.0.0") 7
                         Samples.damaged_world)) !! "notes.json").
Proof.
  apply (sync_never_removes (Examples.repo "1.0.0") 7 Samples.damaged_world
           "notes.json").
  vm_compute. eauto.
Defined.

Lemma syncEntry_unselected octokit file s :
  selected file = false -> syncEntry octokit file s = (Ok tt, s).
Proof. intros H. now rewrite syncEntry_perform, H. Qed.

Lemma syncEntries_outside octokit files s k :
  ~ In k (map key (List.filter selected files)) ->
  dir (snd (syncEntries octokit files s)) !! k = dir s !! k.
Proof.
  revert s. induction files as [|file files IH]; intros s Hk; [reflexivity|].
  rewrite syncEntries_cons. cbn [List.filter] in Hk.
  destruct (selected file) eqn:Hsel.
  - rewrite IH, syncEntry_other; [reflexivity | |];
      intros H; apply Hk; simpl; auto.
  - rewrite (syncEntry_unselected octokit file s Hsel). now apply IH.
Qed.

(** X6. A run touches no local file but those named like a selected
    entry of the listing: every other file, and every file at all when
    the listing request fails, is after the run what it was before. *)
Theorem sync_touches_listed_files_only octokit now w k :
  (forall files, octokit "methodologies" = RDir files ->
                 ~ In k (map key (List.filter selected files))) ->
  w_dir (snd (syncFromGitHub octokit now w)) !! k = w_dir w !! k.
Proof.
  intros H.
  destruct (syncFromGitHub_dir octokit now w) as (files & [Hdir | ->] & -> & _).
  - now rewrite syncEntries_outside by (apply H, Hdir).
  - reflexivity.
Qed.

Lemma sync_touches_listed_files_only_witness :
  w_dir (snd (syncFromGitHub (Examples.repo "1.0.0") 7 Samples.damaged_world))
    !! "notes.json"
  = w_dir Samples.damaged_world !! "notes.json".
Proof.
  apply (sync_touches_listed_files_only (Examples.repo "1.0.0") 7
           Samples.damaged_world "notes.json").
  intros files [= <-]. vm_compute. intuition discriminate.
Defined.

Lemma decide_malformed r why :
  is_write (decide r (Some (File (Malformed why)))) = false.
Proof.
  destruct r as [msg|entries|[m|w']|]; try reflexivity.
  cbn [decide JSON_parse]. destruct (validateMethodology m); reflexivity.
Qed.

Lemma syncEntry_malformed octokit file s k why :
  stat (disk s) k = Some (File (Malformed why)) ->
  stat (disk (snd (syncEntry octokit file s))) k = Some (File (Malformed why)).
Proof.
  intros H. destruct (String.eqb_spec k (key file)) as [->|Hne].
  - destruct (syncEntry_quiet octokit file s) as (Hd & _); [|now rewrite Hd].
    intros _. rewrite H. apply decide_malformed.
  - now rewrite syncEntry_stat_other.
Qed.

Lemma syncEntries_malformed octokit files s k why :
  stat (disk s) k = Some (File (Malformed why)) ->
  stat (disk (snd (syncEntries octokit files s))) k = Some (File (Malformed why)).
Proof.
  revert s. induction files as [|file files IH]; intros s H; [assumption|].
  rewrite syncEntries_cons. now apply IH, syncEntry_malformed.
Qed.

Lemma syncEntries_malformed_reported octokit files file m s why :
  In file files -> selected file = true ->
  octokit (e_path file) = RFile (Json m) -> validateMethodology m = Ok tt ->
  stat (disk s) (key file) = Some (File (Malformed why)) ->
  In (e_name file ++ ": " ++ why) (errors (snd (syncEntries octokit files s))).
Proof.
  revert s. induction files as [|f files IH]; intros s Hin Hsel Hfile Hval Hslot;
    [destruct Hin|].
  rewrite syncEntries_cons. destruct Hin as [-> | Hin].
  - apply syncEntries_errors_kept.
    rewrite syncEntry_perform, Hsel, Hfile. unfold key in Hslot.
    rewrite Hslot. cbn [decide JSON_parse]. rewrite Hval.
    cbn [gate JSON_parse rbind perform push_error snd errors message].
    apply in_or_app. right. now left.
  - apply IH; try assumption. now apply syncEntry_malformed.
Qed.

(** X7. A local file that does not parse is never repaired: a run leaves
    it as it is, and when the listing selects a file of that name with a
    valid record, the run reports the parse error of the local file for
    it instead of writing the record. *)
Theorem sync_never_repairs_malformed_file octokit now w k why :
  stat (w_disk w) k = Some (File (Malformed why)) ->
  stat (w_disk (snd (syncFromGitHub octokit now w))) k
    = Some (File (Malformed why)) /\
  forall files file m,
    octokit "methodologies" = RDir files ->
    In file files -> selected file = true -> key file = k ->
    octokit (e_path file) = RFile (Json m) ->
    validateMethodology m = Ok tt ->
    exists out,
      fst (syncFromGitHub octokit now w) = Ok out /\
      In (e_name file ++ ": " ++ why) (o_errors out).
Proof.
  intros H. destruct (stat_File _ _ _ H) as (d & Hd & _ & _).
  assert (Hloop : disk (in_loop w) = w_disk w).
  { apply in_loop_disk. now rewrite Hd. }
  split.
  - destruct (syncFromGitHub_dir octokit now w) as (files & _ & _ & Hdisk).
    rewrite Hdisk by (now rewrite Hd).
    apply syncEntries_malformed. now rewrite Hloop.
  - intros files file m Hdir Hin Hsel Hkey Hfile Hval.
    rewrite (syncFromGitHub_directory octokit now w files Hdir), Hd.
    eexists. split; [reflexivity|]. cbn [o_errors].
    apply (syncEntries_malformed_reported octokit files file m); try assumption.
    now rewrite Hkey, Hloop.
Qed.

Lemma sync_never_repairs_malformed_file_witness :
  stat (w_disk (snd (syncFromGitHub (Examples.repo "1.0.0") 7 Samples.damaged_world)))
       "gt-charmaz.json"
    = Some (File (Malformed "Unexpected end of JSON input")) /\
  exists out,
    fst (syncFromGitHub (Examples.repo "1.0.0") 7 Samples.damaged_world) = Ok out /\
    In "gt-charmaz.json: Unexpected end of JSON input" (o_errors out).
Proof.
  destruct (sync_never_repairs_malformed_file (Examples.repo "1.0.0") 7
              Samples.damaged_world "gt-charmaz.json"
              "Unexpected end of JSON input") as [Hkeep Hreport].
  - vm_compute. reflexivity.
  - split; [exact Hkeep|].
    apply (Hreport Examples.files Examples.gt_charmaz (Examples.charmaz "1.0.0"));
      try reflexivity.
    simpl. tauto.
Defined.

(** ** What a run reports *)

Lemma syncEntry_reported octokit file s :
  (reported (snd (syncEntry octokit file s))
   <= reported s + (if selected file then 1 else 0))%nat.
Proof.
  unfold reported. entry_cases file; rewrite ?length_app; simpl; lia.
Qed.

Lemma syncEntries_reported octokit files s :
  (reported (snd (syncEntries octokit files s))
   <= reported s + List.length (List.filter selected files))%nat.
Proof.
  revert s. induction files as [|file files IH]; intros s; [simpl; lia|].
  rewrite syncEntries_cons. cbn [List.filter].
  pose proof (IH (snd (syncEntry octokit file s))) as H1.
  pose proof (syncEntry_reported octokit file s) as H2.
  destruct (selected file); simpl in *; lia.
Qed.

(** A run that resolves has been through its loop. *)
Lemma syncFromGitHub_resolved octokit files now w out w' :
  octokit "methodologies" = RDir files ->
  syncFromGitHub octokit now w = (Ok out, w') ->
  let s := snd (syncEntries octokit files (in_loop w)) in
  out = mkOutcome (added s) (updated s) (errors s) /\
  w' = mkWorld (disk s) (fetched s) (Some now).
Proof.
  intros Hdir Hrun.
  rewrite (syncFromGitHub_directory octokit now w files Hdir) in Hrun.
  destruct (w_disk w) as [[msg|]|d]; [discriminate Hrun | |];
    cbv zeta in *; injection Hrun as <- <-; auto.
Qed.

(** X8. A selected entry of the listing is reported at most once, in one
    of the three lists: the lengths of [added], [updated] and [errors]
    together do not exceed the number of selected entries. *)
Theorem at_most_one_report_per_file octokit files now w out w' :
  octokit "methodologies" = RDir files ->
  syncFromGitHub octokit now w = (Ok out, w') ->
  (List.length (o_added out) + List.length (o_updated out)
   + List.length (o_errors out)
   <= List.length (List.filter selected files))%nat.
Proof.
  intros Hdir Hrun.
  destruct (syncFromGitHub_resolved octokit files now w out w' Hdir Hrun)
    as [-> _].
  cbn [o_added o_updated o_errors].
  apply (syncEntries_reported octokit files (in_loop w)).
Qed.

Lemma at_most_one_report_per_file_witness :
  (List.length (o_added (mkOutcome [Some (JStr "gt-charmaz")] []
                           ["broken.json: Invalid JSON format"]))
   + List.length (o_updated (mkOutcome [Some (JStr "gt-charmaz")] []
                               ["broken.json: Invalid JSON format"]))
   + List.length (o_errors (mkOutcome [Some (JStr "gt-charmaz")] []
                              ["broken.json: Invalid JSON format"]))
   <= List.length (List.filter selected Examples.files))%nat.
Proof.
  apply (at_most_one_report_per_file (Examples.repo "1.0.0") Examples.files 7
           Examples.empty_world _
           (snd (syncFromGitHub (Examples.repo "1.0.0") 7 Examples.empty_world))).
  - reflexivity.
  - vm_compute. reflexivity.
Defined.

Lemma syncEntry_error_from octokit file s x :
  In x (errors (snd (syncEntry octokit file s))) ->
  In x (errors s) \/
  selected file = true /\ exists msg, x = e_name file ++ ": " ++ msg.
Proof.
  entry_cases file; intros H; auto;
    (apply in_app_or in H as [H | [<- | []]]; [now left|]);
    right; (split; [reflexivity | eauto]).
Qed.

Lemma syncEntries_error_from octokit files s x :
  In x (errors (snd (syncEntries octokit files s))) ->
  In x (errors s) \/
  exists file msg,
    In file files /\ selected file = true /\ x = e_name file ++ ": " ++ msg.
Proof.
  revert s. induction files as [|file files IH]; intros s H; [now left|].
  rewrite syncEntries_cons in H. apply IH in H as [H | (f & msg & Hin & Hsel & ->)].
  - apply syncEntry_error_from in H as [H | [Hsel [msg ->]]]; [now left|].
    right. exists file, msg. repeat split; [now left | assumption].
  - right. exists f, msg. repeat split; [now right | assumption].
Qed.

(** X9. Every entry of [errors] is about one selected entry of the
    listing: it is the name of that entry, a colon and a space, and a
    message. *)
Theorem every_error_names_its_file octokit files now w out w' x :
  octokit "methodologies" = RDir files ->
  syncFromGitHub octokit now w = (Ok out, w') ->
  In x (o_errors out) ->
  exists file msg,
    In file files /\ selected file = true /\ x = e_name file ++ ": " ++ msg.
Proof.
  intros Hdir Hrun Hx.
  destruct (syncFromGitHub_resolved octokit files now w out w' Hdir Hrun)
    as [-> _].
  cbn [o_errors] in Hx.
  apply syncEntries_error_from in Hx as [[] | H]. exact H.
Qed.

Lemma every_error_names_its_file_witness :
  exists file msg,
    In file Examples.files /\ selected file = true /\
    "broken.json: Invalid JSON format" = e_name file ++ ": " ++ msg.
Proof.
  apply (every_error_names_its_file (Examples.repo "1.0.0") Examples.files 7
           Examples.empty_world
           (mkOutcome [Some (JStr "gt-charmaz")] []
                      ["broken.json: Invalid JSON format"])
           (snd (syncFromGitHub (Examples.repo "1.0.0") 7 Examples.empty_world))).
  - reflexivity.
  - vm_compute. reflexivity.
  - simpl. tauto.
Defined.

Lemma decide_Write_inv r slot m b :
  decide r slot = Write m b ->
  r = RFile (Json m) /\ validateMethodology m = Ok tt.
Proof.
  destruct r as [msg|entries|[m0|why]|]; try discriminate.
  cbn [decide JSON_parse].
  destruct (validateMethodology m0) as [[]|e] eqn:Hval; [|discriminate].
  destruct slot as [[t|]|].
  - destruct (gate m0 t) as [[]|e]; try discriminate.
    intros [= <- _]. auto.
  - discriminate.
  - intros [= <- _]. auto.
Qed.

Lemma syncEntry_id_from octokit file s id :
  In id (added (snd (syncEntry octokit file s))) \/
  In id (updated (snd (syncEntry octokit file s))) ->
  (In id (added s) \/ In id (updated s)) \/
  stored_as octokit (dir (snd (syncEntry octokit file s))) file id.
Proof.
  rewrite syncEntry_perform. destruct (selected file) eqn:Hsel; [|now left].
  destruct (decide _ _) as [|e|m b] eqn:Hd;
    cbn [perform push_error snd added updated dir]; try (now left).
  destruct (decide_Write_inv _ _ _ _ Hd) as [Hfile Hval].
  destruct (disk s) as [mk|d];
    [cbn [push_error snd added updated]; now left|].
  assert (Hst : stored_as octokit
                  (<[basename (e_path file) := File (JSON_stringify m)]> d)
                  file (Spec.field m "id")).
  { exists m. repeat split; try assumption. apply lookup_insert_eq. }
  destruct b; unfold dir; cbn [snd added updated disk contents]; intros [H | H];
    try (left; now auto);
    apply in_app_or in H as [H | [<- | []]]; auto.
Qed.

Lemma syncEntries_id_from octokit files s id :
  List.NoDup (map key files) ->
  In id (added (snd (syncEntries octokit files s))) \/
  In id (updated (snd (syncEntries octokit files s))) ->
  (In id (added s) \/ In id (updated s)) \/
  exists file,
    In file files /\
    stored_as octokit (dir (snd (syncEntries octokit files s))) file id.
Proof.
  revert s. induction files as [|file files IH]; intros s Hnd H; [now left|].
  inversion Hnd as [|? ? Hnotin Hnd']; subst.
  rewrite syncEntries_cons in *.
  apply (IH _ Hnd') in H as [H | (f & Hin & Hst)].
  - apply syncEntry_id_from in H as [H | (m & Hsel & Hfile & Hval & Hid & Hslot)];
      [now left|].
    right. exists file. split; [now left|].
    exists m. repeat split; try assumption.
    now rewrite syncEntries_other.
  - right. exists f. split; [now right | assumption].
Qed.

(** X10. What a run reports is on disk when it ends: over the listing of
    a directory, every id in [added] or in [updated] is the [id] of a
    valid record that a selected entry of the listing holds, and the local
    file of that entry's name is that record as the run wrote it. *)
Theorem reported_ids_are_stored octokit files now w out w' id :
  octokit "methodologies" = RDir files ->
  directory_listing files ->
  syncFromGitHub octokit now w = (Ok out, w') ->
  In id (o_added out) \/ In id (o_updated out) ->
  exists file m,
    In file files /\ selected file = true /\
    octokit (e_path file) = RFile (Json m) /\
    validateMethodology m = Ok tt /\
    Spec.field m "id" = id /\
    w_dir w' !! key file = Some (File (JSON_stringify m)).
Proof.
  intros Hdir Hlist Hrun Hid. apply directory_listing_keys in Hlist.
  destruct (syncFromGitHub_resolved octokit files now w out w' Hdir Hrun)
    as [-> ->].
  cbn [o_added o_updated] in *.
  apply (syncEntries_id_from octokit files _ id Hlist) in Hid
    as [[[] | []] | (file & Hin & m & Hsel & Hfile & Hval & Hfid & Hslot)].
  exists file, m. auto 10.
Qed.

Lemma reported_ids_are_stored_witness :
  exists file m,
    In file Examples.files /\ selected file = true /\
    Examples.repo "1.0.0" (e_path file) = RFile (Json m) /\
    validateMethodology m = Ok tt /\
    Spec.field m "id" = Some (JStr "gt-charmaz") /\
    w_dir (snd (syncFromGitHub (Examples.repo "1.0.0") 7 Examples.empty_world))
      !! key file = Some (File (JSON_stringify m)).
Proof.
  apply (reported_ids_are_stored (Examples.repo "1.0.0") Examples.files 7
           Examples.empty_world
           (mkOutcome [Some (JStr "gt-charmaz")] []
                      ["broken.json: Invalid JSON format"])).
  - reflexivity.
  - split.
    + repeat constructor; discriminate.
    + repeat constructor; simpl; intuition discriminate.
  - vm_compute. reflexivity.
  - left. simpl. tauto.
Defined.

(** ** The engine, step by step *)

(** What one resumption does to [lastSync]. *)
Lemma resume_run_lastSync octokit now r w :
  match resume_run octokit now r w with
  | (inr (Ok _), w') => w_lastSync w' = Some now
  | (_, w') => w_lastSync w' = w_lastSync w
  end.
Proof.
  assert (Hadv : forall rest s,
            lastSync s = w_lastSync w ->
            match advance now rest s with
            | (inr (Ok _), w') => w_lastSync w' = Some now
            | (_, w') => w_lastSync w' = w_lastSync w
            end).
  { intros rest s Hs. pose proof (advance_spec now rest s) as H.
    destruct (advance now rest s) as [[r'|out] w'].
    - destruct H as (_ & g & _ & _ & _ & _ & _ & ->). exact Hs.
    - destruct H as (_ & -> & ->). reflexivity. }
  destruct r as [|file rest a u e|res file rest a u e].
  - destruct (octokit "methodologies") as [m|files|content|] eqn:Hdir;
      try (cbn [resume_run]; rewrite Hdir; reflexivity).
    rewrite (resume_AwaitListing octokit now w files Hdir).
    destruct (w_disk w) as [[msg|]|d]; [reflexivity | |]; now apply Hadv.
  - rewrite resume_AwaitFile.
    destruct (decide _ _) as [|err|m []]; cbn [perform];
      try destruct (disk _); reflexivity.
  - cbn [resume_run]. destruct res as [[]|err]; now apply Hadv.
Qed.

Lemma resume_run_settles octokit now r w out w' :
  resume_run octokit now r w = (inr out, w') ->
  (exists o, out = Ok o) \/ r = AwaitListing /\ exists err, out = Throw err.
Proof.
  assert (Hadv : forall rest s,
            advance now rest s = (inr out, w') -> exists o, out = Ok o).
  { intros rest s H. pose proof (advance_spec now rest s) as Hs.
    rewrite H in Hs. destruct Hs as (_ & -> & _). eauto. }
  destruct r as [|file rest a u e|res file rest a u e].
  - destruct (octokit "methodologies") as [m|files|content|] eqn:Hdir;
      try (cbn [resume_run]; rewrite Hdir; intros [= <- _]; right;
           split; [reflexivity | unfold rejected; eauto]).
    rewrite (resume_AwaitListing octokit now w files Hdir).
    destruct (w_disk w) as [[msg|]|d];
      [intros [= <- _]; right; split; [reflexivity | unfold rejected; eauto] | |];
      intros H; left; eauto.
  - rewrite resume_AwaitFile. destruct (perform _ _ _). discriminate.
  - cbn [resume_run]. destruct res as [[]|err]; intros H; left; eauto.
Qed.

Lemma resume_lastSync octokit i now e :
  let e' := resume octokit i now e in
  (w_lastSync (shared e') = w_lastSync (shared e) /\
   (settled e' = settled e \/
    exists err, settled e' = (settled e ++ [Throw err])%list)) \/
  (exists out,
     w_lastSync (shared e') = Some now /\
     settled e' = (settled e ++ [Ok out])%list).
Proof.
  cbv zeta. unfold resume.
  destruct (runs e !! i) as [r|] eqn:Hr;
    [|left; split; [reflexivity | now left]].
  pose proof (resume_run_lastSync octokit now r (shared e)) as Hl.
  destruct (resume_run octokit now r (shared e)) as [[r'|[o|err]] w'];
    cbn [shared settled].
  - left. split; [exact Hl | now left].
  - right. eauto.
  - left. split; [exact Hl | right; eauto].
Qed.

(** A step of the engine leaves [lastSync] as it is, unless it is the
    resumption at which a run resolves: [lastSync] is then the time of
    that resumption. *)
Lemma step_lastSync octokit e e' :
  step octokit e e' ->
  (w_lastSync (shared e') = w_lastSync (shared e) /\
   (settled e' = settled e \/
    exists err, settled e' = (settled e ++ [Throw err])%list)) \/
  (exists i now out,
     e' = resume octokit i now e /\
     w_lastSync (shared e') = Some now /\
     settled e' = (settled e ++ [Ok out])%list).
Proof.
  intros [e1 | e1 _ | e1 i now _ | e1]; try (left; split; [reflexivity | now left]).
  destruct (resume_lastSync octokit i now e1) as [H | (out & H1 & H2)];
    [left; exact H | right; exists i, now, out; auto].
Qed.

Lemma construct_fresh c l :
  w_lastSync (shared (construct c l)) = None /\ settled (construct c l) = [].
Proof.
  unfold construct, startAutoSync.
  destruct (autoSync c); [|split; reflexivity].
  destruct (0 <? syncInterval c); split; reflexivity.
Qed.

(** X11. [lastSync] moves only when a run resolves, at that very step and
    to the time of that step: any other step of the engine, the
    rejection of a run included, leaves it as it was.  So from its
    construction on the engine has [lastSync] unset (what [getSyncStatus]
    reports as [null]) exactly as long as no run has resolved. *)
Theorem lastSync_moves_only_when_a_run_resolves octokit c l e :
  rtc (step octokit) (construct c l) e ->
  (w_lastSync (shared e) = None <-> Forall (fun r => ~ resolved r) (settled e)) /\
  forall e', step octokit e e' ->
    (w_lastSync (shared e') = w_lastSync (shared e) /\
     (settled e' = settled e \/
      exists err, settled e' = (settled e ++ [Throw err])%list)) \/
    (exists i now out,
       e' = resume octokit i now e /\
       w_lastSync (shared e') = Some now /\
       settled e' = (settled e ++ [Ok out])%list).
Proof.
  intros Hreach. split; [|apply step_lastSync].
  revert e Hreach.
  apply (rtc_ind_r
           (fun e => w_lastSync (shared e) = None <->
                     Forall (fun r => ~ resolved r) (settled e))).
  2: intros e1 e2 _ Hstep IH.
  - destruct (construct_fresh c l) as [-> ->]. split; [constructor | reflexivity].
  - destruct (step_lastSync octokit e1 e2 Hstep)
      as [[Hl [Hs | [err Hs]]] | (i & now & out & _ & Hl & Hs)]; rewrite ?Hl, Hs.
    + exact IH.
    + rewrite IH. split.
      * intros H. apply Forall_app. split; [exact H|].
        constructor; [|constructor]. intros [o Ho]. discriminate Ho.
      * intros H. now apply Forall_app in H as [H _].
    + split; [discriminate|]. intros H. apply Forall_app in H as [_ H].
      inversion H as [|? ? Hn _]; subst. destruct Hn. now exists out.
Qed.

(** The engine is constructed with [autoSync] on, over an empty
    directory; its first run is resumed up to its last [await], and then
    once more, at time 9: it resolves, and [lastSync] is 9. *)
Lemma lastSync_moves_only_when_a_run_resolves_witness :
  let e1 := resumes (Examples.repo "1.0.0") 8 [0; 0; 0; 0]%nat
              (construct (mkConfig true 60) (Folder ∅)) in
  let e2 := resume (Examples.repo "1.0.0") 0 9 e1 in
  runs e1 <> [] /\ w_lastSync (shared e1) = None /\
  exists i now out,
    e2 = resume (Examples.repo "1.0.0") i now e1 /\
    w_lastSync (shared e2) = Some now /\
    settled e2 = (settled e1 ++ [Ok out])%list.
Proof.
  intros e1 e2.
  destruct (lastSync_moves_only_when_a_run_resolves (Examples.repo "1.0.0")
              (mkConfig true 60) (Folder ∅) e1 (resumes_reachable _ _ _ _))
    as [Hnone Hstep].
  assert (Hlt : (0 < List.length (runs e1))%nat) by (vm_compute; lia).
  split; [vm_compute; discriminate|].
  split; [apply Hnone; vm_compute; constructor|].
  destruct (Hstep e2 (step_resume (Examples.repo "1.0.0") e1 0 9 Hlt))
    as [[Hl _] | H]; [vm_compute in Hl; discriminate Hl | exact H].
Defined.

Lemma step_timer_off octokit e e' :
  step octokit e e' -> syncTimer e = false -> syncTimer e' = false.
Proof.
  intros [e1 | e1 _ | e1 i now _ | e1] Hoff; try exact Hoff; [|reflexivity].
  unfold resume. destruct (runs e1 !! i) as [r|]; [|exact Hoff].
  destruct (resume_run octokit now r (shared e1)) as [[r'|out] w']; exact Hoff.
Qed.

(** X12. [stopAutoSync] leaves the runs in flight as they are, and after
    it the timer stays cleared whatever happens next (manual triggers,
    resumptions): no later step of the engine is a fire of the timer. *)
Theorem stopAutoSync_is_final octokit e e' :
  rtc (step octokit) (stopAutoSync e) e' ->
  runs (stopAutoSync e) = runs e /\
  shared (stopAutoSync e) = shared e /\
  syncTimer e' = false /\
  forall e'', step octokit e' e'' -> syncTimer e'' = false.
Proof.
  intros Hreach. split; [reflexivity|]. split; [reflexivity|].
  assert (Hoff : syncTimer e' = false).
  { revert e' Hreach.
    apply (rtc_ind_r (fun e' => syncTimer e' = false)); [reflexivity|].
    intros e1 e2 _ Hstep IH. exact (step_timer_off octokit e1 e2 Hstep IH). }
  split; [exact Hoff|]. intros e'' Hstep.
  exact (step_timer_off octokit e' e'' Hstep Hoff).
Qed.

Lemma stopAutoSync_is_final_witness :
  syncTimer (forceSync (stopAutoSync (construct (mkConfig true 60) (Folder ∅))))
  = false.
Proof.
  refine (proj1 (proj2 (proj2
            (stopAutoSync_is_final (Examples.repo "1.0.0")
               (construct (mkConfig true 60) (Folder ∅))
               (forceSync (stopAutoSync (construct (mkConfig true 60) (Folder ∅))))
               _)))).
  eapply rtc_l; [apply step_forceSync | apply rtc_refl].
Defined.

(** X13. The defaults of the constructor hold for absent properties
    only.  The first run is started when [autoSync] is absent or [true],
    not when it is given as [undefined]; the timer is then armed when
    [syncInterval] is absent (60 minutes) or positive, not when it is
    given as [undefined], zero or negative, and in either case the manual
    trigger remains; [getSyncStatus] reports [autoSync] as it was
    resolved, and no [lastSync]. *)
Theorem constructor_defaults octokit c l :
  let g := new_GitHubSync c l in
  let enabled :=
    match autoSync_given c with
    | Absent | Given true => true
    | Undefined | Given false => false
    end in
  let positive :=
    match syncInterval_given c with
    | Absent => true
    | Undefined => false
    | Given minutes => 0 <? minutes
    end in
  runs (this_engine g) = (if enabled then [AwaitListing] else []) /\
  syncTimer (this_engine g) = enabled && positive /\
  w_disk (shared (this_engine g)) = l /\
  step octokit (this_engine g) (forceSync (this_engine g)) /\
  getSyncStatus g
  = mkStatus None
      (match autoSync_given c with
       | Absent => Some true
       | Undefined => None
       | Given b => Some b
       end)
      (repo c).
Proof.
  destruct c as [r t ld [| |[]] [| |minutes]]; cbv zeta;
    unfold new_GitHubSync, with_defaults, effective, construct, startAutoSync,
      getSyncStatus;
    cbn [autoSync_given syncInterval_given defaulted s_autoSync s_syncInterval
         autoSync syncInterval this_engine this_config s_repo repo];
    try change (0 <? 60) with true; try change (0 <? 0) with false;
    cbv iota;
    try (destruct (0 <? minutes));
    repeat split; try apply step_forceSync.
Qed.

(** ** Runs that interleave *)

Lemma perform_slot p a s :
  is_folder (disk s) = true ->
  dir (snd (perform p a s)) !! basename p = new_slot a (dir s !! basename p) /\
  (forall k, k <> basename p -> dir (snd (perform p a s)) !! k = dir s !! k) /\
  is_folder (disk (snd (perform p a s))) = true.
Proof.
  destruct s as [[mk|d] f ls a0 u e]; [discriminate|]. intros _. unfold dir.
  destruct a as [|err|m []]; cbn [perform snd disk new_slot contents is_folder];
    (split; [|split]); try reflexivity; try (intros k _; reflexivity);
    try apply lookup_insert_eq;
    intros k Hk; apply lookup_insert_ne; congruence.
Qed.

Lemma syncEntries_slot octokit files s f :
  is_folder (disk s) = true ->
  List.NoDup (map key files) -> In f files -> selected f = true ->
  stat (disk (snd (syncEntries octokit files s))) (key f)
  = new_slot (decide (octokit (e_path f)) (stat (disk s) (key f)))
             (stat (disk s) (key f)).
Proof.
  revert s. induction files as [|g files IH]; intros s Hf Hnd Hin Hsel;
    [destruct Hin|].
  inversion Hnd as [|? ? Hnotin Hnd']; subst.
  rewrite syncEntries_cons. destruct Hin as [-> | Hin].
  - rewrite syncEntries_stat_other by assumption. now apply syncEntry_slot.
  - rewrite IH by (try assumption; now rewrite syncEntry_folder).
    assert (Hne : key f <> key g).
    { intros Heq. apply Hnotin. rewrite <- Heq. now apply in_map. }
    now rewrite (syncEntry_stat_other octokit g s (key f) Hne).
Qed.

(** While the local directory can not be created every run is rejected
    when it is resumed with the listing, and nothing changes. *)
Lemma step_unavailable octokit files msg e e' :
  octokit "methodologies" = RDir files ->
  w_disk (shared e) = Missing (Some msg) /\
  Forall (fun r => r = AwaitListing) (runs e) ->
  step octokit e e' ->
  w_disk (shared e') = Missing (Some msg) /\
  Forall (fun r => r = AwaitListing) (runs e').
Proof.
  intros Hdir [Hd Hruns] Hstep.
  assert (Htrig : w_disk (shared (trigger e)) = Missing (Some msg) /\
                  Forall (fun r => r = AwaitListing) (runs (trigger e))).
  { split; [exact Hd|]. cbn [trigger runs]. apply Forall_app.
    split; [exact Hruns | now repeat constructor]. }
  destruct Hstep as [e1 | e1 _ | e1 i now _ | e1]; try exact Htrig;
    [|split; assumption].
  unfold resume. destruct (runs e1 !! i) as [r|] eqn:Hr; [|split; assumption].
  assert (Hrl : r = AwaitListing).
  { rewrite List.Forall_forall in Hruns. apply Hruns.
    apply list_elem_of_In. eapply list_elem_of_lookup_2. exact Hr. }
  subst r. rewrite (resume_AwaitListing octokit now _ files Hdir), Hd.
  cbn [shared runs]. split; [exact Hd | now apply Forall_delete].
Qed.

Lemma reach_unavailable octokit files msg e0 e :
  octokit "methodologies" = RDir files ->
  w_disk (shared e0) = Missing (Some msg) -> runs e0 = [] ->
  rtc (step octokit) e0 e ->
  w_disk (shared e) = Missing (Some msg).
Proof.
  intros Hdir Hd Hruns Hreach.
  enough (H : w_disk (shared e) = Missing (Some msg) /\
              Forall (fun r => r = AwaitListing) (runs e)) by apply H.
  revert e Hreach.
  apply (rtc_ind_r (fun e => w_disk (shared e) = Missing (Some msg) /\
                             Forall (fun r => r = AwaitListing) (runs e))).
  - split; [exact Hd|]. rewrite Hruns. constructor.
  - intros e1 e2 _ Hstep IH. exact (step_unavailable octokit files msg e1 e2 Hdir IH Hstep).
Qed.

Lemma resume_AwaitListing_available octokit now w files :
  octokit "methodologies" = RDir files ->
  available (w_disk w) = true ->
  resume_run octokit now AwaitListing w
  = advance now files (set_disk (ensured (w_disk w)) (enter w [] [] [])).
Proof.
  intros Hdir Hav. rewrite (resume_AwaitListing octokit now w files Hdir).
  destruct (w_disk w) as [[msg|]|d]; [discriminate Hav | reflexivity | reflexivity].
Qed.

Section InterleavingFacts.

Variable octokit : remote.
Variable files : list entry.
Variable w0 : world.

Hypothesis Hdir : octokit "methodologies" = RDir files.
Hypothesis Hkeys : List.NoDup (map key files).
Hypothesis Hinside :
  forall f, In f files -> selected f = true -> outside (key f) = false.

Local Abbreviation target := (target octokit files w0).
Local Abbreviation processed := (processed octokit files w0).
Local Abbreviation run_ok := (run_ok octokit files w0).

Lemma target_slot f :
  In f files -> selected f = true ->
  target !! key f
  = new_slot (decide (octokit (e_path f)) (w_dir w0 !! key f))
             (w_dir w0 !! key f).
Proof.
  intros Hin Hsel. unfold Interleaving.target.
  rewrite <- (stat_dir _ (key f))
    by (try apply (Hinside f Hin Hsel); now rewrite syncEntries_folder).
  rewrite (syncEntries_slot octokit files (in_loop w0) f eq_refl Hkeys Hin Hsel).
  now rewrite (stat_dir (in_loop w0) (key f) eq_refl (Hinside f Hin Hsel)).
Qed.

Lemma target_outside k :
  ~ In k (map key (List.filter selected files)) -> target !! k = w_dir w0 !! k.
Proof.
  intros Hk. unfold Interleaving.target.
  now rewrite syncEntries_outside.
Qed.

(** Handling the answer for a file brings its slot to the final state and
    touches no other. *)
Lemma file_step f (d : gmap string node) s :
  In f files -> selected f = true -> is_folder (disk s) = true -> dir s = d ->
  d !! key f = w_dir w0 !! key f \/ d !! key f = target !! key f ->
  let s' := snd (perform (e_path f)
                   (decide (octokit (e_path f)) (d !! key f)) s) in
  dir s' !! key f = target !! key f /\
  (forall k, k <> key f -> dir s' !! k = d !! k) /\
  is_folder (disk s') = true.
Proof.
  intros Hin Hsel Hf Hs Hslot. cbv zeta.
  destruct (perform_slot (e_path f)
              (decide (octokit (e_path f)) (d !! key f)) s Hf) as (H1 & H2 & H3).
  fold (key f) in H1, H2. rewrite Hs in H1, H2.
  split; [|split; [exact H2 | exact H3]].
  rewrite H1, (target_slot f Hin Hsel).
  destruct Hslot as [-> | ->]; [reflexivity|].
  rewrite (target_slot f Hin Hsel).
  pose proof (decide_stable (octokit (e_path f)) (w_dir w0 !! key f)) as Hst.
  destruct (decide (octokit (e_path f))
              (new_slot (decide (octokit (e_path f)) (w_dir w0 !! key f))
                        (w_dir w0 !! key f))) as [|err|m b];
    try reflexivity. discriminate Hst.
Qed.

Lemma processed_mono (d d' : gmap string node) l :
  (forall k, d !! k = target !! k -> d' !! k = target !! k) ->
  processed d l -> processed d' l.
Proof. intros Hm Hp g Hin Hsel. apply Hm. now apply Hp. Qed.

Lemma run_ok_mono w w' r :
  (is_folder (w_disk w) = true -> is_folder (w_disk w') = true) ->
  (forall k, w_dir w !! k = target !! k -> w_dir w' !! k = target !! k) ->
  run_ok w r -> run_ok w' r.
Proof.
  intros Hf Hm. destruct r as [|f rest a u e|res f rest a u e]; [auto| |];
    intros (Hfolder & Hsel & done & Hfiles & Hp);
    (split; [now apply Hf|]); (split; [exact Hsel|]);
    exists done; (split; [exact Hfiles|]); now apply (processed_mono (w_dir w)).
Qed.

Lemma processed_unselected (d : gmap string node) l :
  Forall unselected l -> processed d l.
Proof.
  intros Hall g Hin Hsel. rewrite List.Forall_forall in Hall.
  specialize (Hall g Hin). unfold unselected in Hall. congruence.
Qed.

Lemma processed_app (d : gmap string node) l1 l2 :
  processed d l1 -> processed d l2 -> processed d (l1 ++ l2).
Proof.
  intros H1 H2 g Hin Hsel. apply in_app_or in Hin as [Hin | Hin]; auto.
Qed.

(** Once a run has been through the whole listing, the directory is the
    final one. *)
Lemma processed_all (d : gmap string node) :
  (forall k, d !! k = w_dir w0 !! k \/ d !! k = target !! k) ->
  processed d files -> d = target.
Proof.
  intros Ha Hp. apply map_eq. intros k.
  destruct (in_dec string_dec k (map key (List.filter selected files)))
    as [Hin | Hout].
  - apply in_map_iff in Hin as (g & <- & Hg).
    apply filter_In in Hg as [Hg Hsel]. now apply Hp.
  - destruct (Ha k) as [H | H]; [|exact H].
    now rewrite H, target_outside.
Qed.

(** The loop going on from [rest], in a state of the run whose directory
    is [d], keeps what holds of the engine. *)
Lemma advance_keeps now done rest s (d : gmap string node) :
  files = (done ++ rest)%list -> is_folder (disk s) = true -> dir s = d ->
  (forall k, d !! k = w_dir w0 !! k \/ d !! k = target !! k) ->
  processed d done ->
  match advance now rest s with
  | (inl r, w') => w_dir w' = d /\ is_folder (w_disk w') = true /\ run_ok w' r
  | (inr out, w') => w_dir w' = d /\ is_folder (w_disk w') = true /\ d = target
  end.
Proof.
  intros Hfiles Hf Hs Ha Hp. pose proof (advance_spec now rest s) as H.
  destruct (advance now rest s) as [[r|out] w'].
  - destruct H as (skipped & g & rest' & -> & Hsk & Hg & -> & ->).
    split; [exact Hs|]. split; [exact Hf|].
    split; [exact Hf|]. split; [exact Hg|].
    exists (done ++ skipped)%list. split.
    + now rewrite Hfiles, <- app_assoc.
    + change (w_dir (request (e_path g) (leave s))) with (dir s). rewrite Hs.
      apply processed_app; [exact Hp | now apply processed_unselected].
  - destruct H as (Hsk & _ & ->). split; [exact Hs|]. split; [exact Hf|].
    apply processed_all; [exact Ha|]. intros g Hin Hsel.
    rewrite Hfiles in Hin.
    exact (processed_app d done rest Hp (processed_unselected d rest Hsk)
             g Hin Hsel).
Qed.

Lemma resume_run_keeps now r w :
  available (w_disk w) = true ->
  (forall k, w_dir w !! k = w_dir w0 !! k \/ w_dir w !! k = target !! k) ->
  run_ok w r ->
  let w' := snd (resume_run octokit now r w) in
  is_folder (w_disk w') = true /\
  (forall k, w_dir w !! k = target !! k -> w_dir w' !! k = target !! k) /\
  (forall k, w_dir w' !! k = w_dir w0 !! k \/ w_dir w' !! k = target !! k) /\
  match fst (resume_run octokit now r w) with
  | inl r' => run_ok w' r'
  | inr _ => w_dir w' = target
  end.
Proof.
  intros Hav Ha Hr. cbv zeta.
  destruct r as [|f rest a u e|res f rest a u e].
  - rewrite (resume_AwaitListing_available octokit now w files Hdir Hav).
    pose proof (advance_keeps now [] files
                  (set_disk (ensured (w_disk w)) (enter w [] [] [])) (w_dir w)
                  eq_refl eq_refl eq_refl Ha) as H.
    destruct (advance now files _) as [[r'|out] w'];
      cbn [fst snd]; (destruct H as (Hd & Hf & H); [intros g []|]);
      rewrite Hd; repeat split; auto.
  - destruct Hr as (Hf & Hsel & done & Hfiles & Hp).
    assert (Hin : In f files).
    { rewrite Hfiles. apply in_or_app. right. now left. }
    rewrite resume_AwaitFile.
    assert (Hstat : stat (w_disk w) (key f) = w_dir w !! key f).
    { apply (stat_dir (enter w a u e)); [exact Hf | now apply Hinside]. }
    rewrite Hstat.
    pose proof (file_step f (w_dir w) (enter w a u e) Hin Hsel Hf eq_refl
                  (Ha (key f))) as (H1 & H2 & H3).
    destruct (perform (e_path f)
                (decide (octokit (e_path f)) (w_dir w !! key f))
                (enter w a u e)) as [res s1].
    cbn [fst snd] in *.
    change (w_dir (mkWorld (disk s1) (w_fetched w) (lastSync s1))) with (dir s1).
    cbn [w_disk].
    assert (Hm : forall k, w_dir w !! k = target !! k -> dir s1 !! k = target !! k).
    { intros k Hk. destruct (String.eqb_spec k (key f)) as [-> | Hne];
        [exact H1 | now rewrite H2]. }
    split; [exact H3|]. split; [exact Hm|]. split.
    + intros k. destruct (String.eqb_spec k (key f)) as [-> | Hne];
        [now right | rewrite H2 by assumption; apply Ha].
    + split; [exact H3|]. split; [exact Hsel|]. exists done.
      split; [exact Hfiles|].
      change (w_dir (mkWorld (disk s1) (w_fetched w) (lastSync s1))) with (dir s1).
      apply processed_app; [now apply (processed_mono (w_dir w))|].
      intros g [<- | []] _. exact H1.
  - destruct Hr as (Hf & Hsel & done & Hfiles & Hp).
    assert (Hadv : forall s, disk s = w_disk w ->
              match advance now rest s with
              | (inl r', w') =>
                  w_dir w' = w_dir w /\ is_folder (w_disk w') = true /\ run_ok w' r'
              | (inr out, w') =>
                  w_dir w' = w_dir w /\ is_folder (w_disk w') = true /\
                  w_dir w = target
              end).
    { intros s Hs. apply (advance_keeps now (done ++ [f]) rest s (w_dir w));
        try assumption.
      - now rewrite Hfiles, <- app_assoc.
      - now rewrite Hs.
      - unfold dir, w_dir. now rewrite Hs. }
    cbn [resume_run].
    destruct res as [[]|err];
      [pose proof (Hadv (enter w a u e) eq_refl) as H
      |pose proof (Hadv (snd (push_error (e_name f ++ ": " ++ message err)
                                 (enter w a u e))) eq_refl) as H];
      destruct (advance now rest _) as [[r'|out] w']; cbn [fst snd];
      destruct H as (Hd & Hf' & H); rewrite Hd; repeat split; auto; congruence.
Qed.

Lemma step_keeps e0 e e' :
  shared e0 = w0 ->
  interleaving_inv octokit files w0 e0 e -> step octokit e e' ->
  interleaving_inv octokit files w0 e0 e' /\
  (List.length (settled e) <= List.length (settled e'))%nat.
Proof.
  intros Hw0 (Hav & Ha & Hruns & Hc) Hstep.
  assert (Htrig : interleaving_inv octokit files w0 e0 (trigger e)).
  { split; [exact Hav|]. split; [exact Ha|]. split; [|exact Hc].
    cbn [trigger runs shared]. apply Forall_app. split.
    - eapply List.Forall_impl; [|exact Hruns]. intros r.
      apply run_ok_mono; auto.
    - constructor; [exact I | constructor]. }
  destruct Hstep as [e1 | e1 _ | e1 i now _ | e1];
    try (split; [exact Htrig | cbn; lia]).
  2:{ split; [|cbn; lia]. split; [exact Hav|]. split; [exact Ha|].
      split; assumption. }
  unfold resume. destruct (runs e1 !! i) as [r|] eqn:Hr;
    [|split; [split; [exact Hav | split; [exact Ha | split; assumption]] | lia]].
  assert (Hrok : run_ok (shared e1) r).
  { rewrite List.Forall_forall in Hruns. apply Hruns.
    apply list_elem_of_In. eapply list_elem_of_lookup_2. exact Hr. }
  destruct (resume_run_keeps now r (shared e1) Hav Ha Hrok)
    as (Hf' & Hm & Ha' & Hres).
  assert (Hav' : available (w_disk (snd (resume_run octokit now r (shared e1))))
                 = true).
  { destruct (w_disk (snd (resume_run octokit now r (shared e1))));
      [discriminate Hf' | reflexivity]. }
  assert (Hruns' : Forall (run_ok (snd (resume_run octokit now r (shared e1))))
                     (runs e1)).
  { eapply List.Forall_impl; [|exact Hruns]. intros r0.
    apply run_ok_mono; [intros _; exact Hf' | exact Hm]. }
  assert (Hc' : (List.length (settled e0) < List.length (settled e1))%nat ->
                w_dir (snd (resume_run octokit now r (shared e1))) = target).
  { intros Hlt. apply map_eq. intros k. apply Hm. now rewrite (Hc Hlt). }
  destruct (resume_run octokit now r (shared e1)) as [[r'|out] w'];
    cbn [fst snd] in *.
  - split; [|cbn; lia]. split; [exact Hav'|]. split; [exact Ha'|].
    split; [|exact Hc'].
    cbn [runs shared]. now apply Forall_insert.
  - split; [|cbn [settled]; rewrite length_app; simpl; lia].
    split; [exact Hav'|]. split; [exact Ha'|]. split; [|intros _; exact Hres].
    cbn [runs shared]. now apply Forall_delete.
Qed.

Lemma reach_keeps e0 e :
  shared e0 = w0 -> runs e0 = [] -> available (w_disk w0) = true ->
  rtc (step octokit) e0 e ->
  interleaving_inv octokit files w0 e0 e.
Proof.
  intros Hw0 Hruns Hav Hreach. revert e Hreach.
  apply (rtc_ind_r (interleaving_inv octokit files w0 e0)).
  - split; [now rewrite Hw0|]. split; [intros k; left; now rewrite Hw0|]. split.
    + rewrite Hruns. constructor.
    + intros H. lia.
  - intros e1 e2 _ Hstep IH. now apply (step_keeps e0 e1 e2 Hw0 IH).
Qed.

End InterleavingFacts.

(** X14. Runs that overlap do not disturb the directory.  With a remote
    that does not change and the listing of a directory, start from an
    engine with no run in flight and let it take any steps (triggers,
    timer fires, resumptions in any order): as soon as one run has settled
    since, the directory is the one a single run alone leaves, whatever
    other runs are still in flight or follow. *)
Theorem overlapping_runs_leave_the_same_directory octokit files e0 e now :
  octokit "methodologies" = RDir files ->
  directory_listing files ->
  runs e0 = [] ->
  rtc (step octokit) e0 e ->
  (List.length (settled e0) < List.length (settled e))%nat ->
  w_dir (shared e) = w_dir (snd (syncFromGitHub octokit now (shared e0))).
Proof.
  intros Hdir Hlist Hruns Hreach Hsettled.
  rewrite (syncFromGitHub_directory octokit now (shared e0) files Hdir).
  destruct (available (w_disk (shared e0))) eqn:Hav.
  - destruct (reach_keeps octokit files (shared e0) Hdir
                (directory_listing_keys files Hlist)
                (fun f => directory_listing_inside files f Hlist) e0 e
                eq_refl Hruns Hav Hreach) as (_ & _ & _ & Hfinal).
    rewrite (Hfinal Hsettled).
    destruct (w_disk (shared e0)) as [[msg|]|d]; [discriminate Hav | |];
      reflexivity.
  - destruct (w_disk (shared e0)) as [[msg|]|d] eqn:Hd; try discriminate Hav.
    unfold w_dir.
    rewrite (reach_unavailable octokit files msg e0 e Hdir Hd Hruns Hreach).
    cbn [snd request w_disk]. now rewrite Hd.
Qed.

Lemma overlapping_runs_leave_the_same_directory_witness :
  w_dir (shared (resumes (Examples.repo "1.0.0") 9
                   [0; 1; 0; 1; 0; 1; 0; 1; 0]%nat
                   (forceSync (forceSync Examples.idle))))
  = w_dir (snd (syncFromGitHub (Examples.repo "1.0.0") 7 (shared Examples.idle))).
Proof.
  apply (overlapping_runs_leave_the_same_directory (Examples.repo "1.0.0")
           Examples.files Examples.idle).
  - reflexivity.
  - split.
    + repeat constructor; discriminate.
    + repeat constructor; simpl; intuition discriminate.
  - reflexivity.
  - eapply rtc_l; [apply step_forceSync|].
    eapply rtc_l; [apply step_forceSync|]. apply resumes_reachable.
  - vm_compute. lia.
Defined.

(** ** Versions on disk *)

Lemma gate_passes m lm v2 :
  Spec.field lm "version" = Some (JStr v2) ->
  gate m (Json lm) = Ok false ->
  exists v1, Spec.field m "version" = Some (JStr v1) /\ compareVersions v1 v2 > 0.
Proof.
  intros Hv2. assert (Hlm : lm <> JNull) by (intros ->; discriminate Hv2).
  unfold gate. cbn [JSON_parse rbind].
  destruct (get (Some m) "version") as [v1|err] eqn:Hget; [|discriminate].
  cbn [rbind]. rewrite (get_field lm "version" Hlm), Hv2. cbn [rbind].
  assert (Hm : m <> JNull) by (intros ->; discriminate Hget).
  rewrite (get_field m "version" Hm) in Hget. injection Hget as <-.
  destruct (Spec.field m "version") as [[| | |v1| |]|];
    unfold call_compareVersions; cbn [call_split rbind]; try discriminate.
  intros [= Hc]. exists v1. split; [reflexivity|].
  apply Z.leb_gt in Hc. apply Z.lt_gt. exact Hc.
Qed.

(** X15. A run never takes a file back to an older version: over the
    listing of a directory, a local file that holds a record with a string
    version is after the run either that same record, or a valid record of
    the remote whose version is a string and is strictly greater. *)
Theorem sync_never_downgrades octokit files now w k lm v2 :
  octokit "methodologies" = RDir files ->
  directory_listing files ->
  w_dir w !! k = Some (File (Json lm)) ->
  Spec.field lm "version" = Some (JStr v2) ->
  let d' := w_dir (snd (syncFromGitHub octokit now w)) in
  d' !! k = Some (File (Json lm)) \/
  exists m v1,
    validateMethodology m = Ok tt /\
    d' !! k = Some (File (JSON_stringify m)) /\
    Spec.field m "version" = Some (JStr v1) /\
    compareVersions v1 v2 > 0.
Proof.
  intros Hdir Hlist Hslot Hv2. cbv zeta.
  assert (Hf : is_folder (w_disk w) = true) by (apply (w_dir_is_Some w k); eauto).
  destruct (syncFromGitHub_dir octokit now w) as (l & Hl & -> & _).
  assert (Hrun : dir (snd (syncEntries octokit l (in_loop w)))
                 = dir (snd (syncEntries octokit files (in_loop w)))
                 \/ l = []).
  { destruct Hl as [Hl | ->]; [left | now right].
    rewrite Hdir in Hl. now injection Hl as ->. }
  destruct Hrun as [-> | ->]; [|now left].
  destruct (in_dec string_dec k (map key (List.filter selected files)))
    as [Hin | Hout].
  2:{ left. now rewrite syncEntries_outside. }
  apply in_map_iff in Hin as (f & <- & Hfl).
  apply filter_In in Hfl as [Hfl Hsel].
  assert (Hinside := directory_listing_inside files f Hlist Hfl Hsel).
  assert (Hloop : is_folder (disk (in_loop w)) = true) by reflexivity.
  rewrite <- (stat_dir _ (key f))
    by (try exact Hinside; now rewrite syncEntries_folder).
  rewrite (syncEntries_slot octokit files (in_loop w) f Hloop
             (directory_listing_keys files Hlist) Hfl Hsel).
  rewrite (stat_dir (in_loop w) (key f) Hloop Hinside), in_loop_dir, Hslot.
  destruct (decide (octokit (e_path f)) (Some (File (Json lm)))) as [|err|m b] eqn:Hd;
    cbn [new_slot]; try (now left).
  right. destruct (decide_Write_inv _ _ _ _ Hd) as [Hfile Hval].
  rewrite Hfile in Hd. cbn [decide JSON_parse] in Hd. rewrite Hval in Hd.
  destruct (gate m (Json lm)) as [[]|err] eqn:Hgate; try discriminate Hd.
  destruct (gate_passes m lm v2 Hv2 Hgate) as (v1 & Hv1 & Hgt).
  exists m, v1. auto.
Qed.

Lemma sync_never_downgrades_witness :
  let d' := w_dir (snd (syncFromGitHub (Examples.repo "1.0.0") 7
                          (leave (Examples.synced "2.0.0")))) in
  d' !! "gt-charmaz.json" = Some (File (Json (Examples.charmaz "2.0.0"))) \/
  exists m v1,
    validateMethodology m = Ok tt /\
    d' !! "gt-charmaz.json" = Some (File (JSON_stringify m)) /\
    Spec.field m "version" = Some (JStr v1) /\
    compareVersions v1 "2.0.0" > 0.
Proof.
  apply (sync_never_downgrades (Examples.repo "1.0.0") Examples.files 7
           (leave (Examples.synced "2.0.0")) "gt-charmaz.json"
           (Examples.charmaz "2.0.0") "2.0.0").
  - reflexivity.
  - split.
    + repeat constructor; discriminate.
    + repeat constructor; simpl; intuition discriminate.
  - vm_compute. reflexivity.
  - reflexivity.
Defined.

(** ** The local directory and what stands in the way *)

Lemma decide_directory r : is_write (decide r (Some Directory)) = false.
Proof.
  destruct r as [msg|entries|[m|w']|]; try reflexivity.
  cbn [decide JSON_parse]. destruct (validateMethodology m); reflexivity.
Qed.

Lemma syncEntry_directory octokit file s k :
  stat (disk s) k = Some Directory ->
  stat (disk (snd (syncEntry octokit file s))) k = Some Directory.
Proof.
  intros H. destruct (String.eqb_spec k (key file)) as [->|Hne].
  - destruct (syncEntry_quiet octokit file s) as (Hd & _); [|now rewrite Hd].
    intros _. rewrite H. apply decide_directory.
  - now rewrite syncEntry_stat_other.
Qed.

Lemma syncEntries_directory octokit files s k :
  stat (disk s) k = Some Directory ->
  stat (disk (snd (syncEntries octokit files s))) k = Some Directory.
Proof.
  revert s. induction files as [|file files IH]; intros s H; [assumption|].
  rewrite syncEntries_cons. now apply IH, syncEntry_directory.
Qed.

Lemma syncEntries_directory_reported octokit files file m s :
  In file files -> selected file = true ->
  octokit (e_path file) = RFile (Json m) -> validateMethodology m = Ok tt ->
  stat (disk s) (key file) = Some Directory ->
  In (e_name file ++ ": EISDIR: illegal operation on a directory, read")
     (errors (snd (syncEntries octokit files s))).
Proof.
  revert s. induction files as [|f files IH]; intros s Hin Hsel Hfile Hval Hslot;
    [destruct Hin|].
  rewrite syncEntries_cons. destruct Hin as [-> | Hin].
  - apply syncEntries_errors_kept.
    rewrite syncEntry_perform, Hsel, Hfile. unfold key in Hslot.
    rewrite Hslot. cbn [decide JSON_parse]. rewrite Hval.
    cbn [perform push_error snd errors message].
    apply in_or_app. right. now left.
  - apply IH; try assumption. now apply syncEntry_directory.
Qed.

(** X16. A directory in the place of a file is never written over: where
    a base name leads to a directory (a sub-directory of the local
    directory, or the names that lead out of it), it still does after a
    run, and when the listing selects a file of that name with a valid
    record, the run reports the failed read for it. *)
Theorem sync_never_replaces_a_directory octokit now w k :
  stat (w_disk w) k = Some Directory ->
  stat (w_disk (snd (syncFromGitHub octokit now w))) k = Some Directory /\
  forall files file m,
    octokit "methodologies" = RDir files ->
    In file files -> selected file = true -> key file = k ->
    octokit (e_path file) = RFile (Json m) ->
    validateMethodology m = Ok tt ->
    exists out,
      fst (syncFromGitHub octokit now w) = Ok out /\
      In (e_name file ++ ": EISDIR: illegal operation on a directory, read")
         (o_errors out).
Proof.
  intros H.
  assert (Hd : exists d, w_disk w = Folder d).
  { destruct (w_disk w) as [mk|d]; [discriminate H | eauto]. }
  destruct Hd as [d Hd].
  assert (Hloop : disk (in_loop w) = w_disk w).
  { apply in_loop_disk. now rewrite Hd. }
  split.
  - destruct (syncFromGitHub_dir octokit now w) as (files & _ & _ & Hdisk).
    rewrite Hdisk by (now rewrite Hd).
    apply syncEntries_directory. now rewrite Hloop.
  - intros files file m Hdir Hin Hsel Hkey Hfile Hval.
    rewrite (syncFromGitHub_directory octokit now w files Hdir), Hd.
    eexists. split; [reflexivity|]. cbn [o_errors].
    apply (syncEntries_directory_reported octokit files file m); try assumption.
    now rewrite Hkey, Hloop.
Qed.

Lemma sync_never_replaces_a_directory_witness :
  stat (w_disk (snd (syncFromGitHub (Examples.repo "1.0.0") 7
                       (leave Samples.obstructed)))) "gt-charmaz.json"
    = Some Directory /\
  exists out,
    fst (syncFromGitHub (Examples.repo "1.0.0") 7 (leave Samples.obstructed))
      = Ok out /\
    In "gt-charmaz.json: EISDIR: illegal operation on a directory, read"
       (o_errors out).
Proof.
  destruct (sync_never_replaces_a_directory (Examples.repo "1.0.0") 7
              (leave Samples.obstructed) "gt-charmaz.json") as [Hkeep Hreport].
  - vm_compute. reflexivity.
  - split; [exact Hkeep|].
    apply (Hreport Examples.files Examples.gt_charmaz (Examples.charmaz "1.0.0"));
      try reflexivity.
    simpl. tauto.
Defined.

